(** * Movie finder: discovery, enrichment, ranking and grouping

    A shallow embedding of [movie_finder.py] and of the pipeline part of
    [Best New Movies/main.py] ([MovieFinderApp.load_movies]).

    Conventions of the embedding.
    - Python values that cross the JSON boundary are [pyval]s; the
      operations on them ([float], [int], [round], [dict.get], ...) return
      a [result], whose [Raise] carries the Python exception.
    - A Python [float] is a [pyfloat]: an exact rational or one of the
      three special values.  The operations [fadd], [fmul], [fdiv] on
      the finite part are exact; [Binary64] adds the rounding of the
      machine, and [RankBinary64.rank_score] is [rank_score] with every
      operation rounded.
    - HTTP is an oracle: [world] gives the outcome of the n-th request the
      run issues; the state counts the requests issued and logs the
      sleeps. *)

From Stdlib Require Import ZArith QArith Qround Qabs Qpower Lqa Lia.
From Stdlib Require Import Ascii String Permutation.
From Stdlib Require DecimalString DecimalPos.
From stdpp Require Import gmap strings list.

Set Warnings "-register-all".
Open Scope Z_scope.

(** ** Exceptions and results *)

(** The message of a [SystemExit]: the four of [_get], and the exit of the
    script's last lines. *)
Inductive exit_reason :=
| AuthFailed                 (* "TMDb authentication failed (401)..." *)
| Unreachable (retries : nat) (* "Failed to reach TMDb API after N attempts" *)
| InvalidResponse            (* "Invalid response from TMDb API: ..." *)
| AllRetries                 (* "Failed to reach TMDb API after all retries" *)
| NetworkError.              (* [sys.exit(1)] after "Network/API error:" *)

(** The exception classes the pipeline can meet.  [SystemExit] derives
    from [BaseException] only; every other one derives from [Exception].
    [HTTPError] and [ConnectionError] are [requests] exceptions;
    [RequestsJSONDecodeError] is the [JSONDecodeError] of requests 2.27 and
    later, which derives from both [RequestException] and [ValueError]. *)
Inductive exn :=
| SystemExit (why : exit_reason)
| HTTPError (status : Z)
| ConnectionError
| RequestsJSONDecodeError
| ValueError
| TypeError
| KeyError
| AttributeError
| ZeroDivisionError
| OverflowError.

(** [isinstance(e, Exception)] *)
Definition is_Exception (e : exn) : bool :=
  match e with SystemExit _ => false | _ => true end.

(** [isinstance(e, requests.exceptions.RequestException)] *)
Definition is_RequestException (e : exn) : bool :=
  match e with
  | HTTPError _ | ConnectionError | RequestsJSONDecodeError => true
  | _ => false
  end.

(** [isinstance(e, (ValueError, TypeError))] *)
Definition is_ValueError_or_TypeError (e : exn) : bool :=
  match e with
  | ValueError | TypeError | RequestsJSONDecodeError => true
  | _ => false
  end.

Inductive result (A : Type) :=
| Ok (a : A)
| Raise (e : exn).
Arguments Ok {A} a.
Arguments Raise {A} e.

#[global] Instance result_ret : MRet result := fun _ a => Ok a.
#[global] Instance result_bind : MBind result := fun _ _ k r =>
  match r with
  | Ok a => k a
  | Raise e => Raise e
  end.

(** ** Python values *)

Inductive pyfloat :=
| Fin (q : Q)
| PosInf
| NegInf
| NaN.

Inductive pyval :=
| VNone
| VBool (b : bool)
| VInt (z : Z)
| VFloat (f : pyfloat)
| VStr (s : string)
| VList (l : list pyval)
| VDict (d : list (string * pyval)).

(** [x < y] on floats: false as soon as one side is NaN. *)
Definition flt (x y : pyfloat) : bool :=
  match x, y with
  | NaN, _ | _, NaN => false
  | Fin a, Fin b => negb (Qle_bool b a)
  | Fin _, PosInf => true
  | NegInf, Fin _ => true
  | NegInf, PosInf => true
  | _, _ => false
  end.

(** Python's two-argument [min(a, b)] and [max(a, b)]: the first argument
    is kept unless the second is strictly smaller (resp. larger). *)
Definition pymin (a b : pyfloat) : pyfloat := if flt b a then b else a.
Definition pymax (a b : pyfloat) : pyfloat := if flt a b then b else a.

Definition Qsign (q : Q) : Z := Z.sgn (Qnum q).

Definition fadd (x y : pyfloat) : pyfloat :=
  match x, y with
  | NaN, _ | _, NaN => NaN
  | Fin a, Fin b => Fin (a + b)
  | PosInf, NegInf | NegInf, PosInf => NaN
  | PosInf, _ | _, PosInf => PosInf
  | NegInf, _ | _, NegInf => NegInf
  end.

Definition inf_of_sign (s : Z) : pyfloat :=
  match s with
  | Z0 => NaN
  | Zpos _ => PosInf
  | Zneg _ => NegInf
  end.

Definition fsign (x : pyfloat) : Z :=
  match x with
  | Fin a => Qsign a
  | PosInf => 1
  | NegInf => -1
  | NaN => 0
  end.

Definition fmul (x y : pyfloat) : pyfloat :=
  match x, y with
  | NaN, _ | _, NaN => NaN
  | Fin a, Fin b => Fin (a * b)
  | _, _ => inf_of_sign (fsign x * fsign y)
  end.

(** [x / y] for floats; a zero divisor raises. *)
Definition fdiv (x y : pyfloat) : result pyfloat :=
  match y with
  | Fin b =>
      if Qeq_bool b 0 then Raise ZeroDivisionError
      else match x with
           | Fin a => Ok (Fin (a / b))
           | NaN => Ok NaN
           | _ => Ok (inf_of_sign (fsign x * Qsign b))
           end
  | NaN => Ok NaN
  | _ => match x with
         | Fin _ => Ok (Fin 0)
         | _ => Ok NaN
         end
  end.

(** [a / b] for two ints (true division). *)
Definition int_truediv (a b : Z) : result pyfloat :=
  if b =? 0 then Raise ZeroDivisionError
  else Ok (Fin (inject_Z a / inject_Z b)).

(** ** Parsing numbers out of strings: [int(s)] and [float(s)] *)

Definition is_space (c : ascii) : bool :=
  let n := nat_of_ascii c in
  ((9 <=? n) && (n <=? 13) || (28 <=? n) && (n <=? 32))%nat.

Definition is_digit (c : ascii) : bool :=
  let n := nat_of_ascii c in ((48 <=? n) && (n <=? 57))%nat.

Definition digit_val (c : ascii) : Z := Z.of_nat (nat_of_ascii c) - 48.

Fixpoint lstrip (s : string) : string :=
  match s with
  | String c s' => if is_space c then lstrip s' else s
  | EmptyString => s
  end.

Fixpoint rstrip (s : string) : string :=
  match s with
  | String c s' =>
      match rstrip s' with
      | EmptyString => if is_space c then EmptyString else String c EmptyString
      | r => String c r
      end
  | EmptyString => EmptyString
  end.

(** [s.strip()] *)
Definition strip (s : string) : string := rstrip (lstrip s).

(** A digit part: digits, with single underscores between digits allowed.
    [acc] is the value read so far, [n] the number of digits read so far,
    and the result also gives the unread rest. *)
Fixpoint digitpart (s : string) (acc : Z) (n : nat) : Z * nat * string :=
  match s with
  | String c s' =>
      if is_digit c then digitpart s' (10 * acc + digit_val c) (S n)
      else if Ascii.eqb c "_" then
        match n, s' with
        | S _, String d _ => if is_digit d then digitpart s' acc n else (acc, n, s)
        | _, _ => (acc, n, s)
        end
      else (acc, n, s)
  | EmptyString => (acc, n, s)
  end.

(** An optional sign: [-1] or [1], and the rest. *)
Definition read_sign (s : string) : Z * string :=
  match s with
  | String "-" s' => (-1, s')
  | String "+" s' => (1, s')
  | _ => (1, s)
  end.

(** [int(s)] for a [str] in base 10. *)
Definition int_of_str (s : string) : result Z :=
  let '(sg, s1) := read_sign (strip s) in
  match digitpart s1 0 0 with
  | (v, S _, EmptyString) => Ok (sg * v)
  | _ => Raise ValueError
  end.

Definition lower_ascii (c : ascii) : ascii :=
  let n := nat_of_ascii c in
  if ((65 <=? n) && (n <=? 90))%nat then ascii_of_nat (n + 32) else c.

Fixpoint lower (s : string) : string :=
  match s with
  | String c s' => String (lower_ascii c) (lower s')
  | EmptyString => EmptyString
  end.

(** Ten to the power [e], for any sign of [e]. *)
Definition pow10 (e : Z) : Q := Qpower 10 e.

(** The optional exponent of a float literal. *)
Definition read_exponent (s : string) : option (Z * string) :=
  match s with
  | String c s' =>
      if Ascii.eqb (lower_ascii c) "e" then
        let '(sg, s1) := read_sign s' in
        match digitpart s1 0 0 with
        | (v, S _, r) => Some (sg * v, r)
        | _ => None
        end
      else Some (0, s)
  | EmptyString => Some (0, s)
  end.

(** The unsigned decimal part of a float literal:
    [digits [. [digits]] [exponent]] or [. digits [exponent]]. *)
Definition read_decimal (s : string) : option Q :=
  let '(ip, ni, r1) := digitpart s 0 0 in
  let '(fp, nf, r2) :=
    match r1 with
    | String "." r => digitpart r 0 0
    | _ => (0, 0%nat, r1)
    end in
  match ni, nf with
  | O, O => None
  | _, _ =>
      match read_exponent r2 with
      | Some (e, EmptyString) =>
          Some ((inject_Z ip + inject_Z fp * pow10 (Z.opp (Z.of_nat nf)))
                * pow10 e)%Q
      | _ => None
      end
  end.

(** [float(s)] for a [str]. *)
Definition float_of_str (s : string) : result pyfloat :=
  let '(sg, s1) := read_sign (strip s) in
  let w := lower s1 in
  if (String.eqb w "inf" || String.eqb w "infinity")%bool
  then Ok (inf_of_sign sg)
  else if String.eqb w "nan" then Ok NaN
  else match read_decimal s1 with
       | Some q => Ok (Fin (inject_Z sg * q))
       | None => Raise ValueError
       end.

(** ** Conversions *)

(** The largest magnitude an [int] may have for [float(int)] not to
    overflow: everything below [2^1024 - 2^970] rounds to a finite
    double. *)
Definition float_int_bound : Z := 2 ^ 1024 - 2 ^ 970.

(** [float(x)] *)
Definition py_float (x : pyval) : result pyfloat :=
  match x with
  | VBool b => Ok (Fin (inject_Z (Z.b2z b)))
  | VInt z =>
      if Z.abs z <? float_int_bound then Ok (Fin (inject_Z z))
      else Raise OverflowError
  | VFloat f => Ok f
  | VStr s => float_of_str s
  | VNone | VList _ | VDict _ => Raise TypeError
  end.

(** Truncation toward zero. *)
Definition Qtrunc (q : Q) : Z := Z.quot (Qnum q) (Zpos (Qden q)).

(** [int(x)] *)
Definition py_int (x : pyval) : result Z :=
  match x with
  | VBool b => Ok (Z.b2z b)
  | VInt z => Ok z
  | VFloat (Fin q) => Ok (Qtrunc q)
  | VFloat NaN => Raise ValueError
  | VFloat _ => Raise OverflowError
  | VStr s => int_of_str s
  | VNone | VList _ | VDict _ => Raise TypeError
  end.

(** Truth value of a Python object. *)
Definition truthy (x : pyval) : bool :=
  match x with
  | VNone => false
  | VBool b => b
  | VInt z => negb (z =? 0)
  | VFloat (Fin q) => negb (Qeq_bool q 0)
  | VFloat _ => true
  | VStr s => negb (String.eqb s "")
  | VList l => match l with [] => false | _ => true end
  | VDict d => match d with [] => false | _ => true end
  end.

(** [x or y] *)
Definition py_or (x y : pyval) : pyval := if truthy x then x else y.

(** [isinstance(x, int)], with the integer it stands for ([bool] is a
    subclass of [int]). *)
Definition as_int (x : pyval) : option Z :=
  match x with
  | VInt z => Some z
  | VBool b => Some (Z.b2z b)
  | _ => None
  end.

(** ** Ranking: [rank_score] *)

Module Rank.

(** [m = 150], [C = 6.5] *)
Definition m : Z := 150.
Definition C : pyfloat := Fin (13 # 2).

(** [v = max(0, vote_count if isinstance(vote_count, int) else 0)] *)
Definition sanitize_votes (vote_count : pyval) : Z :=
  Z.max 0 (default 0 (as_int vote_count)).

(** [x if x is not None else 0.0] *)
Definition or_zero (x : pyval) : pyval :=
  match x with
  | VNone => VFloat (Fin 0)
  | _ => x
  end.

(** [rank_score], its float operations taken exactly.
    [RankBinary64.rank_score] is the same function with each operation
    rounded as the machine does. *)
Definition rank_score (vote_average vote_count popularity : pyval)
  : result pyfloat :=
  (let v := sanitize_votes vote_count in
   fa ← py_float (or_zero vote_average);
   let R := pymax (Fin 0) (pymin (Fin 10) fa) in
   fp ← py_float (or_zero popularity);
   let P := pymax (Fin 0) fp in
   wv ← int_truediv v (v + m);
   wm ← int_truediv m (v + m);
   let bayes := fadd (fmul wv R) (fmul wm C) in
   pc ← fdiv P (Fin 100);
   let norm_popularity := pymin (Fin 10) pc in
   Ok (fadd (fmul (Fin (7 # 10)) bayes) (fmul (Fin (3 # 10)) norm_popularity))).

End Rank.

(** ** Dictionaries *)

(** A [dict] keeps its keys in insertion order: an association list with
    no repeated key.  [odict_set] is [d[k] = v]: an existing key keeps its
    place, a new key goes last. *)
Section odict.
Context {K V : Type} `{EqDecision K}.

Fixpoint odict_get (k : K) (d : list (K * V)) : option V :=
  match d with
  | [] => None
  | (k', v) :: d' => if decide (k = k') then Some v else odict_get k d'
  end.

Fixpoint odict_set (k : K) (v : V) (d : list (K * V)) : list (K * V) :=
  match d with
  | [] => [(k, v)]
  | (k', v') :: d' =>
      if decide (k = k') then (k, v) :: d' else (k', v') :: odict_set k v d'
  end.

Definition odict_keys (d : list (K * V)) : list K := d.*1.
Definition odict_values (d : list (K * V)) : list V := d.*2.
End odict.

(** [d.get(k, dflt)] on a JSON object. *)
Definition get_default (d : list (string * pyval)) (k : string) (dflt : pyval)
  : pyval :=
  default dflt (odict_get k d).

(** [d.get(k)] *)
Definition get_none (d : list (string * pyval)) (k : string) : pyval :=
  get_default d k VNone.

(** ** The HTTP helper: [_get] *)

Module Http.

(** What [r.json()] does with the body of a response: it returns the
    decoded value or raises.  Which class the error has depends on the
    installed [requests]: before 2.27 it is the decoder's own
    [JSONDecodeError], a plain [ValueError]; from 2.27 on it is
    [requests.exceptions.JSONDecodeError], which is also a
    [RequestException]. *)
Inductive json_error :=
| PlainDecodeError
| RequestsDecodeError.

Inductive body :=
| Decoded (v : pyval)
| Undecodable (e : json_error).

Record response := {
  status_code : Z;
  retry_after : option string;   (* r.headers.get('Retry-After') *)
  content : body
}.

(** The outcome of one [requests.get]: a response, or a transport failure
    (connection error, timeout), which is a [RequestException]. *)
Inductive http_outcome :=
| Responded (r : response)
| Failed.

(** The n-th request of the run gets [w n]. *)
Definition world := nat → http_outcome.

Record state := {
  issued : nat;        (* requests issued so far *)
  slept : list Q       (* arguments of [time.sleep], latest first *)
}.

Definition M (A : Type) : Type := state → result A * state.

Definition ret {A} (a : A) : M A := fun st => (Ok a, st).
Definition raise {A} (e : exn) : M A := fun st => (Raise e, st).
Definition bind {A B} (c : M A) (k : A → M B) : M B := fun st =>
  match c st with
  | (Ok a, st') => k a st'
  | (Raise e, st') => (Raise e, st')
  end.
Definition lift {A} (r : result A) : M A := fun st => (r, st).

(** [try: body  except Exception: handler] *)
Definition try_except_Exception {A} (body : M A) (handler : exn → M A) : M A :=
  fun st =>
    match body st with
    | (Raise e, st') => if is_Exception e then handler e st' else (Raise e, st')
    | r => r
    end.

End Http.

Declare Scope http_scope.
Delimit Scope http_scope with http.
Notation "x <~ c ;; k" := (Http.bind c (fun x => k))
  (at level 100, c at next level, right associativity) : http_scope.
Notation "c ;; k" := (Http.bind c (fun _ => k))
  (at level 100, right associativity) : http_scope.

Module HttpGet.
Import Http.
Open Scope http_scope.

(** The interpreter keeps a duration as a signed 64-bit count of
    nanoseconds: these are the least and the greatest number of seconds
    that fit. *)
Definition SLEEP_MIN : Q := -9223372036854775808 # 1000000000.
Definition SLEEP_MAX : Q := 9223372036854775807 # 1000000000.

(** [time.sleep(secs)]: an argument that does not fit the interpreter's
    count of nanoseconds raises [OverflowError], and a negative one
    [ValueError]. *)
Definition sleep (secs : Q) : M unit := fun st =>
  if negb (Qle_bool SLEEP_MIN secs && Qle_bool secs SLEEP_MAX)
  then (Raise OverflowError, st)
  else if Qle_bool 0 secs
  then (Ok tt, {| issued := issued st; slept := secs :: slept st |})
  else (Raise ValueError, st).

(** [requests.get(url, params=..., timeout=20)] *)
Definition requests_get (w : world) : M response := fun st =>
  let st' := {| issued := S (issued st); slept := slept st |} in
  match w (issued st) with
  | Responded r => (Ok r, st')
  | Failed => (Raise ConnectionError, st')
  end.

(** [r.raise_for_status()] *)
Definition raise_for_status (r : response) : result unit :=
  if (400 <=? status_code r) && (status_code r <? 600)
  then Raise (HTTPError (status_code r)) else Ok tt.

(** [r.json()] *)
Definition json (r : response) : result pyval :=
  match content r with
  | Decoded v => Ok v
  | Undecodable PlainDecodeError => Raise ValueError
  | Undecodable RequestsDecodeError => Raise RequestsJSONDecodeError
  end.

(** [isinstance(data, (dict, list))] *)
Definition is_dict_or_list (v : pyval) : bool :=
  match v with
  | VDict _ | VList _ => true
  | _ => false
  end.

(** [1.5 * (2 ** attempt)] *)
Definition backoff (attempt : nat) : Q := (3 # 2) * inject_Z (2 ^ Z.of_nat attempt).

(** [min(1.5 * (2 ** attempt), 10)] *)
Definition retry_delay (attempt : nat) : Q :=
  if Qle_bool (backoff attempt) 10 then backoff attempt else 10.

(** [int(r.headers.get('Retry-After', 1.5 * (2 ** attempt)))] *)
Definition retry_after_secs (r : response) (attempt : nat) : result Z :=
  match retry_after r with
  | Some s => int_of_str s
  | None => Ok (Qtrunc (backoff attempt))
  end.

(** The body of the [try] of one attempt.  [Ok (Some data)] is
    [return data]; [Ok None] is the [continue] of the 429 branch. *)
Definition attempt_body (w : world) (attempt : nat) : M (option pyval) :=
  (if (0 <? attempt)%nat then sleep (retry_delay attempt) else ret tt) ;;
  r <~ requests_get w ;;
  if status_code r =? 429 then
    secs <~ lift (retry_after_secs r attempt) ;;
    sleep (inject_Z secs) ;;
    ret None
  else if status_code r =? 401 then
    raise (SystemExit AuthFailed)
  else
    lift (raise_for_status r) ;;
    data <~ lift (json r) ;;
    if is_dict_or_list data then ret (Some data) else raise ValueError.

(** The [for attempt in range(retries)] loop with its two [except]
    clauses, over the attempts still to run; [last] is [last_exception]. *)
Fixpoint get_loop (w : world) (retries : nat) (attempts : list nat)
    (last : option exn) : M pyval :=
  match attempts with
  | [] =>
      match last with
      | Some e => raise e
      | None => raise (SystemExit AllRetries)
      end
  | attempt :: rest => fun st =>
      match attempt_body w attempt st with
      | (Ok (Some data), st') => (Ok data, st')
      | (Ok None, st') => get_loop w retries rest last st'
      | (Raise e, st') =>
          if is_RequestException e then
            if (attempt =? retries - 1)%nat
            then (Raise (SystemExit (Unreachable retries)), st')
            else get_loop w retries rest (Some e) st'
          else if is_ValueError_or_TypeError e then
            (Raise (SystemExit InvalidResponse), st')
          else (Raise e, st')
      end
  end.

(** [_get(url, params, retries)] *)
Definition _get (w : world) (retries : nat) : M pyval :=
  get_loop w retries (seq 0 retries) None.

End HttpGet.

(** ** More of Python's built-ins *)

(** [for x in v]: the items a value yields when iterated. *)
Definition py_iter (v : pyval) : result (list pyval) :=
  match v with
  | VList l => Ok l
  | VStr s => Ok ((fun c => VStr (String c EmptyString)) <$> list_ascii_of_string s)
  | VDict d => Ok (VStr <$> odict_keys d)
  | VNone | VBool _ | VInt _ | VFloat _ => Raise TypeError
  end.

(** Rounding to the nearest integer, ties to the even one. *)
Definition round_half_even (q : Q) : Z :=
  let f := Qfloor q in
  match ((q - inject_Z f) ?= (1 # 2))%Q with
  | Lt => f
  | Gt => f + 1
  | Eq => if Z.even f then f else f + 1
  end.

(** [round(x, 1)] *)
Definition py_round1 (x : pyval) : result pyval :=
  match x with
  | VFloat (Fin q) => Ok (VFloat (Fin (inject_Z (round_half_even (q * 10)) / 10)))
  | VFloat f => Ok (VFloat f)
  | VInt z => Ok (VInt z)
  | VBool b => Ok (VInt (Z.b2z b))
  | VNone | VStr _ | VList _ | VDict _ => Raise TypeError
  end.

Fixpoint string_take (n : nat) (s : string) : string :=
  match n, s with
  | S n', String c s' => String c (string_take n' s')
  | _, _ => EmptyString
  end.

(** [x[:4]]; a value that cannot be sliced raises ([TypeError] stands
    for whichever exception the type gives). *)
Definition py_slice4 (x : pyval) : result pyval :=
  match x with
  | VStr s => Ok (VStr (string_take 4 s))
  | VList l => Ok (VList (take 4 l))
  | VNone | VBool _ | VInt _ | VFloat _ | VDict _ => Raise TypeError
  end.

(** [m[k]] for a string key [k]. *)
Definition py_getitem (m : pyval) (k : string) : result pyval :=
  match m with
  | VDict d =>
      match odict_get k d with
      | Some v => Ok v
      | None => Raise KeyError
      end
  | _ => Raise TypeError
  end.

(** The key of an [int]-keyed dict that a value hashes and compares equal
    to, if any; unhashable values raise. *)
Definition int_key (x : pyval) : result (option Z) :=
  match x with
  | VInt z => Ok (Some z)
  | VBool b => Ok (Some (Z.b2z b))
  | VFloat (Fin q) =>
      Ok (if Qeq_bool q (inject_Z (Qfloor q)) then Some (Qfloor q) else None)
  | VFloat _ | VNone | VStr _ => Ok None
  | VList _ | VDict _ => Raise TypeError
  end.

(** A stable insertion sort.  [before y x] says that [y], met later in the
    list than [x], must still come first. *)
Section stable_sort.
Context {A : Type} (before : A → A → bool).

Fixpoint insert_sorted (x : A) (l : list A) : list A :=
  match l with
  | [] => [x]
  | y :: l' => if before y x then y :: insert_sorted x l' else x :: l
  end.

Definition stable_sort (l : list A) : list A := foldr insert_sorted [] l.
End stable_sort.

(** [sorted(set(l))] for strings. *)
Fixpoint insert_unique (x : string) (l : list string) : list string :=
  match l with
  | [] => [x]
  | y :: l' =>
      match String.compare x y with
      | Lt => x :: l
      | Eq => l
      | Gt => y :: insert_unique x l'
      end
  end.

Definition sorted_set (l : list string) : list string := foldr insert_unique [] l.

(** [sep.join(l)] *)
Definition join (sep : string) (l : list string) : string := String.concat sep l.

(** ** Provider and genre directories *)

Module Directory.
Import Http HttpGet.
Open Scope http_scope.

Definition is_alnum_lower (c : ascii) : bool :=
  let n := nat_of_ascii c in
  ((97 <=? n) && (n <=? 122) || (48 <=? n) && (n <=? 57))%nat.

Fixpoint keep_alnum (s : string) : string :=
  match s with
  | String c s' => if is_alnum_lower c then String c (keep_alnum s') else keep_alnum s'
  | EmptyString => EmptyString
  end.

(** [_norm(s)]: [regex.sub(r'[^a-z0-9]', '', (s or '').lower())] *)
Definition _norm (s : string) : string := keep_alnum (lower s).

Section with_repr.
(** [str(x)] of a value that is not a [str] is Python's rendering of it,
    which the repository does not define. *)
Variable py_repr : pyval → string.

Definition py_str (x : pyval) : string :=
  match x with
  | VStr s => s
  | _ => py_repr x
  end.

(** One turn of the loop of [fetch_provider_id_map]. *)
Definition add_provider (maps : list (string * Z) * list (Z * string))
    (p : pyval) : list (string * Z) * list (Z * string) :=
  match p with
  | VDict d =>
      let name := strip (py_str (get_default d "provider_name" (VStr ""))) in
      let pid := get_none d "provider_id" in
      match as_int pid with
      | Some n =>
          if negb (String.eqb name "")
          then (odict_set (lower name) n maps.1, odict_set n name maps.2)
          else maps
      | None => maps
      end
  | _ => maps
  end.

Definition provider_maps (results : list pyval)
  : list (string * Z) * list (Z * string) :=
  foldl add_provider ([], []) results.

(** [fetch_provider_id_map(country)] *)
Definition fetch_provider_id_map (w : world)
  : M (list (string * Z) * list (Z * string)) :=
  data <~ _get w 3 ;;
  match data with
  | VDict d =>
      results <~ lift (py_iter (get_default d "results" (VList []))) ;;
      ret (provider_maps results)
  | _ => raise ValueError
  end.
End with_repr.

(** The filter and the entry of the comprehension of [fetch_genre_map]. *)
Definition genre_entry (g : pyval) : option (Z * string) :=
  match g with
  | VDict d =>
      match odict_get "id" d, odict_get "name" d with
      | Some i, Some (VStr name) => (fun n => (n, name)) <$> as_int i
      | _, _ => None
      end
  | _ => None
  end.

Definition genre_map_of (genres : list pyval) : gmap Z string :=
  foldl (fun acc g =>
           match genre_entry g with
           | Some (i, name) => <[i := name]> acc
           | None => acc
           end) ∅ genres.

(** [fetch_genre_map()] *)
Definition fetch_genre_map (w : world) : M (gmap Z string) :=
  data <~ _get w 3 ;;
  match data with
  | VDict d =>
      genres <~ lift (py_iter (get_default d "genres" (VList []))) ;;
      ret (genre_map_of genres)
  | _ => raise ValueError
  end.

(** [resolve_preferred_ids(names, id_map)] *)
Definition norm_to_pid (id_map : list (string * Z)) : gmap string Z :=
  foldl (fun acc kv => <[_norm kv.1 := kv.2]> acc) ∅ id_map.

Definition resolve_preferred_ids (names : gset string) (id_map : list (string * Z))
  : gset Z :=
  if decide (names = ∅) then list_to_set (odict_values id_map)
  else
    let wanted : gset string := set_map _norm names in
    set_omap (fun n => norm_to_pid id_map !! n) wanted.

(** The first lines of [main]: the allowed set, with its fallback. *)
Definition main_allowed_ids (names : gset string) (id_map : list (string * Z))
    (id_to_name : list (Z * string)) : gset Z :=
  let allowed_ids := resolve_preferred_ids names id_map in
  if decide (allowed_ids = ∅) then list_to_set (odict_keys id_to_name)
  else allowed_ids.

End Directory.

(** ** Discovery and per-movie fetches *)

Module Fetch.
Import Http HttpGet Directory.
Open Scope http_scope.

(** How one turn of a [for] loop ends. *)
Inductive flow := Continue | Break.

(** The [try] body of one page of [discover_new_movies]: the results
    collected so far, extended, and whether the loop goes on. *)
Definition discover_page (w : world) (page : nat) (results : list pyval)
  : M (list pyval * flow) :=
  data <~ _get w 3 ;;
  match data with
  | VDict d =>
      match get_default d "results" (VList []) with
      | VList page_results =>
          let results' := results ++ page_results in
          match as_int (get_default d "total_pages" (VInt 1)) with
          | None => ret (results', Break)
          | Some total_pages =>
              if total_pages <=? Z.of_nat page then ret (results', Break)
              else ret (results', Continue)
          end
      | _ => ret (results, Continue)
      end
  | _ => ret (results, Continue)
  end.

Fixpoint discover_loop (w : world) (pages : list nat) (results : list pyval)
  : M (list pyval) :=
  match pages with
  | [] => ret results
  | page :: rest =>
      r <~ try_except_Exception (discover_page w page results)
             (fun _ => ret (results, Continue)) ;;
      match r.2 with
      | Continue => discover_loop w rest r.1
      | Break => ret r.1
      end
  end.

(** A [date] is its ordinal: day 1 is 0001-01-01, and the last day there
    is, 9999-12-31, is day 3652059. *)
Definition MAX_ORDINAL : Z := 3652059.

(** [timedelta(days=days)]: the number of days is bounded in magnitude. *)
Definition timedelta (days : Z) : result Z :=
  if (-999999999 <=? days) && (days <=? 999999999) then Ok days
  else Raise OverflowError.

(** [d - delta] for a date and a [timedelta]: the result must be a date. *)
Definition date_sub (d : Z) (delta : Z) : result Z :=
  let ordinal := d - delta in
  if (1 <=? ordinal) && (ordinal <=? MAX_ORDINAL) then Ok ordinal
  else Raise OverflowError.

(** [discover_new_movies(country, since_days, pages)].  [today] is
    [date.today()].  The region [country] and the date [since] go into
    the parameters of the requests, which the oracle, answering by the
    rank of a request, does not read. *)
Definition discover_new_movies (w : world) (country : string) (today : Z)
    (since_days : Z) (pages : nat) : M (list pyval) :=
  delta <~ lift (timedelta since_days) ;;
  since <~ lift (date_sub today delta) ;;
  discover_loop w (seq 1 pages) [].

Section with_country.
Variable COUNTRY : string.

(** [get_watch_providers(movie_id)] *)
Definition get_watch_providers (w : world) : M (list (string * pyval)) :=
  try_except_Exception
    (data <~ _get w 3 ;;
     match data with
     | VDict d =>
         match get_default d "results" (VDict []) with
         | VDict results =>
             match get_default results COUNTRY (VDict []) with
             | VDict country_data => ret country_data
             | _ => ret []
             end
         | _ => ret []
         end
     | _ => ret []
     end)
    (fun _ => ret []).
End with_country.

Section with_repr.
Variable py_repr : pyval → string.

(** [get_imdb_id(movie_id)] *)
Definition get_imdb_id (w : world) : M (option string) :=
  try_except_Exception
    (data <~ _get w 3 ;;
     match data with
     | VDict d =>
         let imdb_id := get_none d "imdb_id" in
         ret (if truthy imdb_id then Some (py_str py_repr imdb_id) else None)
     | _ => ret None
     end)
    (fun _ => ret None).
End with_repr.

End Fetch.

(** ** Enrichment *)

Module Enrich.
Import Http HttpGet Directory Fetch.
Open Scope http_scope.

(** The provider names one section ([flatrate] or [ads]) contributes. *)
Definition pick_item (allowed_ids : gset Z) (item : pyval) : option string :=
  match item with
  | VDict d =>
      match as_int (get_none d "provider_id") with
      | Some provider_id =>
          if decide (provider_id ∈ allowed_ids) then
            match get_none d "provider_name" with
            | VStr name =>
                if negb (String.eqb (strip name) "") then Some (strip name) else None
            | _ => None
            end
          else None
      | None => None
      end
  | _ => None
  end.

Definition pick_section (provider_section : list (string * pyval))
    (allowed_ids : gset Z) (section : string) : list string :=
  match get_default provider_section section (VList []) with
  | VList section_data => omap (pick_item allowed_ids) section_data
  | _ => []
  end.

(** [pick_flatrate_providers(provider_section, allowed_ids)] *)
Definition pick_flatrate_providers (provider_section : list (string * pyval))
    (allowed_ids : gset Z) : list string :=
  let picked :=
    pick_section provider_section allowed_ids "flatrate"
    ++ pick_section provider_section allowed_ids "ads" in
  sorted_set picked.

(** The record [main] and [load_movies] build for a qualifying movie.
    [main] stores the link [imdb_link], [load_movies] the id itself: the
    record keeps the id, and [imdb_link_of] is the link [main] derives. *)
Record movie := {
  title : pyval;
  year : pyval;
  rating : pyval;
  votes : Z;
  popularity : pyfloat;
  providers : string;
  imdb_id : option string;
  genres : list string
}.

Definition imdb_link_of (imdb_id : option string) : string :=
  match imdb_id with
  | Some i => if String.eqb i "" then "" else "https://www.imdb.com/title/" ++ i ++ "/"
  | None => ""
  end.

(** [[genre_map[g] for g in genre_ids if g in genre_map] or ["Uncategorized"]] *)
Fixpoint resolve_genres (genre_map : gmap Z string) (genre_ids : list pyval)
  : result (list string) :=
  match genre_ids with
  | [] => Ok []
  | g :: rest =>
      k ← int_key g;
      names ← resolve_genres genre_map rest;
      Ok match k ≫= (fun i => genre_map !! i) with
         | Some name => name :: names
         | None => names
         end
  end.

Definition genres_of (genre_map : gmap Z string) (m : list (string * pyval))
  : result (list string) :=
  genre_ids ← py_iter (py_or (get_none m "genre_ids") (VList []));
  names ← resolve_genres genre_map genre_ids;
  Ok match names with
     | [] => ["Uncategorized"]
     | _ => names
     end.

(** The record that [movies.append({...})] builds, field by field. *)
Definition build_movie (genre_map : gmap Z string) (m : list (string * pyval))
    (picked : list string) (imdb : option string) : result movie :=
  gs ← genres_of genre_map m;
  let t := py_or (get_none m "title") (VStr "") in
  y ← py_slice4 (py_or (get_none m "release_date") (VStr ""));
  r ← py_round1 (get_default m "vote_average" (VFloat (Fin 0)));
  v ← py_int (py_or (get_default m "vote_count" (VInt 0)) (VInt 0));
  p ← py_float (py_or (get_default m "popularity" (VFloat (Fin 0))) (VFloat (Fin 0)));
  Ok {| title := t; year := y; rating := r; votes := v; popularity := p;
        providers := join ", " picked; imdb_id := imdb; genres := gs |}.

Section with_config.
Variable py_repr : pyval → string.
Variable COUNTRY : string.
Variable w : world.

(** One turn of the loop over the candidates: [None] is the [continue]
    of a candidate without an allowed provider. *)
Definition process_candidate (genre_map : gmap Z string) (allowed_ids : gset Z)
    (m : pyval) : M (option movie) :=
  lift (py_getitem m "id") ;;
  wp <~ get_watch_providers COUNTRY w ;;
  let picked := pick_flatrate_providers wp allowed_ids in
  match picked with
  | [] => ret None
  | _ =>
      imdb <~ get_imdb_id py_repr w ;;
      match m with
      | VDict d => mv <~ lift (build_movie genre_map d picked imdb) ;; ret (Some mv)
      | _ => raise AttributeError
      end
  end.

Fixpoint collect_movies (genre_map : gmap Z string) (allowed_ids : gset Z)
    (candidates : list pyval) (movies : list movie) : M (list movie) :=
  match candidates with
  | [] => ret movies
  | m :: rest =>
      r <~ process_candidate genre_map allowed_ids m ;;
      collect_movies genre_map allowed_ids rest
        match r with
        | Some mv => movies ++ [mv]
        | None => movies
        end
  end.
End with_config.

End Enrich.

(** ** Ranking order and grouping *)

Module Group.
Import Enrich.

(** The sort key of [main] and [load_movies]:
    [rank_score(x["rating"], x["votes"], x["popularity"])] *)
Definition rank_key (mv : movie) : result pyfloat :=
  Rank.rank_score (rating mv) (VInt (votes mv)) (VFloat (popularity mv)).

(** [l.sort(key=rank_key, reverse=True)]: the keys are computed first, then
    the list is sorted on them, largest first, equal keys keeping their
    order. *)
Definition sort_by_rank (l : list movie) : result (list movie) :=
  keyed ← mapM (fun mv => k ← rank_key mv; Ok (k, mv)) l;
  Ok ((stable_sort (fun y x => flt x.1 y.1) keyed).*2).

(** [d.setdefault(g, []).append(mv)], which is also what [load_movies]
    does with its test [if genre not in d]. *)
Definition bucket_append (g : string) (mv : movie)
    (d : list (string * list movie)) : list (string * list movie) :=
  match odict_get g d with
  | Some b => odict_set g (b ++ [mv]) d
  | None => odict_set g [mv] d
  end.

Definition add_to_genres (d : list (string * list movie)) (mv : movie)
  : list (string * list movie) :=
  foldl (fun d g => bucket_append g mv d) d (genres mv).

(** *** [main] of [movie_finder.py] *)

(** The per-genre buckets, before sorting. *)
Definition by_genre_of (movies : list movie) : list (string * list movie) :=
  foldl add_to_genres [] movies.

(** [sorted(by_genre.keys(), key=lambda s: s.lower())] *)
Definition genre_names_sorted (by_genre : list (string * list movie)) : list string :=
  stable_sort (fun y x => String.ltb (lower y) (lower x)) (odict_keys by_genre).

(** One turn of the loop that sorts and caps the bucket of [g]. *)
Definition sort_and_cap (MAX_RESULTS_PER_GENRE : Z) (g : string)
    (by_genre : list (string * list movie)) : result (list (string * list movie)) :=
  match odict_get g by_genre with
  | None => Raise KeyError
  | Some b =>
      sorted ← sort_by_rank b;
      let by_genre' := odict_set g sorted by_genre in
      Ok (if 0 <? MAX_RESULTS_PER_GENRE
          then odict_set g (take (Z.to_nat MAX_RESULTS_PER_GENRE) sorted) by_genre'
          else by_genre')
  end.

Fixpoint sort_and_cap_all (MAX_RESULTS_PER_GENRE : Z) (names : list string)
    (by_genre : list (string * list movie)) : result (list (string * list movie)) :=
  match names with
  | [] => Ok by_genre
  | g :: rest =>
      d ← sort_and_cap MAX_RESULTS_PER_GENRE g by_genre;
      sort_and_cap_all MAX_RESULTS_PER_GENRE rest d
  end.

(** The grouped result of [main]: the sorted genre names and the buckets
    written to the CSV and HTML reports. *)
Definition group_main (MAX_RESULTS_PER_GENRE : Z) (movies : list movie)
  : result (list string * list (string * list movie)) :=
  let by_genre := by_genre_of movies in
  let names := genre_names_sorted by_genre in
  d ← sort_and_cap_all MAX_RESULTS_PER_GENRE names by_genre;
  Ok (names, d).

(** *** [load_movies] of the desktop application *)

(** [movies_by_genre = {"All": movies}] shares the list [movies] with the
    loop [for movie in movies]: the loop reads its next item from the
    ["All"] bucket of the dictionary it is filling, so a movie whose genres
    include ["All"] lengthens the list being walked.  [i] is the position
    of the iterator; the loop is bounded by [fuel], and [None] says the
    fuel ran out. *)
Fixpoint fill_buckets (fuel : nat) (i : nat) (d : list (string * list movie))
  : option (list (string * list movie)) :=
  match fuel with
  | O => None
  | S fuel' =>
      match odict_get "All" d ≫= (fun movies => movies !! i) with
      | None => Some d
      | Some mv => fill_buckets fuel' (S i) (add_to_genres d mv)
      end
  end.

(** [for genre in movies_by_genre: movies_by_genre[genre].sort(...)] *)
Fixpoint sort_buckets (d : list (string * list movie))
  : result (list (string * list movie)) :=
  match d with
  | [] => Ok []
  | (g, b) :: rest =>
      sorted ← sort_by_rank b;
      rest' ← sort_buckets rest;
      Ok ((g, sorted) :: rest')
  end.

(** The grouped result of [load_movies]. *)
Definition group_gui (fuel : nat) (movies : list movie)
  : option (result (list (string * list movie))) :=
  sort_buckets <$> fill_buckets fuel 0 [("All", movies)].

End Group.

(** ** The two programs *)

Module Program.
Import Http HttpGet Directory Fetch Enrich Group.
Open Scope http_scope.

Section with_config.
Variable py_repr : pyval → string.
Variable COUNTRY : string.
Variable PREFERRED_PROVIDER_NAMES : gset string.
Variable MAX_RESULTS_PER_GENRE : Z.
Variable w : world.
Variable today : Z.
Variable NEW_WINDOW_DAYS : Z.

(** [main()] of [movie_finder.py], up to the grouped result. *)
Definition main : M (list string * list (string * list movie)) :=
  maps <~ fetch_provider_id_map py_repr w ;;
  let allowed_ids := main_allowed_ids PREFERRED_PROVIDER_NAMES maps.1 maps.2 in
  genre_map <~ fetch_genre_map w ;;
  candidates <~ discover_new_movies w COUNTRY today NEW_WINDOW_DAYS 5 ;;
  movies <~ collect_movies py_repr COUNTRY w genre_map allowed_ids candidates [] ;;
  lift (group_main MAX_RESULTS_PER_GENRE movies).

(** The last lines of the script: [main()] under
    [except requests.exceptions.RequestException], which prints and exits
    with status 1. *)
Definition run_script : M unit := fun st =>
  match main st with
  | (Ok _, st') => (Ok tt, st')
  | (Raise e, st') =>
      if is_RequestException e then (Raise (SystemExit NetworkError), st')
      else (Raise e, st')
  end.

(** What [load_movies] hands to the user interface. *)
Inductive view :=
| Loaded (movies_by_genre : list (string * list movie))
| ShowError (e : exn).

(** [MovieFinderApp.load_movies], once the API key is known to be set.
    [None] says the grouping loop did not finish within [fuel]. *)
Definition load_movies (fuel : nat) : M (option view) :=
  try_except_Exception
    (maps <~ fetch_provider_id_map py_repr w ;;
     let allowed_ids : gset Z := list_to_set (odict_keys maps.2) in
     genre_map <~ fetch_genre_map w ;;
     candidates <~ discover_new_movies w "US" today 90 5 ;;
     movies <~ collect_movies py_repr COUNTRY w genre_map allowed_ids candidates [] ;;
     match group_gui fuel movies with
     | None => ret None
     | Some r => d <~ lift r ;; ret (Some (Loaded d))
     end)
    (fun e => ret (Some (ShowError e))).
End with_config.

End Program.

(** ** The configuration of [movie_finder.py] *)

Module Config.

(** [str(n)] for an [int]: its decimal digits, after a minus sign when it
    is negative. *)
Definition str_of_int (n : Z) : string :=
  DecimalString.NilZero.string_of_int (Z.to_int n).

(** [s.split(",")] *)
Fixpoint split_comma (s : string) : list string :=
  match s with
  | EmptyString => [EmptyString]
  | String c s' =>
      if Ascii.eqb c "," then EmptyString :: split_comma s'
      else match split_comma s' with
           | p :: ps => String c p :: ps
           | [] => [String c EmptyString]
           end
  end.

Section with_environment.
(** [os.getenv(name)]: the value of a variable of the environment, if it
    is set. *)
Variable getenv : string → option string.

(** [os.getenv(name, dflt)] *)
Definition getenv_or (name dflt : string) : string :=
  match getenv name with
  | Some s => s
  | None => dflt
  end.

(** [validate_int_env(name, default, min_val)].  [int] is given a [str]
    and so raises nothing but [ValueError]; the interpreter's limit on the
    number of digits it accepts is left out. *)
Definition validate_int_env (name : string) (default : Z) (min_val : Z) : result Z :=
  match int_of_str (getenv_or name (str_of_int default)) with
  | Ok value => if value <? min_val then Ok default else Ok value
  | Raise ValueError => Ok default
  | Raise e => Raise e
  end.

(** [COUNTRY] *)
Definition COUNTRY : string :=
  match strip (getenv_or "COUNTRY" "US") with
  | EmptyString => "US"
  | c => c
  end.

(** [PREFERRED_PROVIDER_NAMES =
     {p.strip() for p in os.getenv("PROVIDERS", "").split(",") if p.strip()}] *)
Definition PREFERRED_PROVIDER_NAMES : gset string :=
  list_to_set
    (strip <$> List.filter (fun p => negb (String.eqb (strip p) EmptyString))
                           (split_comma (getenv_or "PROVIDERS" ""))).

Definition NEW_WINDOW_DAYS : result Z := validate_int_env "NEW_WINDOW_DAYS" 90 1.
Definition MAX_RESULTS_PER_GENRE : result Z :=
  validate_int_env "MAX_RESULTS_PER_GENRE" 0 0.

End with_environment.

End Config.

(** ** The CSV report of [main] *)

Module Report.
Import Enrich Group.

(** A row of the CSV file, under the field names
    [genre, title, year, rating, votes, providers, imdb_link]. *)
Record csv_row := {
  csv_genre : string;
  csv_title : pyval;
  csv_year : pyval;
  csv_rating : pyval;
  csv_votes : Z;
  csv_providers : string;
  csv_imdb_link : string
}.

Definition csv_row_of (g : string) (mv : movie) : csv_row :=
  {| csv_genre := g;
     csv_title := title mv;
     csv_year := year mv;
     csv_rating := rating mv;
     csv_votes := votes mv;
     csv_providers := providers mv;
     csv_imdb_link := imdb_link_of (imdb_id mv) |}.

(** [for g in genre_names_sorted: for mv in by_genre[g]: w.writerow(...)]:
    the rows written after the header, in order. *)
Fixpoint csv_rows (genre_names_sorted : list string)
    (by_genre : list (string * list movie)) : result (list csv_row) :=
  match genre_names_sorted with
  | [] => Ok []
  | g :: rest =>
      match odict_get g by_genre with
      | None => Raise KeyError
      | Some b =>
          rows ← csv_rows rest by_genre;
          Ok ((csv_row_of g <$> b) ++ rows)
      end
  end.

(** The rows [main] writes for the movies it has collected. *)
Definition main_csv (MAX_RESULTS_PER_GENRE : Z) (movies : list movie)
  : result (list csv_row) :=
  grouped ← group_main MAX_RESULTS_PER_GENRE movies;
  csv_rows grouped.1 grouped.2.

End Report.

(** ** The screen of the desktop application *)

Module Gui.
Import Enrich Group.

(** [sorted(l)] for a list of strings. *)
Definition sorted_strings (l : list string) : list string :=
  stable_sort (fun y x => String.ltb y x) l.

(** [update_ui]: the texts of the genre chips, in the order they are
    added. *)
Definition genre_chips (movies_by_genre : list (string * list movie))
  : list string :=
  List.filter (fun genre => negb (String.eqb genre "All"))
              ("All" :: sorted_strings (odict_keys movies_by_genre)).

(** [filter_genre(genre)]: the movies listed, one item each, in order. *)
Definition filter_genre (genre : string)
    (movies_by_genre : list (string * list movie)) : list movie :=
  default [] (odict_get genre movies_by_genre).

(** [update_ui]: the number shown in the status line. *)
Definition total (movies_by_genre : list (string * list movie)) : nat :=
  length (default [] (odict_get "All" movies_by_genre)).

End Gui.

(** ** Binary64 arithmetic *)

(** A Python [float] is a binary64 number.  The operations of the
    embedding above are exact; here each is followed by the rounding the
    machine does: to the nearest binary64 number, ties to the one with an
    even significand, with gradual underflow, and with an infinity beyond
    the largest finite number. *)
Module Binary64.

(** The exponent of the leading bit of a positive rational [x]: the [e]
    with [2^e <= x < 2^(e+1)]. *)
Definition ilog2 (x : Q) : Z :=
  let e := Z.log2 (Qnum x) - Z.log2 (Zpos (Qden x)) in
  if Qle_bool (Qpower 2 e) x then e else e - 1.

(** The spacing of the binary64 numbers around [x]: 53 significant bits,
    and no exponent below that of the smallest normal number. *)
Definition quantum (x : Q) : Q :=
  Qpower 2 (Z.max (ilog2 (Qabs x)) (-1022) - 52).

(** The nearest multiple of the spacing. *)
Definition round (x : Q) : Q :=
  if Qeq_bool x 0 then 0
  else inject_Z (round_half_even (x / quantum x)) * quantum x.

(** A float, as the machine holds it. *)
Definition b64 (x : pyfloat) : pyfloat :=
  match x with
  | Fin q =>
      let r := round q in
      if Qle_bool (Qpower 2 1024) (Qabs r)
      then (if Qle_bool 0 r then PosInf else NegInf)
      else Fin r
  | _ => x
  end.

(** [x + y], [x * y] and [x / y] on floats. *)
Definition add (x y : pyfloat) : pyfloat := b64 (fadd x y).
Definition mul (x y : pyfloat) : pyfloat := b64 (fmul x y).
Definition div (x y : pyfloat) : result pyfloat := q ← fdiv x y; Ok (b64 q).

(** [a / b] for two ints: the quotient correctly rounded; one that is too
    large for a float raises. *)
Definition truediv (a b : Z) : result pyfloat :=
  q ← int_truediv a b;
  match b64 q with
  | Fin r => Ok (Fin r)
  | _ => Raise OverflowError
  end.

(** [float(x)] *)
Definition float (x : pyval) : result pyfloat := f ← py_float x; Ok (b64 f).

(** A float literal. *)
Definition lit (q : Q) : pyfloat := b64 (Fin q).

End Binary64.

(** [rank_score], every operation rounded as the machine does. *)
Module RankBinary64.
Import Rank.

Definition C : pyfloat := Binary64.lit (13 # 2).

Definition rank_score (vote_average vote_count popularity : pyval)
  : result pyfloat :=
  (let v := sanitize_votes vote_count in
   fa ← Binary64.float (or_zero vote_average);
   let R := pymax (Binary64.lit 0) (pymin (Binary64.lit 10) fa) in
   fp ← Binary64.float (or_zero popularity);
   let P := pymax (Binary64.lit 0) fp in
   wv ← Binary64.truediv v (v + m);
   wm ← Binary64.truediv m (v + m);
   let bayes := Binary64.add (Binary64.mul wv R) (Binary64.mul wm C) in
   pc ← Binary64.div P (Binary64.lit 100);
   let norm_popularity := pymin (Binary64.lit 10) pc in
   Ok (Binary64.add (Binary64.mul (Binary64.lit (7 # 10)) bayes)
                    (Binary64.mul (Binary64.lit (3 # 10)) norm_popularity))).

End RankBinary64.

(** * Vocabulary of the properties *)

Module RankSpec.
Import Rank.

(** The share [a / (v + m)] of the Bayesian average. *)
Definition weight (a v : Z) : Q := inject_Z a / inject_Z (v + m).

(** The closed form of the score for sanitized inputs: [v] votes, rating
    [r] and normalized popularity [n]. *)
Definition score_of (v : Z) (r n : Q) : Q :=
  (7 # 10) * (weight v v * r + weight m v * (13 # 2)) + (3 # 10) * n.

(** A float that is at least zero: a non-negative rational or [+inf]. *)
Definition float_nonneg (f : pyfloat) : Prop :=
  match f with
  | Fin p => (0 <= p)%Q
  | PosInf => True
  | NegInf | NaN => False
  end.

(** The arguments [float()] accepts among those [rank_score] is annotated
    for ([Optional[float]]), and the ints and bools Python lets through. *)
Definition float_or_none (x : pyval) : bool :=
  match x with
  | VNone | VFloat _ | VBool _ => true
  | VInt z => Z.abs z <? float_int_bound
  | VStr _ | VList _ | VDict _ => false
  end.

End RankSpec.

Module RankBinary64Spec.
Import Rank RankSpec.

(** The float [f] is finite and its value is [q]. *)
Definition has_value (f : pyfloat) (q : Q) : Prop := exists r, f = Fin r /\ r == q.

(** A bound, [2^-49], on the rounding error of a result of magnitude at
    most 16. *)
Definition eps : Q := 1 # 562949953421312.

(** How far roundings may push the score against the direction of the
    Bayesian shrinkage: [1e-13]. *)
Definition tolerance : Q := 1 # 10000000000000.

(** The floats [0.7] and [0.3]. *)
Definition c7 : Q := 6305039478318694 # 9007199254740992.
Definition c3 : Q := 5404319552844595 # 18014398509481984.

(** The score for [v] votes, rating [R] and popularity term [y], before the
    roundings of the Bayesian average and of the weighted sum. *)
Definition reference (v : Z) (R y : Q) : Q :=
  c7 * (weight v v * R + (1 - weight v v) * (13 # 2)) + y.

End RankBinary64Spec.

Module HttpSpec.
Import Http HttpGet.

(** The n-th request was answered with status [code]. *)
Definition answered (w : world) (n : nat) (code : Z) : Prop :=
  exists r, w n = Responded r /\ status_code r = code.

(** The requests a computation issues when run from [st]: those numbered
    from [issued st] up to, not including, the count it ends with. *)
Definition issued_by {A} (c : M A) (st : state) (n : nat) : Prop :=
  (issued st <= n < issued (c st).2)%nat.

(** A computation for which a 401 is fatal: if any request it issues is
    answered 401, that request is the last one it issues and it raises
    the authentication [SystemExit]. *)
Definition auth_fatal {A} (w : world) (c : M A) : Prop :=
  forall st,
    (issued st <= issued (c st).2)%nat /\
    forall n, issued_by c st n -> answered w n 401 ->
              (c st).1 = Raise (SystemExit AuthFailed) /\
              issued (c st).2 = S n.

(** A response whose body [_get] goes on to decode: not a 429, not a 401,
    and not an error status. *)
Definition reaches_decoding (r : response) : Prop :=
  status_code r <> 429 /\ status_code r <> 401 /\
  ~ (400 <= status_code r < 600).

(** A body that does not decode as an object or an array: it decodes to
    another JSON value, or the decoder rejects it with its own
    [ValueError]. *)
Definition not_structured (b : body) : Prop :=
  match b with
  | Decoded v => is_dict_or_list v = false
  | Undecodable e => e = PlainDecodeError
  end.

(** A whole number of seconds that [time.sleep] accepts: not negative,
    and within the interpreter's 64-bit count of nanoseconds. *)
Definition sleepable (secs : Z) : Prop := 0 <= secs <= 9223372036.

(** The state after the sleep that precedes attempt [attempt]. *)
Definition after_delay (attempt : nat) (st : state) : state :=
  if (0 <? attempt)%nat
  then {| issued := issued st; slept := retry_delay attempt :: slept st |}
  else st.

(** The state after attempt [attempt] was answered 429 and the helper
    slept [secs] seconds. *)
Definition after_429 (attempt : nat) (secs : Z) (st : state) : state :=
  {| issued := S (issued st);
     slept := inject_Z secs :: slept (after_delay attempt st) |}.

(** What leaves the loop when the [try] body raised [e] and [e] is not a
    [RequestException]. *)
Definition escapes (e : exn) : exn :=
  if is_ValueError_or_TypeError e then SystemExit InvalidResponse else e.

(** The state a run starts in. *)
Definition st0 : state := {| issued := 0; slept := [] |}.

(** A response with the given status and decoded body, and no
    [Retry-After] header. *)
Definition respond (code : Z) (v : pyval) : http_outcome :=
  Responded {| status_code := code; retry_after := None; content := Decoded v |}.

(** A server that answers every request with 429. *)
Definition always_429 : world := fun _ => respond 429 (VDict []).

End HttpSpec.

Module Scenario.
Import Http HttpGet HttpSpec.

(** A stand-in for Python's rendering of values that are not strings: the
    names and ids of the scenarios below are all strings, so it is never
    consulted. *)
Definition no_repr (x : pyval) : string := "".

(** The provider directory: Netflix (8) and Hulu (15). *)
Definition provider_results : list pyval :=
  [VDict [("provider_name", VStr "Netflix"); ("provider_id", VInt 8)];
   VDict [("provider_name", VStr "Hulu"); ("provider_id", VInt 15)]].

Definition provider_directory : pyval :=
  VDict [("results", VList provider_results)].

Definition genre_directory : pyval :=
  VDict [("genres", VList [VDict [("id", VInt 28); ("name", VStr "Action")]])].

(** The candidate of the end-to-end scenario. *)
Definition candidate : list (string * pyval) :=
  [("id", VInt 603); ("title", VStr "The Matrix");
   ("release_date", VStr "1999-03-31");
   ("vote_average", VFloat (Fin 8)); ("vote_count", VInt 500);
   ("popularity", VFloat (Fin 45)); ("genre_ids", VList [VInt 28])].

Definition discover_page_1 : pyval :=
  VDict [("results", VList [VDict candidate]); ("total_pages", VInt 1)].

(** A run in which the directories and the discovery page arrive, and the
    watch-provider request of the first candidate is answered 401. *)
Definition unauthorized_at_enrichment : world := fun n =>
  match n with
  | 0%nat => respond 200 provider_directory
  | 1%nat => respond 200 genre_directory
  | 2%nat => respond 200 discover_page_1
  | _ => respond 401 (VDict [])
  end.

(** The watch providers of the candidate: Netflix and a provider outside
    the directory, for the region US. *)
Definition watch_providers : pyval :=
  VDict [("results",
          VDict [("US",
                  VDict [("flatrate",
                          VList [VDict [("provider_id", VInt 8);
                                        ("provider_name", VStr "Netflix")]]);
                         ("ads",
                          VList [VDict [("provider_id", VInt 99);
                                        ("provider_name", VStr "Tubi")]])])])].

Definition external_ids : pyval := VDict [("imdb_id", VStr "tt0133093")].

(** The two per-movie requests of one candidate. *)
Definition enrichment : world := fun n =>
  match n with
  | 0%nat => respond 200 watch_providers
  | _ => respond 200 external_ids
  end.

Definition genre_map : gmap Z string := {[ 28 := "Action" ]}.

(** The candidate with a negative vote count and a negative popularity. *)
Definition odd_candidate : list (string * pyval) :=
  [("id", VInt 604); ("title", VStr "Odd");
   ("release_date", VStr "2024-01-01");
   ("vote_average", VFloat (Fin 8)); ("vote_count", VInt (-5));
   ("popularity", VFloat (Fin (-3 # 2))); ("genre_ids", VList [VInt 28])].

(** The candidate whose [vote_average] is JSON [null]. *)
Definition unrated_candidate : list (string * pyval) :=
  [("id", VInt 605); ("title", VStr "Unrated");
   ("release_date", VStr "2024-01-01");
   ("vote_average", VNone); ("vote_count", VInt 3);
   ("popularity", VFloat (Fin 2)); ("genre_ids", VList [VInt 28])].

(** The movie the odd candidate produces. *)
Definition odd_movie : Enrich.movie :=
  {| Enrich.title := VStr "Odd"; Enrich.year := VStr "2024";
     Enrich.rating := VFloat (Fin (80 # 10)); Enrich.votes := -5;
     Enrich.popularity := Fin (-3 # 2); Enrich.providers := "Netflix";
     Enrich.imdb_id := Some "tt0133093"; Enrich.genres := ["Action"] |}.

(** The movie the end-to-end scenario produces. *)
Definition enriched_movie : Enrich.movie :=
  {| Enrich.title := VStr "The Matrix"; Enrich.year := VStr "1999";
     Enrich.rating := VFloat (Fin (80 # 10)); Enrich.votes := 500;
     Enrich.popularity := Fin 45; Enrich.providers := "Netflix";
     Enrich.imdb_id := Some "tt0133093"; Enrich.genres := ["Action"] |}.

(** A whole run: the two directories, one discovery page with the
    candidate, then its two per-movie requests. *)
Definition end_to_end : world := fun n =>
  match n with
  | 0%nat => respond 200 provider_directory
  | 1%nat => respond 200 genre_directory
  | 2%nat => respond 200 discover_page_1
  | 3%nat => respond 200 watch_providers
  | _ => respond 200 external_ids
  end.

(** The day of the run: 2025-01-01, as an ordinal. *)
Definition today : Z := 739252.

(** Two movies of the same genre, the first ranked above the second. *)
Definition hit : Enrich.movie :=
  {| Enrich.title := VStr "Hit"; Enrich.year := VStr "2024";
     Enrich.rating := VFloat (Fin 9); Enrich.votes := 900;
     Enrich.popularity := Fin 80; Enrich.providers := "Netflix";
     Enrich.imdb_id := None; Enrich.genres := ["Action"] |}.

Definition flop : Enrich.movie :=
  {| Enrich.title := VStr "Flop"; Enrich.year := VStr "2024";
     Enrich.rating := VFloat (Fin 3); Enrich.votes := 900;
     Enrich.popularity := Fin 5; Enrich.providers := "Hulu";
     Enrich.imdb_id := None; Enrich.genres := ["Action"] |}.

End Scenario.

Module DirectorySpec.
Import Directory.




(** The two maps of [fetch_provider_id_map] grow together: every id that
    is a value of the first is a key of the second, and one is empty
    exactly when the other is. *)
Definition maps_agree (maps : list (string * Z) * list (Z * string)) : Prop :=
  (maps.1 = [] <-> maps.2 = []) /\
  forall n, n ∈ odict_values maps.1 -> n ∈ odict_keys maps.2.

End DirectorySpec.

Module EnrichSpec.
Import Http HttpGet HttpSpec Fetch Enrich.

(** The entries listed under one section of the provider data of the
    region. *)
Definition section_items (wp : list (string * pyval)) (section : string)
  : list pyval :=
  match get_default wp section (VList []) with
  | VList items => items
  | _ => []
  end.

(** The entries under [flatrate] and under [ads]. *)
Definition provider_entries (wp : list (string * pyval)) : list pyval :=
  section_items wp "flatrate" ++ section_items wp "ads".

(** An entry whose id is in the allowed set and whose name, stripped to
    [name], is not empty. *)
Definition allowed_entry (allowed_ids : gset Z) (item : pyval) (name : string)
  : Prop :=
  exists d pid raw,
    item = VDict d /\
    as_int (get_none d "provider_id") = Some pid /\ pid ∈ allowed_ids /\
    get_none d "provider_name" = VStr raw /\ strip raw = name /\ name <> "".

(** An entry whose id, if it has one, is outside the allowed set. *)
Definition outside_entry (allowed_ids : gset Z) (item : pyval) : Prop :=
  forall d pid, item = VDict d ->
                as_int (get_none d "provider_id") = Some pid ->
                pid ∉ allowed_ids.

Section turns.
Variable py_repr : pyval -> string.
Variable COUNTRY : string.
Variable w : world.
Variable genre_map : gmap Z string.
Variable allowed_ids : gset Z.

(** The turns of the loop over the candidates, run from a state: for each
    candidate in order, the provider data fetched for it and what its turn
    yields, a movie or nothing; each turn starts in the state the one
    before ended in. *)
Inductive turns : list pyval -> state ->
                  list (list (string * pyval) * option movie) -> Prop :=
| turns_nil st : turns [] st []
| turns_cons m rest st wp st1 r st2 log :
    get_watch_providers COUNTRY w st = (Ok wp, st1) ->
    process_candidate py_repr COUNTRY w genre_map allowed_ids m st = (Ok r, st2) ->
    turns rest st2 log ->
    turns (m :: rest) st ((wp, r) :: log).

(** What decides a turn: it yields a movie exactly when the picked list
    is not empty, that is when some entry under [flatrate] or [ads] is
    allowed; the movie carries the picked names; and entries all outside
    the allowed set yield nothing. *)
Definition turn_decided (t : list (string * pyval) * option movie) : Prop :=
  (is_Some t.2 <-> pick_flatrate_providers t.1 allowed_ids <> []) /\
  (is_Some t.2 <->
   exists item name, item ∈ provider_entries t.1 /\
                     allowed_entry allowed_ids item name) /\
  (forall mv, t.2 = Some mv ->
     providers mv = join ", " (pick_flatrate_providers t.1 allowed_ids)) /\
  (Forall (outside_entry allowed_ids) (provider_entries t.1) -> t.2 = None).
End turns.

(** The movies the turns yield, in order. *)
Definition yielded (log : list (list (string * pyval) * option movie))
  : list movie :=
  omap snd log.

(** A float with at most one decimal. *)
Definition one_decimal (r : Q) : Prop := exists n : Z, (r * 10 == inject_Z n)%Q.

End EnrichSpec.

Module GroupSpec.
Import Enrich Group.

(** The bucket of [g], empty when [g] is not a key. *)
Definition bucket_of (d : list (string * list movie)) (g : string) : list movie :=
  default [] (odict_get g d).

(** [mv] appears in the bucket of [g]. *)
Definition in_bucket (d : list (string * list movie)) (g : string) (mv : movie)
  : Prop :=
  exists b, odict_get g d = Some b /\ mv ∈ b.

(** One copy of [mv] for each time [g] occurs in the list [gs]. *)
Definition hits_in (gs : list string) (g : string) (mv : movie) : list movie :=
  flat_map (fun g' => if decide (g' = g) then [mv] else []) gs.

Definition hits (g : string) (mv : movie) : list movie := hits_in (genres mv) g mv.

(** A movie whose rating [float()] accepts, so that its sort key exists. *)
Definition rankable (mv : movie) : Prop := RankSpec.float_or_none (rating mv) = true.

(** Two dictionaries with the same keys, in the same order, and buckets
    that are rearrangements of one another. *)
Definition rearranged (d d' : list (string * list movie)) : Prop :=
  Forall2 (fun kb kb' => kb.1 = kb'.1 /\ Permutation kb.2 kb'.2) d d'.

(** Every bucket holds movies with property [P] only. *)
Definition buckets_hold (P : movie -> Prop) (d : list (string * list movie)) : Prop :=
  Forall (fun kb => Forall P kb.2) d.

(** No movie of the list has a genre named ["All"]. *)
Definition no_genre_named_All (movies : list movie) : Prop :=
  Forall (fun mv => "All" ∉ genres mv) movies.

End GroupSpec.

Module HttpMoreSpec.
Import Http HttpGet HttpSpec.




(** An exception that ends the process. *)
Definition is_SystemExit (e : exn) : Prop := exists why, e = SystemExit why.

End HttpMoreSpec.

Module FetchMoreSpec.
Import Http HttpGet HttpSpec.

(** Request [n] is answered at once by a well-formed discovery page: an
    object whose [results] is the list [rs] and whose [total_pages] is
    [total]. *)
Definition page_answer (w : world) (n : nat) (rs : list pyval) (total : nat)
  : Prop :=
  exists r d,
    w n = Responded r /\ reaches_decoding r /\ content r = Decoded (VDict d) /\
    get_default d "results" (VList []) = VList rs /\
    as_int (get_default d "total_pages" (VInt 1)) = Some (Z.of_nat total).

(** A window that gives a date: the number of days is one a [timedelta]
    holds, and the day [since_days] before [today] is a date. *)
Definition window_in_range (today since_days : Z) : Prop :=
  -999999999 <= since_days <= 999999999 /\
  1 <= today - since_days <= Fetch.MAX_ORDINAL.

End FetchMoreSpec.

Module DirectoryMoreSpec.
Import Directory.

(** Every character of the string satisfies [P]. *)
Fixpoint string_forall (P : ascii -> bool) (s : string) : bool :=
  match s with
  | String c s' => P c && string_forall P s'
  | EmptyString => true
  end.

(** No two names of the directory with the normal form of [k] carry an
    id other than [pid]. *)
Definition unambiguous (id_map : list (string * Z)) (k : string) (pid : Z) : Prop :=
  forall k' pid', (k', pid') ∈ id_map -> _norm k' = _norm k -> pid' = pid.

End DirectoryMoreSpec.

Module OrderSpec.

(** Every element of the list is related to every later one. *)
Fixpoint pairwise {A} (R : A -> A -> Prop) (l : list A) : Prop :=
  match l with
  | [] => True
  | x :: l' => Forall (R x) l' /\ pairwise R l'
  end.

(** The order of [sorted] on strings: by character codes. *)
Definition string_lt (s1 s2 : string) : Prop := String.compare s1 s2 = Lt.

(** [s1] does not come after [s2]. *)
Definition string_le (s1 s2 : string) : Prop := String.ltb s2 s1 = false.

End OrderSpec.

Module GroupMoreSpec.
Import Enrich Group OrderSpec.

(** The sort key of [a] is a number not below that of [b]. *)
Definition not_below (a b : movie) : Prop :=
  exists sa sb, rank_key a = Ok (Fin sa) /\ rank_key b = Ok (Fin sb) /\ (sb <= sa)%Q.

(** The sort key of [mv] is the number [q]. *)
Definition scores (q : Q) (mv : movie) : bool :=
  match rank_key mv with
  | Ok (Fin s) => Qeq_bool s q
  | _ => false
  end.

(** A pair of the keyed list that [sort_by_rank] sorts: a number, the key
    of its movie. *)
Definition keyed_pair (kp : pyfloat * movie) : Prop :=
  exists s, kp.1 = Fin s /\ rank_key kp.2 = Ok (Fin s).

(** [a] does not come after [b] when case is ignored. *)
Definition caseless_le (a b : string) : Prop := String.ltb (lower b) (lower a) = false.

(** What the cap keeps of a sorted bucket: its first [cap] movies when the
    cap is positive, all of it otherwise. *)
Definition kept (cap : Z) (sorted : list movie) : list movie :=
  if 0 <? cap then take (Z.to_nat cap) sorted else sorted.

(** The movies of the genre [g], in the order of the list, one for each
    time the genre is listed. *)
Definition of_genre (g : string) (movies : list movie) : list movie :=
  flat_map (GroupSpec.hits g) movies.

(** Some movie of the list has a genre named ["All"]. *)
Definition some_genre_named_All (movies : list movie) : Prop :=
  exists mv, mv ∈ movies /\ "All" ∈ genres mv.

End GroupMoreSpec.

Module ConfigMoreSpec.
Import Config.

(** What [validate_int_env] amounts to: the integer the variable holds when
    it is set, reads as an integer and is not below the minimum; the
    default in every other case. *)
Definition validated (getenv : string -> option string) (name : string)
    (default min_val : Z) : Z :=
  match getenv name with
  | Some s =>
      match int_of_str s with
      | Ok value => if value <? min_val then default else value
      | Raise _ => default
      end
  | None => default
  end.

Definition not_comma (c : ascii) : bool := negb (Ascii.eqb c ",").
Definition not_space (c : ascii) : bool := negb (is_space c).

End ConfigMoreSpec.

Module ReportMoreSpec.
Import Enrich Group Report.

(** The number of (movie, genre) pairs: each movie counted once for each
    genre of its list. *)
Definition genre_listings (movies : list movie) : nat :=
  sum_list_with (fun mv => length (genres mv)) movies.

(** The genre of the first row does not come after that of the second
    when case is ignored. *)
Definition genre_order (r1 r2 : csv_row) : Prop :=
  GroupMoreSpec.caseless_le (csv_genre r1) (csv_genre r2).

End ReportMoreSpec.

(** * Properties *)

(** ** Ranking *)

Module RankFacts.
Import Rank RankSpec.
Open Scope Q_scope.

Lemma sanitize_votes_nonneg vc : (0 <= sanitize_votes vc)%Z.
Proof. unfold sanitize_votes. lia. Qed.

Lemma Qle_bool_false x y : Qle_bool x y = false -> y < x.
Proof.
  intros H. apply Qnot_le_lt. intros Hle. apply Qle_bool_iff in Hle. congruence.
Qed.

Lemma denom_pos v : (0 <= v)%Z -> 0 < inject_Z (v + m).
Proof.
  intros Hv. change 0 with (inject_Z 0). rewrite <- Zlt_Qlt. unfold m. lia.
Qed.

Lemma weight_votes_range v : (0 <= v)%Z -> 0 <= weight v v <= 1.
Proof.
  intros Hv. pose proof (denom_pos v Hv) as Hd. unfold weight. split.
  - apply Qle_shift_div_l; [exact Hd|]. rewrite Qmult_0_l.
    change 0 with (inject_Z 0). rewrite <- Zle_Qle. exact Hv.
  - apply Qle_shift_div_r; [exact Hd|]. rewrite Qmult_1_l.
    rewrite <- Zle_Qle. unfold m. lia.
Qed.

Lemma weight_prior v : (0 <= v)%Z -> weight m v == 1 - weight v v.
Proof.
  intros Hv. pose proof (denom_pos v Hv) as Hd. unfold weight.
  assert (E : inject_Z m == inject_Z (v + m) - inject_Z v).
  { rewrite inject_Z_plus. ring. }
  rewrite E. field. intros H0. rewrite H0 in Hd. now apply Qlt_irrefl in Hd.
Qed.

Lemma weight_votes_mono v1 v2 :
  (0 <= v1)%Z -> (v1 <= v2)%Z -> weight v1 v1 <= weight v2 v2.
Proof.
  intros H1 H12.
  assert (H2 : (0 <= v2)%Z) by lia.
  pose proof (denom_pos v1 H1) as Hd1. pose proof (denom_pos v2 H2) as Hd2.
  unfold weight.
  apply Qle_shift_div_l; [exact Hd2|].
  setoid_replace (inject_Z v1 / inject_Z (v1 + m) * inject_Z (v2 + m))
    with (inject_Z v1 * inject_Z (v2 + m) / inject_Z (v1 + m)) using relation Qeq.
  2:{ field. intros H0. rewrite H0 in Hd1. now apply Qlt_irrefl in Hd1. }
  apply Qle_shift_div_r; [exact Hd1|].
  rewrite <- !inject_Z_mult, <- Zle_Qle. unfold m. nia.
Qed.

Lemma clamp_rating fa :
  exists r, pymax (Fin 0) (pymin (Fin 10) fa) = Fin r /\ 0 <= r <= 10 /\
            (forall q, fa = Fin q -> 0 <= q <= 10 -> r == q).
Proof.
  destruct fa as [q| | |]; unfold pymin, pymax; cbn [flt].
  - destruct (Qle_bool 10 q) eqn:E10; cbn [negb flt].
    + exists 10. cbn. repeat split; try lra.
      intros q' [= <-] Hq. apply Qle_bool_iff in E10. lra.
    + assert (q < 10).
      { apply Qnot_le_lt. intros H. apply Qle_bool_iff in H. congruence. }
      destruct (Qle_bool q 0) eqn:E0; cbn [negb].
      * apply Qle_bool_iff in E0. exists 0. repeat split; try lra.
        intros q' [= <-] Hq. lra.
      * assert (0 < q).
        { apply Qnot_le_lt. intros H'. apply Qle_bool_iff in H'. congruence. }
        exists q. repeat split; try lra. intros q' [= <-] _. reflexivity.
  - exists 10. cbn. repeat split; try lra. discriminate.
  - exists 0. cbn. repeat split; try lra. discriminate.
  - exists 10. cbn. repeat split; try lra. discriminate.
Qed.

Lemma norm_popularity_range fp :
  exists pc n, fdiv (pymax (Fin 0) fp) (Fin 100) = Ok pc /\
               pymin (Fin 10) pc = Fin n /\ 0 <= n <= 10.
Proof.
  assert (Hfin : forall p, 0 <= p ->
            exists pc n, fdiv (Fin p) (Fin 100) = Ok pc /\
                         pymin (Fin 10) pc = Fin n /\ 0 <= n <= 10).
  { intros p Hp. exists (Fin (p / 100)). cbn [fdiv].
    change (Qeq_bool 100 0) with false. cbv iota.
    unfold pymin; cbn [flt].
    destruct (Qle_bool 10 (p / 100)) eqn:E; cbn [negb].
    - exists 10. repeat split; lra.
    - exists (p / 100). repeat split.
      + apply Qle_shift_div_l; lra.
      + apply Qlt_le_weak, Qnot_le_lt. intros H. apply Qle_bool_iff in H.
        congruence. }
  destruct fp as [p| | |]; unfold pymax; cbn [flt].
  - destruct (Qle_bool p 0) eqn:E; cbn [negb].
    + apply Hfin. lra.
    + apply Hfin. apply Qlt_le_weak, Qnot_le_lt. intros H.
      apply Qle_bool_iff in H. congruence.
  - exists PosInf, 10. repeat split; lra.
  - apply Hfin. lra.
  - apply Hfin. lra.
Qed.

Lemma rank_score_eq va vc p fa fp :
  py_float (or_zero va) = Ok fa ->
  py_float (or_zero p) = Ok fp ->
  exists r n,
    pymax (Fin 0) (pymin (Fin 10) fa) = Fin r /\ 0 <= r <= 10 /\
    0 <= n <= 10 /\
    rank_score va vc p = Ok (Fin (score_of (sanitize_votes vc) r n)).
Proof.
  intros Ha Hp.
  destruct (clamp_rating fa) as (r & Hr & Hrr & _).
  destruct (norm_popularity_range fp) as (pc & n & Hpc & Hn & Hnr).
  exists r, n. repeat split; try tauto.
  unfold rank_score. rewrite Ha, Hp. cbn [mbind result_bind].
  unfold int_truediv.
  pose proof (sanitize_votes_nonneg vc) as Hv.
  destruct (Z.eqb_spec (sanitize_votes vc + m) 0) as [E|_]; [unfold m in E; lia|].
  rewrite Hr, Hpc. cbn [mbind result_bind]. rewrite Hn. reflexivity.
Qed.

Lemma score_of_range v r n :
  (0 <= v)%Z -> 0 <= r <= 10 -> 0 <= n <= 10 -> 0 <= score_of v r n <= 10.
Proof.
  intros Hv Hr Hn. unfold score_of.
  pose proof (weight_votes_range v Hv) as Hw.
  rewrite (weight_prior v Hv).
  set (w := weight v v) in *. clearbody w. split; nra.
Qed.

Lemma score_of_mono v1 v2 r n :
  (0 <= v1)%Z -> (v1 <= v2)%Z ->
  ((13 # 2) <= r -> score_of v1 r n <= score_of v2 r n) /\
  (r <= (13 # 2) -> score_of v2 r n <= score_of v1 r n).
Proof.
  intros H1 H12. assert (H2 : (0 <= v2)%Z) by lia.
  pose proof (weight_votes_mono v1 v2 H1 H12) as Hm.
  unfold score_of. rewrite (weight_prior v1 H1), (weight_prior v2 H2).
  set (w1 := weight v1 v1) in *. set (w2 := weight v2 v2) in *.
  clearbody w1 w2. split; intros Hr; nra.
Qed.

Lemma py_float_or_none x :
  float_or_none x = true -> exists f, py_float (or_zero x) = Ok f.
Proof.
  destruct x as [|b|z|f|s|l|d]; cbn; try discriminate; eauto.
  intros ->. eauto.
Qed.

(** C1.  For a rating in [0,10], a vote count of at least zero and a
    popularity of at least zero (which may be infinite), [rank_score]
    returns a finite score between 0 and 10. *)
Theorem rank_score_in_range (rating : Q) (voteCount : Z) (pop : pyfloat) :
  0 <= rating <= 10 -> (0 <= voteCount)%Z -> float_nonneg pop ->
  exists s, rank_score (VFloat (Fin rating)) (VInt voteCount) (VFloat pop)
              = Ok (Fin s)
            /\ 0 <= s <= 10.
Proof.
  intros Hr Hv Hp.
  destruct (rank_score_eq (VFloat (Fin rating)) (VInt voteCount) (VFloat pop)
              (Fin rating) pop eq_refl eq_refl) as (r & n & _ & Hrr & Hn & E).
  eexists. split; [exact E|].
  apply score_of_range; auto using sanitize_votes_nonneg.
Qed.

Lemma rank_score_in_range_witness :
  (0 <= 8 <= 10 /\ (0 <= 500)%Z /\ float_nonneg (Fin 45)) /\
  exists s, rank_score (VFloat (Fin 8)) (VInt 500) (VFloat (Fin 45)) = Ok (Fin s)
            /\ 0 <= s <= 10.
Proof.
  assert (H1 : 0 <= 8 <= 10) by (split; discriminate).
  assert (H2 : (0 <= 500)%Z) by discriminate.
  assert (H3 : float_nonneg (Fin 45)) by (cbn; discriminate).
  split; [auto|]. exact (rank_score_in_range 8 500 (Fin 45) H1 H2 H3).
Defined.

(** Without rounding, the score moves with the vote count in the direction
    of the Bayesian shrinkage: up for a rating above the prior mean 6.5,
    down for one below. *)
Lemma rank_score_exact_monotone_in_votes (rating : Q) (pop : pyfloat) (v1 v2 : Z) :
  0 <= rating <= 10 -> (v1 <= v2)%Z ->
  exists s1 s2,
    rank_score (VFloat (Fin rating)) (VInt v1) (VFloat pop) = Ok (Fin s1) /\
    rank_score (VFloat (Fin rating)) (VInt v2) (VFloat pop) = Ok (Fin s2) /\
    ((13 # 2) < rating -> s1 <= s2) /\
    (rating < (13 # 2) -> s2 <= s1).
Proof.
  intros Hr H12.
  destruct (clamp_rating (Fin rating)) as (r & Er & Hrr & Hq).
  specialize (Hq rating eq_refl Hr).
  destruct (norm_popularity_range pop) as (pc & n & Epc & En & Hn).
  assert (E : forall v, rank_score (VFloat (Fin rating)) (VInt v) (VFloat pop)
                        = Ok (Fin (score_of (sanitize_votes (VInt v)) r n))).
  { intros v. unfold rank_score. cbn [or_zero py_float mbind result_bind].
    unfold int_truediv.
    pose proof (sanitize_votes_nonneg (VInt v)) as Hv.
    destruct (Z.eqb_spec (sanitize_votes (VInt v) + m) 0) as [E0|_];
      [unfold m in E0; lia|].
    rewrite Er, Epc. cbn [mbind result_bind]. rewrite En. reflexivity. }
  exists (score_of (sanitize_votes (VInt v1)) r n),
         (score_of (sanitize_votes (VInt v2)) r n).
  split; [apply E|]. split; [apply E|].
  assert (Hs : (sanitize_votes (VInt v1) <= sanitize_votes (VInt v2))%Z)
    by (unfold sanitize_votes; cbn; lia).
  destruct (score_of_mono _ _ r n (sanitize_votes_nonneg (VInt v1)) Hs)
    as [Hup Hdown].
  split; intros Hc; [apply Hup | apply Hdown]; lra.
Qed.

(** C10.  [rank_score] is total on its domain: whatever the vote count is
    (an int of any sign, [None], or any other value), and for a rating and
    a popularity that are [None] or numbers, it returns a finite float.
    The sanitized vote count is at least 0, so the denominator [v + 150]
    is at least 150 and the division cannot raise. *)
Theorem rank_score_total (vote_average vote_count popularity : pyval) :
  float_or_none vote_average = true -> float_or_none popularity = true ->
  (0 <= sanitize_votes vote_count)%Z /\
  (150 <= sanitize_votes vote_count + m)%Z /\
  int_truediv (sanitize_votes vote_count) (sanitize_votes vote_count + m)
    = Ok (Fin (weight (sanitize_votes vote_count) (sanitize_votes vote_count))) /\
  exists s, rank_score vote_average vote_count popularity = Ok (Fin s).
Proof.
  intros Ha Hp.
  pose proof (sanitize_votes_nonneg vote_count) as Hv.
  split; [exact Hv|]. split; [unfold m; lia|]. split.
  - unfold int_truediv.
    destruct (Z.eqb_spec (sanitize_votes vote_count + m) 0) as [E0|_];
      [unfold m in E0; lia|reflexivity].
  - destruct (py_float_or_none _ Ha) as [fa Efa].
    destruct (py_float_or_none _ Hp) as [fp Efp].
    destruct (rank_score_eq vote_average vote_count popularity fa fp Efa Efp)
      as (r & n & _ & _ & _ & E).
    eauto.
Qed.

Lemma rank_score_total_witness :
  (float_or_none VNone = true /\ float_or_none VNone = true) /\
  (0 <= sanitize_votes (VInt (-7)))%Z /\
  (150 <= sanitize_votes (VInt (-7)) + m)%Z /\
  int_truediv (sanitize_votes (VInt (-7))) (sanitize_votes (VInt (-7)) + m)
    = Ok (Fin (weight (sanitize_votes (VInt (-7))) (sanitize_votes (VInt (-7))))) /\
  exists s, rank_score VNone (VInt (-7)) VNone = Ok (Fin s).
Proof.
  split; [split; reflexivity|].
  exact (rank_score_total VNone (VInt (-7)) VNone eq_refl eq_refl).
Defined.

End RankFacts.

(** ** The HTTP helper *)

Module HttpFacts.
Import Http HttpGet HttpSpec.

Lemma backoff_pos attempt : (0 < backoff attempt)%Q.
Proof.
  unfold backoff. apply Qmult_lt_0_compat; [reflexivity|].
  change 0%Q with (inject_Z 0). rewrite <- Zlt_Qlt. lia.
Qed.

Lemma retry_delay_nonneg attempt : Qle_bool 0 (retry_delay attempt) = true.
Proof.
  apply Qle_bool_iff. unfold retry_delay.
  destruct (Qle_bool (backoff attempt) 10); [|discriminate].
  apply Qlt_le_weak, backoff_pos.
Qed.

Lemma retry_delay_le_10 attempt : (retry_delay attempt <= 10)%Q.
Proof.
  unfold retry_delay. destruct (Qle_bool (backoff attempt) 10) eqn:E.
  - now apply Qle_bool_iff.
  - apply Qle_refl.
Qed.

(** A sleep of a length in range goes through. *)
Lemma sleep_in_range secs st :
  (0 <= secs)%Q -> (secs <= SLEEP_MAX)%Q ->
  sleep secs st = (Ok tt, {| issued := issued st; slept := secs :: slept st |}).
Proof.
  intros H0 Hmax. unfold sleep.
  assert (Qle_bool SLEEP_MIN secs = true) as ->.
  { apply Qle_bool_iff. eapply Qle_trans; [|exact H0]. discriminate. }
  assert (Qle_bool secs SLEEP_MAX = true) as -> by now apply Qle_bool_iff.
  assert (Qle_bool 0 secs = true) as -> by now apply Qle_bool_iff.
  reflexivity.
Qed.

(** A sleep never issues a request. *)
Lemma sleep_issued secs st : issued (sleep secs st).2 = issued st.
Proof.
  unfold sleep. destruct (negb _); [reflexivity|].
  now destruct (Qle_bool 0 secs).
Qed.

Lemma delay_step attempt st :
  (if (0 <? attempt)%nat then sleep (retry_delay attempt) else ret tt) st
  = (Ok tt, after_delay attempt st).
Proof.
  unfold after_delay. destruct (0 <? attempt)%nat; [|reflexivity].
  apply sleep_in_range.
  - apply Qle_bool_iff, retry_delay_nonneg.
  - eapply Qle_trans; [apply retry_delay_le_10|discriminate].
Qed.

Lemma issued_after_delay attempt st : issued (after_delay attempt st) = issued st.
Proof. unfold after_delay. now destruct (0 <? attempt)%nat. Qed.

(** One attempt, case by case on what the request got. *)
Lemma attempt_body_unfold w attempt st :
  attempt_body w attempt st =
  let st1 := after_delay attempt st in
  let st2 := {| issued := S (issued st1); slept := slept st1 |} in
  match w (issued st1) with
  | Failed => (Raise ConnectionError, st2)
  | Responded r =>
      if status_code r =? 429 then
        (secs <~ lift (retry_after_secs r attempt) ;;
         sleep (inject_Z secs) ;; ret None)%http st2
      else if status_code r =? 401 then (Raise (SystemExit AuthFailed), st2)
      else
        (lift (raise_for_status r) ;;
         data <~ lift (json r) ;;
         if is_dict_or_list data then ret (Some data) else raise ValueError)%http st2
  end.
Proof.
  unfold attempt_body at 1. unfold bind at 1. rewrite delay_step. cbn zeta.
  unfold bind at 1. unfold requests_get at 1.
  destruct (w (issued (after_delay attempt st))) as [r|]; [|reflexivity].
  destruct (status_code r =? 429); [reflexivity|].
  destruct (status_code r =? 401); reflexivity.
Qed.

Lemma attempt_body_issued w attempt st :
  issued (attempt_body w attempt st).2 = S (issued st).
Proof.
  rewrite attempt_body_unfold. cbn zeta. rewrite issued_after_delay.
  destruct (w (issued st)) as [r|]; [|reflexivity].
  destruct (status_code r =? 429).
  - unfold bind, lift, ret.
    destruct (retry_after_secs r attempt) as [secs|e]; [|reflexivity].
    match goal with
    | |- context [sleep ?q ?s] =>
        pose proof (sleep_issued q s) as Hs; destruct (sleep q s) as [[[]|e] st3]
    end; cbn in *; now rewrite ?Hs, ?issued_after_delay.
  - destruct (status_code r =? 401); [cbn; now rewrite ?issued_after_delay|].
    unfold bind, lift, ret, raise.
    destruct (raise_for_status r); [|cbn; now rewrite ?issued_after_delay].
    destruct (json r) as [data|e]; [|cbn; now rewrite ?issued_after_delay].
    destruct (is_dict_or_list data); cbn; now rewrite ?issued_after_delay.
Qed.

Lemma attempt_body_401 w attempt st :
  answered w (issued st) 401 ->
  (attempt_body w attempt st).1 = Raise (SystemExit AuthFailed).
Proof.
  intros (r & Hw & Hs). rewrite attempt_body_unfold. cbn zeta.
  rewrite issued_after_delay, Hw, Hs. reflexivity.
Qed.

(** *** A 401 is fatal: the building blocks *)

Lemma auth_fatal_ret {A} w (a : A) : auth_fatal w (ret a).
Proof. intros st. split; [done|]. intros n [? ?]. cbn in *. lia. Qed.

Lemma auth_fatal_raise {A} w e : auth_fatal w (raise (A:=A) e).
Proof. intros st. split; [done|]. intros n [? ?]. cbn in *. lia. Qed.

Lemma auth_fatal_lift {A} w (r : result A) : auth_fatal w (lift r).
Proof. intros st. split; [done|]. intros n [? ?]. cbn in *. lia. Qed.

Lemma auth_fatal_bind {A B} w (c : M A) (k : A -> M B) :
  auth_fatal w c -> (forall a, auth_fatal w (k a)) -> auth_fatal w (bind c k).
Proof.
  intros Hc Hk st. unfold issued_by, bind.
  destruct (Hc st) as [Hle Hc']. unfold issued_by in Hc'.
  destruct (c st) as [[a|e] st1] eqn:E; cbn [fst snd] in *.
  - destruct (Hk a st1) as [Hle' Hk']. unfold issued_by in Hk'.
    split; [lia|]. intros n Hn H401.
    destruct (decide (n < issued st1)%nat) as [Hlt|Hge].
    + destruct (Hc' n) as [Habs _]; [lia|done|discriminate].
    + apply Hk'; [lia|done].
  - split; [done|]. intros n Hn H401.
    destruct (Hc' n Hn H401) as [[= ->] ->]. done.
Qed.

Lemma auth_fatal_try {A} w (body : M A) (handler : exn -> M A) :
  auth_fatal w body -> (forall e, auth_fatal w (handler e)) ->
  auth_fatal w (try_except_Exception body handler).
Proof.
  intros Hc Hh st. unfold issued_by, try_except_Exception.
  destruct (Hc st) as [Hle Hc']. unfold issued_by in Hc'.
  destruct (body st) as [[a|e] st1] eqn:E; cbn [fst snd] in *.
  - split; [done|]. intros n Hn H401. now apply Hc'.
  - destruct (is_Exception e) eqn:Ee.
    + destruct (Hh e st1) as [Hle' Hh']. unfold issued_by in Hh'.
      split; [lia|]. intros n Hn H401.
      destruct (decide (n < issued st1)%nat) as [Hlt|Hge].
      * destruct (Hc' n) as [Habs _]; [lia|done|].
        injection Habs as ->. discriminate.
      * apply Hh'; [lia|done].
    + split; [done|]. intros n Hn H401. now apply Hc'.
Qed.

Lemma get_loop_issued_le w retries attempts last st :
  (issued st <= issued (get_loop w retries attempts last st).2)%nat.
Proof.
  revert last st. induction attempts as [|attempt rest IH]; intros last st.
  - cbn [get_loop]. destruct last; done.
  - cbn [get_loop]. pose proof (attempt_body_issued w attempt st) as Hi.
    destruct (attempt_body w attempt st) as [[[data|]|e] st1];
      cbn [fst snd] in *.
    + lia.
    + specialize (IH last st1). lia.
    + destruct (is_RequestException e).
      * destruct (attempt =? retries - 1)%nat; [cbn; lia|].
        specialize (IH (Some e) st1). lia.
      * destruct (is_ValueError_or_TypeError e); cbn; lia.
Qed.

Lemma get_loop_issues w retries attempt rest last st :
  (S (issued st) <= issued (get_loop w retries (attempt :: rest) last st).2)%nat.
Proof.
  cbn [get_loop]. pose proof (attempt_body_issued w attempt st) as Hi.
  destruct (attempt_body w attempt st) as [[[data|]|e] st1];
    cbn [fst snd] in *.
  - lia.
  - pose proof (get_loop_issued_le w retries rest last st1). lia.
  - destruct (is_RequestException e).
    + destruct (attempt =? retries - 1)%nat; [cbn; lia|].
      pose proof (get_loop_issued_le w retries rest (Some e) st1). lia.
    + destruct (is_ValueError_or_TypeError e); cbn; lia.
Qed.

(** If the answers with property [P] make every attempt raise an exception
    that no [except] clause retries, then the first such answer ends the
    call. *)
Lemma get_loop_stops w retries (P : nat -> Prop) (e : exn) :
  (forall attempt st, P (issued st) ->
     exists e0, (attempt_body w attempt st).1 = Raise e0 /\
                is_RequestException e0 = false /\ escapes e0 = e) ->
  forall attempts last st n,
    issued_by (get_loop w retries attempts last) st n -> P n ->
    (get_loop w retries attempts last st).1 = Raise e /\
    issued (get_loop w retries attempts last st).2 = S n.
Proof.
  intros Hstop attempts. unfold issued_by.
  induction attempts as [|attempt rest IH]; intros last st n.
  - cbn [get_loop]. destruct last; cbn; lia.
  - cbn [get_loop].
    pose proof (attempt_body_issued w attempt st) as Hi.
    pose proof (Hstop attempt st) as Hs.
    destruct (attempt_body w attempt st) as [[[data|]|e1] st1] eqn:E;
      cbn [fst snd] in *.
    + intros Hn HP. assert (n = issued st) as -> by lia.
      destruct (Hs HP) as (e0 & [=] & _).
    + intros Hn HP. destruct (decide (n = issued st)) as [->|Hne].
      * destruct (Hs HP) as (e0 & [=] & _).
      * apply IH; [lia|done].
    + assert (Hhere : P (issued st) ->
                is_RequestException e1 = false /\ escapes e1 = e).
      { intros HP. destruct (Hs HP) as (e0 & [= ->] & ? & ?). done. }
      unfold escapes in Hhere.
      destruct (is_RequestException e1) eqn:Er.
      * destruct (attempt =? retries - 1)%nat.
        -- cbn [fst snd]. intros Hn HP. assert (n = issued st) as -> by lia.
           destruct (Hhere HP) as [[=] _].
        -- intros Hn HP. destruct (decide (n = issued st)) as [->|Hne].
           ++ destruct (Hhere HP) as [[=] _].
           ++ apply IH; [lia|done].
      * destruct (is_ValueError_or_TypeError e1) eqn:Ev; cbn [fst snd];
          intros Hn HP; assert (n = issued st) as -> by lia;
          destruct (Hhere HP) as [_ <-]; done.
Qed.

Lemma auth_fatal_get_loop w retries attempts last :
  auth_fatal w (get_loop w retries attempts last).
Proof.
  intros st. split; [apply get_loop_issued_le|].
  intros n Hn Hw.
  apply (get_loop_stops w retries (fun n => answered w n 401)); [|done..].
  intros attempt st' Hw'. exists (SystemExit AuthFailed).
  split; [now apply attempt_body_401|done].
Qed.

Lemma auth_fatal_get w retries : auth_fatal w (_get w retries).
Proof. apply auth_fatal_get_loop. Qed.

(** *** Bodies that are not an object or an array *)

Lemma attempt_body_not_structured w attempt st r :
  w (issued st) = Responded r -> reaches_decoding r ->
  not_structured (content r) ->
  (attempt_body w attempt st).1 = Raise ValueError.
Proof.
  intros Hw (H429 & H401 & Herr) Hbody.
  rewrite attempt_body_unfold. cbn zeta. rewrite issued_after_delay, Hw.
  destruct (Z.eqb_spec (status_code r) 429) as [|_]; [done|].
  destruct (Z.eqb_spec (status_code r) 401) as [|_]; [done|].
  unfold bind, lift, raise_for_status.
  destruct ((400 <=? status_code r) && (status_code r <? 600)) eqn:Es.
  { apply andb_true_iff in Es as [H1 H2]. exfalso. apply Herr. lia. }
  unfold json. unfold not_structured in Hbody.
  destruct (content r) as [v|e].
  - now rewrite Hbody.
  - now subst e.
Qed.

(** With requests 2.27 or later the decoder's error is also a
    [RequestException]: the first [except] clause takes it, and the attempt
    is retried like a transport failure. *)
Lemma attempt_body_requests_decode_error w attempt st r :
  w (issued st) = Responded r -> reaches_decoding r ->
  content r = Undecodable RequestsDecodeError ->
  (attempt_body w attempt st).1 = Raise RequestsJSONDecodeError.
Proof.
  intros Hw (H429 & H401 & Herr) Hbody.
  rewrite attempt_body_unfold. cbn zeta. rewrite issued_after_delay, Hw.
  destruct (Z.eqb_spec (status_code r) 429) as [|_]; [done|].
  destruct (Z.eqb_spec (status_code r) 401) as [|_]; [done|].
  unfold bind, lift, raise_for_status.
  destruct ((400 <=? status_code r) && (status_code r <? 600)) eqn:Es.
  { apply andb_true_iff in Es as [H1 H2]. exfalso. apply Herr. lia. }
  unfold json. now rewrite Hbody.
Qed.

Lemma requests_decode_error_is_retried w retries attempt rest last st r :
  w (issued st) = Responded r -> reaches_decoding r ->
  content r = Undecodable RequestsDecodeError ->
  attempt <> (retries - 1)%nat ->
  exists st1, issued st1 = S (issued st) /\
    get_loop w retries (attempt :: rest) last st
    = get_loop w retries rest (Some RequestsJSONDecodeError) st1.
Proof.
  intros Hw Hr Hbody Hlast.
  cbn [get_loop]. pose proof (attempt_body_issued w attempt st) as Hi.
  pose proof (attempt_body_requests_decode_error w attempt st r Hw Hr Hbody) as E.
  destruct (attempt_body w attempt st) as [o st1]. cbn [fst snd] in *.
  subst o. cbn [is_RequestException].
  destruct (Nat.eqb_spec attempt (retries - 1)) as [|_]; [done|].
  exists st1. done.
Qed.

(** If the answers with property [P] make every attempt raise a
    [RequestException], then such an answer is retried: when it comes on
    the last attempt the call ends with the exit that reports the number
    of attempts, and otherwise a further request is issued. *)
Lemma get_loop_retries w retries (P : nat -> Prop) :
  (forall attempt st, P (issued st) ->
     exists e0, (attempt_body w attempt st).1 = Raise e0 /\
                is_RequestException e0 = true) ->
  forall k a last st n,
    (a + k = retries)%nat ->
    issued_by (get_loop w retries (seq a k) last) st n -> P n ->
    (S n = issued st + k ->
     (get_loop w retries (seq a k) last st).1
       = Raise (SystemExit (Unreachable retries)) /\
     issued (get_loop w retries (seq a k) last st).2 = S n)%nat /\
    (S n < issued st + k ->
     S n < issued (get_loop w retries (seq a k) last st).2)%nat.
Proof.
  intros Hretry. unfold issued_by.
  induction k as [|k IH]; intros a last st n Hak.
  - cbn [seq get_loop]. destruct last; cbn; lia.
  - cbn [seq get_loop].
    pose proof (attempt_body_issued w a st) as Hi.
    pose proof (Hretry a st) as Hs.
    assert (Hrest : forall last' st1 attempts,
              (issued st1 <= issued (get_loop w retries attempts last' st1).2)%nat)
      by (intros; apply get_loop_issued_le).
    destruct (attempt_body w a st) as [[[data|]|e1] st1] eqn:E;
      cbn [fst snd] in *.
    + intros Hn HP. assert (n = issued st) as -> by lia.
      destruct (Hs HP) as (e0 & [=] & _).
    + intros Hn HP. destruct (decide (n = issued st)) as [->|Hne].
      * destruct (Hs HP) as (e0 & [=] & _).
      * destruct (IH (S a) last st1 n) as [H1 H2]; [lia|lia|done|].
        split; intros Hk; [apply H1|apply H2]; lia.
    + destruct (is_RequestException e1) eqn:Er.
      * destruct (Nat.eqb_spec a (retries - 1)) as [Ea|Ea]; cbn [fst snd].
        -- intros Hn HP. assert (n = issued st) as -> by lia.
           split; [intros _; split; [done|lia]|lia].
        -- intros Hn HP. destruct (decide (n = issued st)) as [->|Hne].
           ++ split; [lia|]. intros _. destruct k as [|k]; [lia|].
              pose proof (get_loop_issues w retries (S a) (seq (S (S a)) k)
                            (Some e1) st1) as Hmore.
              cbn [seq]. lia.
           ++ destruct (IH (S a) (Some e1) st1 n) as [H1 H2]; [lia|lia|done|].
              split; intros Hk; [apply H1|apply H2]; lia.
      * intros Hn HP.
        assert (n = issued st) as ->
          by (destruct (is_ValueError_or_TypeError e1); cbn [fst snd] in Hn; lia).
        destruct (Hs HP) as (e0 & [= ->] & He0). congruence.
Qed.

(** What a call to [_get] does with a body that is not an object or an
    array.  Whenever a request of the call is answered by a response whose
    body is decoded (no 429, no 401, no error status):
    - if the body decodes to a value that is not an object or an array, or
      the decoder rejects it with its own [ValueError], the call ends there
      with the invalid-response [SystemExit]: that request is the last one
      issued, whatever the number of attempts left;
    - if the decoder rejects it with the error of requests 2.27 and later,
      which is a [RequestException], the failure is retried like a
      transport failure: on the last attempt the call ends with the exit
      that reports the number of attempts, and before it a further request
      is issued. *)
Theorem malformed_body_fails_immediately w retries st n r :
  issued_by (_get w retries) st n ->
  w n = Responded r -> reaches_decoding r ->
  (not_structured (content r) ->
   (_get w retries st).1 = Raise (SystemExit InvalidResponse) /\
   issued (_get w retries st).2 = S n) /\
  (content r = Undecodable RequestsDecodeError ->
   (S n = issued st + retries ->
    (_get w retries st).1 = Raise (SystemExit (Unreachable retries)) /\
    issued (_get w retries st).2 = S n)%nat /\
   (S n < issued st + retries -> S n < issued (_get w retries st).2)%nat).
Proof.
  intros Hn Hw Hr. split.
  - intros Hb. unfold _get in *.
    apply (get_loop_stops w retries
             (fun n => exists r, w n = Responded r /\ reaches_decoding r /\
                                 not_structured (content r))); [|done|eauto].
    intros attempt st' (r' & Hw' & Hr' & Hb'). exists ValueError.
    split; [now apply (attempt_body_not_structured w attempt st' r')|done].
  - intros Hb. unfold _get in *.
    apply (get_loop_retries w retries
             (fun n => exists r, w n = Responded r /\ reaches_decoding r /\
                                 content r = Undecodable RequestsDecodeError));
      [|lia|done|eauto].
    intros attempt st' (r' & Hw' & Hr' & Hb'). exists RequestsJSONDecodeError.
    split; [now apply (attempt_body_requests_decode_error w attempt st' r')|done].
Qed.

Lemma malformed_body_fails_immediately_witness :
  let w := fun _ : nat => respond 200 (VInt 7) in
  let r := {| status_code := 200; retry_after := None;
              content := Decoded (VInt 7) |} in
  (issued_by (_get w 3) st0 0 /\ w 0%nat = Responded r /\ reaches_decoding r) /\
  (not_structured (content r) ->
   (_get w 3 st0).1 = Raise (SystemExit InvalidResponse) /\
   issued (_get w 3 st0).2 = 1%nat) /\
  (content r = Undecodable RequestsDecodeError ->
   (1 = issued st0 + 3 ->
    (_get w 3 st0).1 = Raise (SystemExit (Unreachable 3)) /\
    issued (_get w 3 st0).2 = 1)%nat /\
   (1 < issued st0 + 3 -> 1 < issued (_get w 3 st0).2)%nat).
Proof.
  intros w r.
  assert (H1 : issued_by (_get w 3) st0 0) by (vm_compute; lia).
  assert (H2 : w 0%nat = Responded r) by reflexivity.
  assert (H3 : reaches_decoding r) by (unfold reaches_decoding; cbn; lia).
  split; [done|].
  exact (malformed_body_fails_immediately w 3 st0 0 r H1 H2 H3).
Defined.

(** C4.  The code at a body that does not decode, every request being
    answered 200, with requests 2.27 or later: [r.json()] raises the
    decoding error of requests, the clause for [RequestException] takes it
    before the clause for [ValueError] can, and the call uses its three
    attempts before it gives up, where the claim has it fail at once. *)
Lemma undecodable_body_is_retried :
  let r := {| status_code := 200; retry_after := None;
              content := Undecodable RequestsDecodeError |} in
  let w : world := fun _ => Responded r in
  reaches_decoding r /\
  json r = Raise RequestsJSONDecodeError /\
  (_get w 3 st0).1 = Raise (SystemExit (Unreachable 3)) /\
  issued (_get w 3 st0).2 = 3%nat.
Proof.
  intros r w. split; [unfold reaches_decoding; cbn; lia|].
  repeat split.
Qed.

(** *** Status 429 *)

Lemma sleepable_in_range secs :
  sleepable secs -> (0 <= inject_Z secs)%Q /\ (inject_Z secs <= SLEEP_MAX)%Q.
Proof.
  intros [H0 Hmax]. split.
  - change 0%Q with (inject_Z 0). now rewrite <- Zle_Qle.
  - eapply Qle_trans; [|instantiate (1 := inject_Z 9223372036); discriminate].
    now rewrite <- Zle_Qle.
Qed.

Lemma attempt_body_429 w attempt st r secs :
  w (issued st) = Responded r -> status_code r = 429 ->
  retry_after_secs r attempt = Ok secs -> sleepable secs ->
  attempt_body w attempt st = (Ok None, after_429 attempt secs st).
Proof.
  intros Hw Hs Hsecs [H0 Hmax]%sleepable_in_range.
  rewrite attempt_body_unfold. cbn zeta. rewrite issued_after_delay, Hw, Hs.
  cbn [Z.eqb Pos.eqb]. unfold bind, lift. rewrite Hsecs.
  rewrite sleep_in_range by done.
  unfold after_429. cbn. now rewrite ?issued_after_delay.
Qed.

(** A wait that [time.sleep] refuses leaves the call as an
    [OverflowError]: neither [except] clause of [_get] takes it. *)
Lemma attempt_body_429_overflow w attempt st r secs :
  w (issued st) = Responded r -> status_code r = 429 ->
  retry_after_secs r attempt = Ok secs -> 9223372036 < secs ->
  (attempt_body w attempt st).1 = Raise OverflowError.
Proof.
  intros Hw Hs Hsecs Hbig.
  rewrite attempt_body_unfold. cbn zeta. rewrite issued_after_delay, Hw, Hs.
  cbn [Z.eqb Pos.eqb]. unfold bind, lift. rewrite Hsecs. unfold sleep.
  assert (Qle_bool (inject_Z secs) SLEEP_MAX = false) as ->.
  { destruct (Qle_bool (inject_Z secs) SLEEP_MAX) eqn:E; [|done].
    apply Qle_bool_iff in E. unfold Qle, SLEEP_MAX in E. cbn in E. lia. }
  now rewrite andb_false_r.
Qed.

(** C6, as amended.  A 429 makes the helper sleep the [Retry-After]
    seconds when the header is present, otherwise the truncated
    exponential delay, provided that wait is a whole number of seconds
    that [time.sleep] accepts (from 0 to 9223372036), and go on with the
    attempts that are left, the recorded exception unchanged: while an
    attempt is left a further request is issued; after the last attempt
    the call raises.  The attempts are among the first 1024: beyond,
    [2 ** attempt] is too large for the float product of the delay. *)
Theorem too_many_requests_retried_while_attempts_remain
    w retries attempt rest last st r secs :
  Forall (fun a => (a < 1024)%nat) (attempt :: rest) ->
  w (issued st) = Responded r -> status_code r = 429 ->
  retry_after_secs r attempt = Ok secs -> sleepable secs ->
  get_loop w retries (attempt :: rest) last st
    = get_loop w retries rest last (after_429 attempt secs st) /\
  (forall s, retry_after r = Some s -> int_of_str s = Ok secs) /\
  (retry_after r = None -> secs = Qtrunc (backoff attempt)) /\
  (rest <> [] ->
   (S (S (issued st)) <= issued (get_loop w retries (attempt :: rest) last st).2)%nat) /\
  (rest = [] ->
   get_loop w retries (attempt :: rest) last st
   = (Raise (default (SystemExit AllRetries) last), after_429 attempt secs st)).
Proof.
  intros _ Hw Hs Hsecs Hpos.
  assert (E : get_loop w retries (attempt :: rest) last st
              = get_loop w retries rest last (after_429 attempt secs st)).
  { cbn [get_loop]. now rewrite (attempt_body_429 w attempt st r secs). }
  split; [exact E|]. unfold retry_after_secs in Hsecs.
  split; [intros s Hh; now rewrite Hh in Hsecs|].
  split; [intros Hh; rewrite Hh in Hsecs; now injection Hsecs|].
  split.
  - intros Hne. rewrite E. destruct rest as [|a rest']; [done|].
    pose proof (get_loop_issues w retries a rest' last (after_429 attempt secs st)).
    cbn [after_429 issued] in *. lia.
  - intros ->. rewrite E. cbn [get_loop]. now destruct last.
Qed.

Lemma too_many_requests_retried_while_attempts_remain_witness :
  let r := {| status_code := 429; retry_after := Some "2";
              content := Decoded (VDict []) |} in
  let w := fun n : nat => match n with
                          | O => Responded r
                          | _ => respond 200 (VDict [])
                          end in
  (Forall (fun a => (a < 1024)%nat) [0; 1; 2]%nat /\
   w (issued st0) = Responded r /\ status_code r = 429 /\
   retry_after_secs r 0 = Ok 2 /\ sleepable 2) /\
  get_loop w 3 [0; 1; 2]%nat None st0
    = get_loop w 3 [1; 2]%nat None (after_429 0 2 st0) /\
  (forall s, retry_after r = Some s -> int_of_str s = Ok 2) /\
  (retry_after r = None -> 2 = Qtrunc (backoff 0)) /\
  ([1; 2]%nat <> [] ->
   (S (S (issued st0)) <= issued (get_loop w 3 [0; 1; 2]%nat None st0).2)%nat) /\
  ([1; 2]%nat = [] ->
   get_loop w 3 [0; 1; 2]%nat None st0
   = (Raise (default (SystemExit AllRetries) None), after_429 0 2 st0)).
Proof.
  intros r w.
  assert (H0 : Forall (fun a => (a < 1024)%nat) [0; 1; 2]%nat)
    by (repeat constructor; lia).
  assert (H1 : w (issued st0) = Responded r) by reflexivity.
  assert (H2 : status_code r = 429) by reflexivity.
  assert (H3 : retry_after_secs r 0 = Ok 2) by reflexivity.
  assert (H4 : sleepable 2) by (unfold sleepable; lia).
  split; [done|].
  exact (too_many_requests_retried_while_attempts_remain
           w 3 0%nat [1; 2]%nat None st0 r 2 H0 H1 H2 H3 H4).
Defined.

(** C6, as stated, fails: when every attempt is answered 429 the call
    raises. *)
Lemma always_429_call_fails :
  answered always_429 0 429 /\ answered always_429 1 429 /\
  answered always_429 2 429 /\
  (_get always_429 3 st0).1 = Raise (SystemExit AllRetries) /\
  issued (_get always_429 3 st0).2 = 3%nat.
Proof.
  repeat split; try (eexists; split; reflexivity).
Qed.

End HttpFacts.

(** ** A 401 anywhere in the pipeline *)

Module PipelineFacts.
Import Http HttpGet HttpSpec HttpFacts Directory Fetch Enrich Group Program.

(** Breaks a computation into the blocks for which [auth_fatal] is known. *)
Ltac auth_fatal_step :=
  match goal with
  | |- auth_fatal _ (bind _ _) => apply auth_fatal_bind; [|intros ?]
  | |- auth_fatal _ (try_except_Exception _ _) => apply auth_fatal_try; [|intros ?]
  | |- auth_fatal _ (ret _) => apply auth_fatal_ret
  | |- auth_fatal _ (raise _) => apply auth_fatal_raise
  | |- auth_fatal _ (lift _) => apply auth_fatal_lift
  | |- auth_fatal _ (_get _ _) => apply auth_fatal_get
  | |- auth_fatal _ (match ?x with _ => _ end) => destruct x
  | |- auth_fatal _ (if ?b then _ else _) => destruct b
  end.

Lemma auth_fatal_fetch_provider_id_map py_repr w :
  auth_fatal w (fetch_provider_id_map py_repr w).
Proof. unfold fetch_provider_id_map. repeat auth_fatal_step. Qed.

Lemma auth_fatal_fetch_genre_map w : auth_fatal w (fetch_genre_map w).
Proof. unfold fetch_genre_map. repeat auth_fatal_step. Qed.

Lemma auth_fatal_discover_page w page results :
  auth_fatal w (discover_page w page results).
Proof. unfold discover_page. repeat auth_fatal_step. Qed.

Lemma auth_fatal_discover_loop w pages results :
  auth_fatal w (discover_loop w pages results).
Proof.
  revert results. induction pages as [|page rest IH]; intros results;
    cbn [discover_loop].
  - apply auth_fatal_ret.
  - apply auth_fatal_bind.
    + apply auth_fatal_try; [apply auth_fatal_discover_page|].
      intros e. apply auth_fatal_ret.
    + intros r. destruct r.2; [apply IH|apply auth_fatal_ret].
Qed.

Lemma auth_fatal_discover_new_movies w country today since_days pages :
  auth_fatal w (discover_new_movies w country today since_days pages).
Proof.
  unfold discover_new_movies.
  apply auth_fatal_bind; [apply auth_fatal_lift|]. intros delta.
  apply auth_fatal_bind; [apply auth_fatal_lift|]. intros since.
  apply auth_fatal_discover_loop.
Qed.

Lemma auth_fatal_get_watch_providers COUNTRY w :
  auth_fatal w (get_watch_providers COUNTRY w).
Proof. unfold get_watch_providers. repeat auth_fatal_step. Qed.

Lemma auth_fatal_get_imdb_id py_repr w :
  auth_fatal w (get_imdb_id py_repr w).
Proof. unfold get_imdb_id. repeat auth_fatal_step. Qed.

Lemma auth_fatal_process_candidate py_repr COUNTRY w genre_map allowed_ids m :
  auth_fatal w (process_candidate py_repr COUNTRY w genre_map allowed_ids m).
Proof.
  unfold process_candidate.
  apply auth_fatal_bind; [apply auth_fatal_lift|]. intros _.
  apply auth_fatal_bind; [apply auth_fatal_get_watch_providers|]. intros wp.
  destruct (pick_flatrate_providers wp allowed_ids); [apply auth_fatal_ret|].
  apply auth_fatal_bind; [apply auth_fatal_get_imdb_id|]. intros imdb.
  repeat auth_fatal_step.
Qed.

Lemma auth_fatal_collect_movies py_repr COUNTRY w genre_map allowed_ids
    candidates movies :
  auth_fatal w
    (collect_movies py_repr COUNTRY w genre_map allowed_ids candidates movies).
Proof.
  revert movies. induction candidates as [|m rest IH]; intros movies;
    cbn [collect_movies].
  - apply auth_fatal_ret.
  - apply auth_fatal_bind; [apply auth_fatal_process_candidate|].
    intros r. apply IH.
Qed.

Lemma auth_fatal_main py_repr COUNTRY names cap w today days :
  auth_fatal w (main py_repr COUNTRY names cap w today days).
Proof.
  unfold main.
  apply auth_fatal_bind; [apply auth_fatal_fetch_provider_id_map|]. intros maps.
  apply auth_fatal_bind; [apply auth_fatal_fetch_genre_map|]. intros genre_map.
  apply auth_fatal_bind; [apply auth_fatal_discover_new_movies|]. intros cands.
  apply auth_fatal_bind; [apply auth_fatal_collect_movies|]. intros movies.
  apply auth_fatal_lift.
Qed.

Lemma auth_fatal_run_script py_repr COUNTRY names cap w today days :
  auth_fatal w (run_script py_repr COUNTRY names cap w today days).
Proof.
  intros st. unfold issued_by, run_script.
  destruct (auth_fatal_main py_repr COUNTRY names cap w today days st) as [Hle Hm].
  unfold issued_by in Hm.
  destruct (main py_repr COUNTRY names cap w today days st) as [[a|e] st1];
    cbn [fst snd] in *.
  - split; [done|]. intros n Hn Hw. now destruct (Hm n Hn Hw).
  - destruct (is_RequestException e) eqn:E; cbn [fst snd].
    + split; [done|]. intros n Hn Hw.
      destruct (Hm n Hn Hw) as [[= ->] _]. discriminate.
    + split; [done|]. intros n Hn Hw.
      destruct (Hm n Hn Hw) as [[= ->] ->]. done.
Qed.

Lemma auth_fatal_load_movies py_repr COUNTRY w today fuel :
  auth_fatal w (load_movies py_repr COUNTRY w today fuel).
Proof.
  unfold load_movies. apply auth_fatal_try; [|intros e; apply auth_fatal_ret].
  apply auth_fatal_bind; [apply auth_fatal_fetch_provider_id_map|]. intros maps.
  apply auth_fatal_bind; [apply auth_fatal_fetch_genre_map|]. intros genre_map.
  apply auth_fatal_bind; [apply auth_fatal_discover_new_movies|]. intros cands.
  apply auth_fatal_bind; [apply auth_fatal_collect_movies|]. intros movies.
  destruct (group_gui fuel movies); repeat auth_fatal_step.
Qed.

(** The per-movie fetches swallow every [Exception]: what they let through
    is a [SystemExit]. *)
Lemma get_watch_providers_swallows COUNTRY w st e :
  (get_watch_providers COUNTRY w st).1 = Raise e -> is_Exception e = false.
Proof.
  unfold get_watch_providers, try_except_Exception.
  destruct (bind _ _ st) as [[a|e'] st1]; [done|].
  destruct (is_Exception e') eqn:E; cbn; [done|]. now intros [= <-].
Qed.

Lemma get_imdb_id_swallows py_repr w st e :
  (get_imdb_id py_repr w st).1 = Raise e -> is_Exception e = false.
Proof.
  unfold get_imdb_id, try_except_Exception.
  destruct (bind _ _ st) as [[a|e'] st1]; [done|].
  destruct (is_Exception e') eqn:E; cbn; [done|]. now intros [= <-].
Qed.

(** The end-to-end scenario: with Netflix preferred, the run issues five
    requests and yields the one movie under its genre, with a score of
    about 5.49. *)
Example end_to_end_run :
  main Scenario.no_repr "US" {["Netflix"]} 0 Scenario.end_to_end
       Scenario.today 90 st0
  = (Ok (["Action"], [("Action", [Scenario.enriched_movie])]),
     {| issued := 5; slept := [] |}) /\
  exists s, rank_key Scenario.enriched_movie = Ok (Fin s) /\
            ((549 # 100) < s < (550 # 100))%Q.
Proof.
  split; [vm_compute; reflexivity|].
  eexists. split; [vm_compute; reflexivity|]. split; reflexivity.
Qed.

(** C5.  If any request of a run of [main] is answered 401, the run ends
    there with the authentication [SystemExit]: that request is the last
    one issued, and the script's own handler lets the exit through.  The
    same holds of the per-page discovery fetch and of the two per-movie
    fetches, whose handlers catch [Exception] only. *)
Theorem unauthorized_ends_the_run py_repr COUNTRY names cap w today days st n :
  issued_by (main py_repr COUNTRY names cap w today days) st n ->
  answered w n 401 ->
  ((main py_repr COUNTRY names cap w today days st).1
     = Raise (SystemExit AuthFailed) /\
   issued (main py_repr COUNTRY names cap w today days st).2 = S n) /\
  auth_fatal w (run_script py_repr COUNTRY names cap w today days) /\
  auth_fatal w (get_watch_providers COUNTRY w) /\
  auth_fatal w (get_imdb_id py_repr w) /\
  (forall country since_days pages,
     auth_fatal w (discover_new_movies w country today since_days pages)).
Proof.
  intros Hn Hw. split; [now apply auth_fatal_main|].
  split; [apply auth_fatal_run_script|].
  split; [apply auth_fatal_get_watch_providers|].
  split; [apply auth_fatal_get_imdb_id|].
  intros country since_days pages. apply auth_fatal_discover_new_movies.
Qed.

Lemma unauthorized_ends_the_run_witness :
  let run := main Scenario.no_repr "US" ∅ 0 Scenario.unauthorized_at_enrichment
               Scenario.today 90 in
  (issued_by run st0 3 /\ answered Scenario.unauthorized_at_enrichment 3 401) /\
  ((run st0).1 = Raise (SystemExit AuthFailed) /\ issued (run st0).2 = 4%nat) /\
  auth_fatal Scenario.unauthorized_at_enrichment
    (run_script Scenario.no_repr "US" ∅ 0 Scenario.unauthorized_at_enrichment
       Scenario.today 90) /\
  auth_fatal Scenario.unauthorized_at_enrichment
    (get_watch_providers "US" Scenario.unauthorized_at_enrichment) /\
  auth_fatal Scenario.unauthorized_at_enrichment
    (get_imdb_id Scenario.no_repr Scenario.unauthorized_at_enrichment) /\
  (forall country since_days pages,
     auth_fatal Scenario.unauthorized_at_enrichment
       (discover_new_movies Scenario.unauthorized_at_enrichment country
          Scenario.today since_days pages)).
Proof.
  intros run.
  assert (H1 : issued_by run st0 3) by (vm_compute; lia).
  assert (H2 : answered Scenario.unauthorized_at_enrichment 3 401)
    by (eexists; split; reflexivity).
  split; [done|].
  exact (unauthorized_ends_the_run Scenario.no_repr "US" ∅ 0
           Scenario.unauthorized_at_enrichment Scenario.today 90 st0 3 H1 H2).
Defined.

End PipelineFacts.

(** ** The allowed providers *)

Module DirectoryFacts.
Import Directory DirectorySpec.

Lemma odict_set_not_nil {K V} `{EqDecision K} (k : K) (v : V) d :
  odict_set k v d <> [].
Proof. destruct d as [|[k' v'] d]; cbn; [done|]. now destruct (decide (k = k')). Qed.

Lemma odict_set_keys {K V} `{EqDecision K} (k : K) (v : V) d k' :
  k' ∈ odict_keys (odict_set k v d) <-> k' = k \/ k' ∈ odict_keys d.
Proof.
  unfold odict_keys. induction d as [|[k0 v0] d IH]; cbn.
  - rewrite list_elem_of_singleton, elem_of_nil. tauto.
  - destruct (decide (k = k0)) as [->|Hne]; cbn.
    + rewrite !elem_of_cons. tauto.
    + rewrite !elem_of_cons, IH. tauto.
Qed.

Lemma odict_set_values {K V} `{EqDecision K} (k : K) (v : V) d v' :
  v' ∈ odict_values (odict_set k v d) -> v' = v \/ v' ∈ odict_values d.
Proof.
  unfold odict_values. induction d as [|[k0 v0] d IH]; cbn.
  - rewrite list_elem_of_singleton. tauto.
  - destruct (decide (k = k0)) as [->|Hne]; cbn.
    + rewrite !elem_of_cons. tauto.
    + rewrite !elem_of_cons. intros [->|H]; [tauto|]. apply IH in H. tauto.
Qed.

Lemma add_provider_agree py_repr maps p :
  maps_agree maps -> maps_agree (add_provider py_repr maps p).
Proof.
  intros [Hnil Hsub]. unfold add_provider.
  destruct p as [| | | | | |d]; try done.
  destruct (as_int _) as [n|]; [|done].
  destruct (negb _); [|done]. split; cbn [fst snd].
  - split; intros H; by apply odict_set_not_nil in H.
  - intros n' Hn'. apply odict_set_keys.
    apply odict_set_values in Hn' as [->|Hn']; [tauto|]. right. now apply Hsub.
Qed.

Lemma provider_maps_agree py_repr results :
  maps_agree (provider_maps py_repr results).
Proof.
  unfold provider_maps.
  assert (H0 : maps_agree (([], []) : list (string * Z) * list (Z * string))).
  { split; [done|]. intros n Hn. cbn in Hn. now apply elem_of_nil in Hn. }
  revert H0. generalize (([], []) : list (string * Z) * list (Z * string)).
  induction results as [|p rest IH]; intros maps Hm; cbn [foldl]; [done|].
  apply IH. now apply add_provider_agree.
Qed.

Lemma norm_to_pid_None id_map n :
  norm_to_pid id_map !! n = None <-> forall kv, kv ∈ id_map -> _norm kv.1 <> n.
Proof.
  unfold norm_to_pid.
  assert (G : forall (acc : gmap string Z),
            foldl (fun acc kv => <[_norm kv.1 := kv.2]> acc) acc id_map !! n = None
            <-> acc !! n = None /\ forall kv, kv ∈ id_map -> _norm kv.1 <> n).
  { induction id_map as [|kv rest IH]; intros acc; cbn [foldl].
    - split; [intros H; split; [done|]; intros kv Hkv; now apply elem_of_nil in Hkv
             |tauto].
    - rewrite IH. rewrite lookup_insert_None. split.
      + intros [[Hacc Hne] Hrest]. split; [done|].
        intros kv' [->|Hin]%elem_of_cons; [done|now apply Hrest].
      + intros [Hacc Hall]. split; [split; [done|]|].
        * apply Hall. left.
        * intros kv' Hin. apply Hall. now right. }
  rewrite G. rewrite lookup_empty. tauto.
Qed.



Lemma norm_to_pid_Some id_map n pid :
  norm_to_pid id_map !! n = Some pid ->
  exists k, (k, pid) ∈ id_map /\ _norm k = n.
Proof.
  unfold norm_to_pid.
  assert (G : forall (acc : gmap string Z),
            foldl (fun acc kv => <[_norm kv.1 := kv.2]> acc) acc id_map !! n
              = Some pid ->
            acc !! n = Some pid \/ exists k, (k, pid) ∈ id_map /\ _norm k = n).
  { induction id_map as [|[k v] rest IH]; intros acc; cbn [foldl]; [auto|].
    intros H. apply IH in H as [H|(k' & Hin & Hk)].
    - cbn in H. apply lookup_insert_Some in H as [[Hk <-]|[_ H]]; [|auto].
      right. exists k. split; [left|done].
    - right. exists k'. split; [now right|done]. }
  intros H. apply G in H as [H|H]; [|done]. now rewrite lookup_empty in H.
Qed.











End DirectoryFacts.

(** ** Enrichment *)

Module EnrichFacts.
Import Http HttpGet HttpSpec Fetch Enrich EnrichSpec.

Lemma insert_unique_not_nil x l : insert_unique x l <> [].
Proof.
  destruct l as [|y l]; cbn; [done|].
  now destruct (String.compare x y).
Qed.

Lemma sorted_set_nil l : sorted_set l = [] <-> l = [].
Proof.
  split; [|now intros ->]. destruct l as [|x l]; [done|].
  cbn [sorted_set foldr]. intros H. now apply insert_unique_not_nil in H.
Qed.

Lemma pick_item_allowed allowed_ids item name :
  pick_item allowed_ids item = Some name <-> allowed_entry allowed_ids item name.
Proof.
  unfold pick_item, allowed_entry. split.
  - destruct item as [| | | | | |d]; try done.
    destruct (as_int (get_none d "provider_id")) as [pid|] eqn:Ep; [|done].
    destruct (decide (pid ∈ allowed_ids)) as [Hin|]; [|done].
    destruct (get_none d "provider_name") as [| | | |raw| |] eqn:En; try done.
    destruct (String.eqb_spec (strip raw) "") as [|Hne]; cbn [negb]; [done|].
    intros [= <-]. exists d, pid, raw. done.
  - intros (d & pid & raw & -> & Ep & Hin & En & <- & Hne).
    rewrite Ep. destruct (decide (pid ∈ allowed_ids)) as [_|]; [|done].
    rewrite En. now destruct (String.eqb_spec (strip raw) "").
Qed.

Lemma pick_item_outside allowed_ids item :
  outside_entry allowed_ids item -> pick_item allowed_ids item = None.
Proof.
  intros Hout. unfold pick_item.
  destruct item as [| | | | | |d]; try done.
  destruct (as_int (get_none d "provider_id")) as [pid|] eqn:Ep; [|done].
  destruct (decide (pid ∈ allowed_ids)) as [Hin|]; [|done].
  now destruct (Hout d pid eq_refl Ep).
Qed.

Lemma pick_section_items wp allowed_ids section :
  pick_section wp allowed_ids section
  = omap (pick_item allowed_ids) (section_items wp section).
Proof.
  unfold pick_section, section_items.
  now destruct (get_default wp section (VList [])).
Qed.

(** The picked list is empty exactly when no entry is allowed. *)
Lemma picked_nonempty wp allowed_ids :
  pick_flatrate_providers wp allowed_ids <> [] <->
  exists item name, item ∈ provider_entries wp /\
                    allowed_entry allowed_ids item name.
Proof.
  unfold pick_flatrate_providers, provider_entries.
  rewrite sorted_set_nil, !pick_section_items, <- omap_app.
  generalize (section_items wp "flatrate" ++ section_items wp "ads").
  intros items. split.
  - intros Hne. destruct (omap _ items) as [|name rest] eqn:E; [done|].
    assert (name ∈ omap (pick_item allowed_ids) items) as Hin
      by (rewrite E; left).
    apply list_elem_of_omap in Hin as (item & Hitem & Hpick).
    exists item, name. split; [done|]. now apply pick_item_allowed.
  - intros (item & name & Hitem & Hal) E.
    apply pick_item_allowed in Hal.
    assert (name ∈ omap (pick_item allowed_ids) items) as Hin
      by (apply list_elem_of_omap; eauto).
    rewrite E in Hin. now apply elem_of_nil in Hin.
Qed.

Lemma picked_empty_outside wp allowed_ids :
  Forall (outside_entry allowed_ids) (provider_entries wp) ->
  pick_flatrate_providers wp allowed_ids = [].
Proof.
  intros Hall. destruct (pick_flatrate_providers wp allowed_ids) eqn:E; [done|].
  assert (pick_flatrate_providers wp allowed_ids <> []) as Hne by now rewrite E.
  apply picked_nonempty in Hne as (item & name & Hitem & Hal).
  rewrite Forall_forall in Hall. apply Hall in Hitem.
  apply pick_item_allowed in Hal. rewrite (pick_item_outside _ _ Hitem) in Hal.
  done.
Qed.

(** In a turn of the loop over the candidates that completes, the
    candidate yields a movie if and only if its picked provider list is
    not empty. *)
Lemma process_candidate_decided
    py_repr COUNTRY w genre_map allowed_ids m st r st' :
  process_candidate py_repr COUNTRY w genre_map allowed_ids m st = (Ok r, st') ->
  exists wp st1,
    get_watch_providers COUNTRY w st = (Ok wp, st1) /\
    turn_decided allowed_ids (wp, r).
Proof.
  unfold process_candidate, bind, lift, turn_decided. cbn [fst snd].
  destruct (py_getitem m "id") as [pid|e]; [|done].
  destruct (get_watch_providers COUNTRY w st) as [[wp|e] st1]; [|done].
  intros Hrun. exists wp, st1. split; [done|].
  pose proof (picked_nonempty wp allowed_ids) as Hchar.
  pose proof (picked_empty_outside wp allowed_ids) as Hout.
  destruct (pick_flatrate_providers wp allowed_ids) as [|name rest] eqn:Epick.
  - injection Hrun as <- <-.
    assert (Hno : ~ is_Some (None : option movie)) by (intros [? [=]]).
    repeat split; try done; try (intros H; now apply Hno in H).
    intros H. now apply Hchar in H.
  - assert (Hsome : is_Some r /\
              forall mv, r = Some mv -> providers mv = join ", " (name :: rest)).
    { destruct (get_imdb_id py_repr w st1) as [[imdb|e] st2]; [|done].
      destruct m as [| | | | | |d]; try done.
      unfold build_movie in Hrun.
      destruct (build_movie genre_map d (name :: rest) imdb) as [mv|e] eqn:Eb;
        unfold build_movie in Eb; rewrite Eb in Hrun; [|done].
      cbn in Hrun. injection Hrun as <- <-. split; [eauto|].
      intros mv' [= <-].
      destruct (genres_of genre_map d); [|done]. cbn in Eb.
      destruct (py_slice4 _); [|done]. cbn in Eb.
      destruct (py_round1 _); [|done]. cbn in Eb.
      destruct (py_int _); [|done]. cbn in Eb.
      destruct (py_float _); [|done]. cbn in Eb.
      now injection Eb as <-. }
    destruct Hsome as [Hs Hp].
    split; [split; done|]. split; [split; [intros _; now apply Hchar|done]|].
    split; [done|].
    intros Hall. now specialize (Hout Hall).
Qed.

(** C8.  When the loop over the candidates completes, the list of movies
    it returns is the list it started from followed by the movies its
    turns yield, in the order of the candidates, one turn a candidate; and
    the turn of a candidate yields a movie if and only if the picked
    provider list of the candidate is not empty, that is if and only if
    some entry under [flatrate] or [ads] of the region has an id in the
    allowed set and a name that is not empty once stripped; the movie then
    carries the picked names.  A candidate whose entries all have ids
    outside the allowed set yields no movie. *)
Theorem included_iff_provider_picked
    py_repr COUNTRY w genre_map allowed_ids candidates movies st out st' :
  collect_movies py_repr COUNTRY w genre_map allowed_ids candidates movies st
    = (Ok out, st') ->
  exists log,
    turns py_repr COUNTRY w genre_map allowed_ids candidates st log /\
    out = movies ++ yielded log /\
    Forall (turn_decided allowed_ids) log.
Proof.
  revert movies st. induction candidates as [|m rest IH]; intros movies st.
  - cbn. intros [= <- <-]. exists []. split; [constructor|].
    split; [now rewrite app_nil_r|constructor].
  - cbn [collect_movies]. unfold bind at 1.
    destruct (process_candidate py_repr COUNTRY w genre_map allowed_ids m st)
      as [[r|e] st1] eqn:Em; [|done].
    intros Hrest. apply IH in Hrest as (log & Hturns & -> & Hall).
    destruct (process_candidate_decided _ _ _ _ _ _ _ _ _ Em)
      as (wp & st2 & Ewp & Hdec).
    exists ((wp, r) :: log). split; [econstructor; eauto|].
    split; [|now constructor].
    unfold yielded. cbn [omap list_omap snd].
    destruct r as [mv|]; [|done]. now rewrite <- app_assoc.
Qed.

Lemma included_iff_provider_picked_witness :
  let candidates := [VDict Scenario.candidate; VDict Scenario.odd_candidate] in
  let st' := {| issued := 3; slept := [] |} in
  collect_movies Scenario.no_repr "US" Scenario.enrichment Scenario.genre_map
    {[8]} candidates [] st0 = (Ok [Scenario.enriched_movie], st') /\
  exists log,
    turns Scenario.no_repr "US" Scenario.enrichment Scenario.genre_map {[8]}
      candidates st0 log /\
    [Scenario.enriched_movie] = [] ++ yielded log /\
    Forall (turn_decided {[8]}) log.
Proof.
  intros candidates st'.
  assert (H : collect_movies Scenario.no_repr "US" Scenario.enrichment
                Scenario.genre_map {[8]} candidates [] st0
              = (Ok [Scenario.enriched_movie], st')) by (vm_compute; reflexivity).
  split; [exact H|].
  exact (included_iff_provider_picked Scenario.no_repr "US" Scenario.enrichment
           Scenario.genre_map {[8]} candidates [] st0 _ st' H).
Defined.

(** *** The coerced fields *)

Lemma round_half_even_near (x : Q) :
  (x - (1 # 2) <= inject_Z (round_half_even x) <= x + (1 # 2))%Q.
Proof.
  unfold round_half_even.
  pose proof (Qfloor_le x) as Hlo. pose proof (Qlt_floor x) as Hhi.
  rewrite inject_Z_plus in Hhi. change (inject_Z 1) with 1%Q in Hhi.
  destruct (Qcompare_spec (x - inject_Z (Qfloor x)) (1 # 2)) as [E|E|E].
  - destruct (Z.even (Qfloor x)); rewrite ?inject_Z_plus;
      change (inject_Z 1) with 1%Q; split; lra.
  - split; lra.
  - rewrite inject_Z_plus. change (inject_Z 1) with 1%Q. split; lra.
Qed.

Lemma py_round1_float q :
  exists r, py_round1 (VFloat (Fin q)) = Ok (VFloat (Fin r)) /\
            one_decimal r /\ (q - (1 # 20) <= r <= q + (1 # 20))%Q.
Proof.
  eexists. split; [reflexivity|].
  pose proof (round_half_even_near (q * 10)) as Hn.
  set (n := round_half_even (q * 10)) in *. split.
  - exists n. field.
  - split.
    + apply Qle_shift_div_l; [reflexivity|]. lra.
    + apply Qle_shift_div_r; [reflexivity|]. lra.
Qed.

Lemma get_default_missing (d : list (string * pyval)) k dflt :
  odict_get k d = None -> get_default d k dflt = dflt.
Proof. unfold get_default. now intros ->. Qed.

Lemma get_default_present (d : list (string * pyval)) k dflt v :
  odict_get k d = Some v -> get_default d k dflt = v.
Proof. unfold get_default. now intros ->. Qed.

(** C3, as amended.  For a candidate accepted into the output: the year
    is the first 4 characters of the release-date string, and the empty
    string when the field is missing or null; the rating is the
    [vote_average] rounded to one decimal when it is a float, and 0.0 when
    the field is missing; the vote count is the [vote_count] integer as
    it is, sign included, and 0 when the field is missing or null; the
    popularity is the [popularity] float as it is, sign included, and 0.0
    when the field is missing or null. *)
Theorem build_movie_fields genre_map (m : list (string * pyval)) picked imdb mv :
  build_movie genre_map m picked imdb = Ok mv ->
  ((forall s, get_none m "release_date" = VStr s ->
              year mv = VStr (string_take 4 s)) /\
   (get_none m "release_date" = VNone -> year mv = VStr "")) /\
  ((odict_get "vote_average" m = None ->
    exists r, rating mv = VFloat (Fin r) /\ (r == 0)%Q) /\
   (forall q, odict_get "vote_average" m = Some (VFloat (Fin q)) ->
              exists r, rating mv = VFloat (Fin r) /\ one_decimal r /\
                        (q - (1 # 20) <= r <= q + (1 # 20))%Q)) /\
  ((get_none m "vote_count" = VNone -> votes mv = 0) /\
   (forall z, odict_get "vote_count" m = Some (VInt z) -> votes mv = z)) /\
  ((get_none m "popularity" = VNone -> popularity mv = Fin 0) /\
   (forall q, odict_get "popularity" m = Some (VFloat (Fin q)) ->
              exists p, popularity mv = Fin p /\ (p == q)%Q)).
Proof.
  unfold build_movie. intros Hb.
  destruct (genres_of genre_map m) as [gs|]; [|done]. cbn in Hb.
  destruct (py_slice4 _) as [y|] eqn:Ey; [|done]. cbn in Hb.
  destruct (py_round1 _) as [r|] eqn:Er; [|done]. cbn in Hb.
  destruct (py_int _) as [v|] eqn:Ev; [|done]. cbn in Hb.
  destruct (py_float _) as [p|] eqn:Ep; [|done]. cbn in Hb.
  injection Hb as <-. cbn [year rating votes popularity].
  repeat split.
  - intros s Hs. rewrite Hs in Ey. unfold py_or in Ey. cbn [truthy] in Ey.
    destruct (String.eqb_spec s "") as [E|_]; [subst s|]; cbn in *; congruence.
  - intros Hs. rewrite Hs in Ey. cbn in Ey. congruence.
  - intros Hm. rewrite (get_default_missing _ _ _ Hm) in Er. cbn in Er.
    injection Er as <-. eexists. split; [reflexivity|]. vm_compute. reflexivity.
  - intros q Hq. rewrite (get_default_present _ _ _ _ Hq) in Er.
    destruct (py_round1_float q) as (r' & Er' & Hr'). exists r'.
    split; [congruence|done].
  - intros Hm. unfold get_none, get_default in Hm.
    unfold get_default in Ev.
    destruct (odict_get "vote_count" m) as [x|]; cbn in Hm, Ev.
    + subst x. cbn in Ev. congruence.
    + cbn in Ev. congruence.
  - intros z Hz. rewrite (get_default_present _ _ _ _ Hz) in Ev.
    unfold py_or in Ev. cbn [truthy] in Ev.
    destruct (Z.eqb_spec z 0) as [E|_]; [subst z|]; cbn in Ev; congruence.
  - intros Hm. unfold get_none, get_default in Hm.
    unfold get_default in Ep.
    destruct (odict_get "popularity" m) as [x|]; cbn in Hm, Ep.
    + subst x. cbn in Ep. now injection Ep as <-.
    + cbn in Ep. now injection Ep as <-.
  - intros q Hq. rewrite (get_default_present _ _ _ _ Hq) in Ep.
    unfold py_or in Ep. cbn [truthy] in Ep.
    destruct (Qeq_bool q 0) eqn:E0; cbn in Ep; injection Ep as <-.
    + exists 0%Q. split; [done|]. apply Qeq_bool_iff in E0. now symmetry.
    + exists q. split; [done|reflexivity].
Qed.

Lemma build_movie_fields_witness :
  let m := Scenario.candidate in
  let mv := Scenario.enriched_movie in
  build_movie Scenario.genre_map m ["Netflix"] (Some "tt0133093") = Ok mv /\
  ((forall s, get_none m "release_date" = VStr s ->
              year mv = VStr (string_take 4 s)) /\
   (get_none m "release_date" = VNone -> year mv = VStr "")) /\
  ((odict_get "vote_average" m = None ->
    exists r, rating mv = VFloat (Fin r) /\ (r == 0)%Q) /\
   (forall q, odict_get "vote_average" m = Some (VFloat (Fin q)) ->
              exists r, rating mv = VFloat (Fin r) /\ one_decimal r /\
                        (q - (1 # 20) <= r <= q + (1 # 20))%Q)) /\
  ((get_none m "vote_count" = VNone -> votes mv = 0) /\
   (forall z, odict_get "vote_count" m = Some (VInt z) -> votes mv = z)) /\
  ((get_none m "popularity" = VNone -> popularity mv = Fin 0) /\
   (forall q, odict_get "popularity" m = Some (VFloat (Fin q)) ->
              exists p, popularity mv = Fin p /\ (p == q)%Q)).
Proof.
  intros m mv.
  assert (H : build_movie Scenario.genre_map m ["Netflix"] (Some "tt0133093")
              = Ok mv) by (vm_compute; reflexivity).
  split; [exact H|].
  exact (build_movie_fields Scenario.genre_map m ["Netflix"]
           (Some "tt0133093") mv H).
Defined.

(** C3, as stated, fails: a candidate with a negative vote count and a
    negative popularity is accepted into the output with both kept
    negative. *)
Lemma negative_counts_are_kept :
  (process_candidate Scenario.no_repr "US" Scenario.enrichment
     Scenario.genre_map {[8]} (VDict Scenario.odd_candidate) st0).1
  = Ok (Some Scenario.odd_movie) /\
  votes Scenario.odd_movie = -5 /\
  popularity Scenario.odd_movie = Fin (-3 # 2).
Proof. split; [vm_compute; reflexivity|]. split; reflexivity. Qed.

(** A [vote_average] that is JSON [null] is not defaulted: [round] raises
    and the run stops. *)
Lemma null_rating_raises :
  (process_candidate Scenario.no_repr "US" Scenario.enrichment
     Scenario.genre_map {[8]} (VDict Scenario.unrated_candidate) st0).1
  = Raise TypeError.
Proof. vm_compute. reflexivity. Qed.

End EnrichFacts.

(** ** Grouping *)

Module GroupFacts.
Import Enrich Group GroupSpec GroupMoreSpec.

(** *** Dictionaries *)

Lemma odict_get_set {K V} `{EqDecision K} (k k' : K) (v : V) d :
  odict_get k (odict_set k' v d) = if decide (k = k') then Some v else odict_get k d.
Proof.
  induction d as [|[k0 v0] d IH]; cbn.
  - now destruct (decide (k = k')).
  - destruct (decide (k' = k0)) as [->|Hne]; cbn.
    + now destruct (decide (k = k0)).
    + rewrite IH. destruct (decide (k = k0)) as [->|]; [|done].
      destruct (decide (k0 = k')); [congruence|done].
Qed.

Lemma odict_set_keys_present {K V} `{EqDecision K} (k : K) (v v0 : V) d :
  odict_get k d = Some v0 -> odict_keys (odict_set k v d) = odict_keys d.
Proof.
  unfold odict_keys. induction d as [|[k1 v1] d IH]; cbn; [done|].
  destruct (decide (k = k1)) as [->|Hne]; cbn; [done|].
  intros H. now rewrite IH.
Qed.

Lemma odict_get_Some_key {K V} `{EqDecision K} (k : K) (d : list (K * V)) :
  is_Some (odict_get k d) <-> k ∈ odict_keys d.
Proof.
  unfold odict_keys. induction d as [|[k1 v1] d IH]; cbn.
  - split; [intros [? [=]]|intros H; now apply elem_of_nil in H].
  - rewrite elem_of_cons. destruct (decide (k = k1)) as [->|Hne].
    + split; eauto.
    + rewrite IH. tauto.
Qed.

Lemma in_bucket_bucket_of d g mv : in_bucket d g mv <-> mv ∈ bucket_of d g.
Proof.
  unfold in_bucket, bucket_of. destruct (odict_get g d) as [b|]; cbn.
  - split; [intros (b' & [= <-] & H); done|eauto].
  - split; [intros (b' & [=] & _)|intros H; now apply elem_of_nil in H].
Qed.

(** *** Filling the buckets *)

Lemma elem_of_hits_in gs g mv mv' : mv' ∈ hits_in gs g mv <-> mv' = mv /\ g ∈ gs.
Proof.
  unfold hits_in. rewrite list_elem_of_In, in_flat_map. split.
  - intros (g' & Hg' & Hin). destruct (decide (g' = g)) as [->|]; [|done].
    apply list_elem_of_In in Hg'. destruct Hin as [<-|[]]. done.
  - intros [-> Hg]. exists g. split; [now apply list_elem_of_In|].
    destruct (decide (g = g)); [now left|done].
Qed.

Lemma hits_in_nil gs g mv : g ∉ gs -> hits_in gs g mv = [].
Proof.
  intros Hg. destruct (hits_in gs g mv) as [|x l] eqn:E; [done|].
  assert (x ∈ hits_in gs g mv) as H by (rewrite E; left).
  apply elem_of_hits_in in H as [_ H]. done.
Qed.

Lemma bucket_append_get g' g mv d :
  odict_get g' (bucket_append g mv d)
  = if decide (g' = g) then Some (bucket_of d g ++ [mv]) else odict_get g' d.
Proof.
  unfold bucket_append, bucket_of.
  destruct (odict_get g d) as [b|] eqn:E; rewrite odict_get_set;
    now destruct (decide (g' = g)).
Qed.

(** After the inner loop over the genres [gs] of [mv]: the bucket of a
    genre among [gs] has gained its copies of [mv], the others are
    untouched. *)
Lemma fill_genres_get gs g mv d :
  odict_get g (foldl (fun d g' => bucket_append g' mv d) d gs)
  = if decide (g ∈ gs) then Some (bucket_of d g ++ hits_in gs g mv)
    else odict_get g d.
Proof.
  revert d. induction gs as [|g0 gs IH]; intros d; cbn [foldl].
  - destruct (decide (g ∈ [])) as [H|]; [now apply elem_of_nil in H|done].
  - rewrite IH. rewrite bucket_append_get.
    assert (Hb : bucket_of (bucket_append g0 mv d) g
                 = if decide (g = g0) then bucket_of d g0 ++ [mv]
                   else bucket_of d g).
    { unfold bucket_of at 1. rewrite bucket_append_get.
      now destruct (decide (g = g0)). }
    rewrite Hb. clear Hb.
    unfold hits_in. cbn [flat_map]. fold (hits_in gs g mv).
    destruct (decide (g = g0)) as [->|Hne].
    + destruct (decide (g0 = g0)) as [_|]; [|done].
      destruct (decide (g0 ∈ g0 :: gs)) as [_|Hn]; [|exfalso; apply Hn; left].
      destruct (decide (g0 ∈ gs)) as [Hin|Hnin].
      * now rewrite <- app_assoc.
      * rewrite (hits_in_nil gs g0 mv Hnin). now rewrite app_nil_r.
    + destruct (decide (g0 = g)) as [|_]; [congruence|]. cbn [app].
      destruct (decide (g ∈ gs)) as [Hin|Hnin].
      * destruct (decide (g ∈ g0 :: gs)) as [_|Hn]; [done|].
        exfalso. apply Hn. now right.
      * destruct (decide (g ∈ g0 :: gs)) as [Hin'|_]; [|done].
        apply elem_of_cons in Hin' as [|]; done.
Qed.

Lemma add_to_genres_get g mv d :
  odict_get g (add_to_genres d mv)
  = if decide (g ∈ genres mv) then Some (bucket_of d g ++ hits g mv)
    else odict_get g d.
Proof. apply fill_genres_get. Qed.

Lemma add_to_genres_bucket g mv d :
  bucket_of (add_to_genres d mv) g = bucket_of d g ++ hits g mv.
Proof.
  unfold bucket_of at 1. rewrite add_to_genres_get.
  destruct (decide (g ∈ genres mv)) as [|Hn]; [done|].
  unfold hits. rewrite (hits_in_nil _ _ _ Hn). now rewrite app_nil_r.
Qed.

Lemma add_to_genres_key g mv d :
  is_Some (odict_get g (add_to_genres d mv))
  <-> is_Some (odict_get g d) \/ g ∈ genres mv.
Proof.
  rewrite add_to_genres_get. destruct (decide (g ∈ genres mv)); [|tauto].
  split; eauto.
Qed.

Lemma by_genre_of_from d movies g :
  bucket_of (foldl add_to_genres d movies) g
  = bucket_of d g ++ flat_map (hits g) movies.
Proof.
  revert d. induction movies as [|mv rest IH]; intros d; cbn [foldl flat_map].
  - now rewrite app_nil_r.
  - rewrite IH, add_to_genres_bucket. now rewrite <- app_assoc.
Qed.

Lemma by_genre_of_key_from d movies g :
  is_Some (odict_get g (foldl add_to_genres d movies))
  <-> is_Some (odict_get g d) \/ exists mv, mv ∈ movies /\ g ∈ genres mv.
Proof.
  revert d. induction movies as [|mv rest IH]; intros d; cbn [foldl].
  - split; [tauto|]. intros [|(mv & H & _)]; [done|]. now apply elem_of_nil in H.
  - rewrite IH, add_to_genres_key. split.
    + intros [[|]|(mv' & Hin & Hg)]; [tauto| |].
      * right. exists mv. split; [left|done].
      * right. exists mv'. split; [now right|done].
    + intros [|(mv' & Hin & Hg)]; [tauto|].
      apply elem_of_cons in Hin as [->|Hin]; [tauto|]. right. eauto.
Qed.

Lemma elem_of_flat_map_hits g movies mv :
  mv ∈ flat_map (hits g) movies <-> mv ∈ movies /\ g ∈ genres mv.
Proof.
  rewrite list_elem_of_In, in_flat_map. split.
  - intros (mv' & Hin & Hh). apply list_elem_of_In in Hin, Hh.
    apply elem_of_hits_in in Hh as [-> Hg]. done.
  - intros [Hin Hg]. exists mv. split; [now apply list_elem_of_In|].
    apply list_elem_of_In, elem_of_hits_in. done.
Qed.

(** *** Sorting *)

Lemma insert_sorted_perm {A} (before : A -> A -> bool) x l :
  Permutation (insert_sorted before x l) (x :: l).
Proof.
  induction l as [|y l IH]; cbn; [done|].
  destruct (before y x); [|done]. rewrite IH. apply perm_swap.
Qed.

Lemma stable_sort_perm {A} (before : A -> A -> bool) l :
  Permutation (stable_sort before l) l.
Proof.
  induction l as [|x l IH]; cbn; [done|].
  rewrite insert_sorted_perm. now rewrite IH.
Qed.

Lemma rank_key_rankable mv : rankable mv -> exists k, rank_key mv = Ok k.
Proof.
  intros Hr. unfold rank_key.
  destruct (RankFacts.py_float_or_none _ Hr) as [fa Efa].
  destruct (RankFacts.rank_score_eq (rating mv) (VInt (votes mv))
              (VFloat (popularity mv)) fa (popularity mv) Efa eq_refl)
    as (r & n & _ & _ & _ & E).
  eauto.
Qed.

Lemma keyed_movies l keyed :
  mapM (fun mv => k ← rank_key mv; Ok (k, mv)) l = Ok keyed -> keyed.*2 = l.
Proof.
  revert keyed. induction l as [|mv l IH]; intros keyed; cbn.
  - now intros [= <-].
  - destruct (rank_key mv) as [k|]; [|done]. cbn.
    destruct (mapM _ l) as [rest|]; [|done]. cbn. intros [= <-]. cbn.
    now rewrite (IH rest).
Qed.

Lemma sort_by_rank_perm l l' : sort_by_rank l = Ok l' -> Permutation l l'.
Proof.
  unfold sort_by_rank.
  destruct (mapM _ l) as [keyed|] eqn:E; [|done]. cbn. intros [= <-].
  apply keyed_movies in E. rewrite <- E at 1.
  apply fmap_Permutation. symmetry. apply stable_sort_perm.
Qed.

Lemma sort_by_rank_total l :
  Forall rankable l -> exists l', sort_by_rank l = Ok l'.
Proof.
  intros Hl. unfold sort_by_rank.
  assert (exists keyed, mapM (fun mv => k ← rank_key mv; Ok (k, mv)) l = Ok keyed)
    as [keyed ->].
  { induction Hl as [|mv l Hmv Hl [rest IH]]; cbn; [eauto|].
    destruct (rank_key_rankable mv Hmv) as [k ->]. cbn. rewrite IH. cbn. eauto. }
  cbn. eauto.
Qed.

(** *** Rearranged dictionaries *)

Lemma rearranged_refl d : rearranged d d.
Proof. unfold rearranged. induction d; constructor; auto. Qed.

Lemma rearranged_trans d1 d2 d3 :
  rearranged d1 d2 -> rearranged d2 d3 -> rearranged d1 d3.
Proof.
  unfold rearranged. intros H12. revert d3.
  induction H12 as [|kb1 kb2 d1 d2 [Hk Hp] _ IH]; intros d3 H23.
  - inversion H23. constructor.
  - inversion H23 as [|? kb3 ? d3' [Hk' Hp'] H23']; subst.
    constructor; [|now apply IH]. split; [congruence|].
    now rewrite Hp.
Qed.

Lemma rearranged_get d d' g :
  rearranged d d' ->
  match odict_get g d, odict_get g d' with
  | Some b, Some b' => Permutation b b'
  | None, None => True
  | _, _ => False
  end.
Proof.
  induction 1 as [|[k b] [k' b'] d d' [Hk Hp] _ IH]; cbn in *; [done|].
  subst k'. now destruct (decide (g = k)).
Qed.

Lemma rearranged_bucket_of d d' g :
  rearranged d d' -> Permutation (bucket_of d g) (bucket_of d' g).
Proof.
  intros H. pose proof (rearranged_get d d' g H) as Hg. unfold bucket_of.
  destruct (odict_get g d), (odict_get g d'); done.
Qed.

Lemma rearranged_set d g b b' :
  odict_get g d = Some b -> Permutation b b' ->
  rearranged d (odict_set g b' d).
Proof.
  unfold rearranged. induction d as [|[k v] d IH]; cbn; [done|].
  destruct (decide (g = k)) as [->|Hne].
  - intros [= ->] Hp. constructor; [done|]. apply rearranged_refl.
  - intros Hg Hp. constructor; [done|]. now apply IH.
Qed.

Lemma rearranged_in_bucket d d' g mv :
  rearranged d d' -> in_bucket d' g mv <-> in_bucket d g mv.
Proof.
  intros H. rewrite !in_bucket_bucket_of.
  now rewrite (rearranged_bucket_of d d' g H).
Qed.

Lemma buckets_hold_get P d g b :
  buckets_hold P d -> odict_get g d = Some b -> Forall P b.
Proof.
  unfold buckets_hold. induction 1 as [|[k v] d Hv _ IH]; cbn; [done|].
  destruct (decide (g = k)); [now intros [= <-]|done].
Qed.

Lemma buckets_hold_set P d g b :
  buckets_hold P d -> Forall P b -> buckets_hold P (odict_set g b d).
Proof.
  unfold buckets_hold. intros Hd Hb.
  induction Hd as [|[k v] d Hv Hd IH]; cbn.
  - constructor; [done|constructor].
  - destruct (decide (g = k)); constructor; done.
Qed.

Lemma buckets_hold_rearranged P d d' :
  rearranged d d' -> buckets_hold P d -> buckets_hold P d'.
Proof.
  unfold buckets_hold. induction 1 as [|kb kb' d d' [_ Hp] _ IH]; [done|].
  intros Hd. inversion Hd; subst. constructor; [|auto].
  now rewrite <- Hp.
Qed.

Lemma buckets_hold_add P d mv :
  buckets_hold P d -> P mv -> buckets_hold P (add_to_genres d mv).
Proof.
  unfold add_to_genres. generalize (genres mv). intros gs. revert d.
  induction gs as [|g gs IH]; intros d Hd Hmv; cbn [foldl]; [done|].
  apply IH; [|done]. unfold bucket_append.
  destruct (odict_get g d) as [b|] eqn:E; apply buckets_hold_set; try done.
  - apply Forall_app. split; [now apply (buckets_hold_get P d g)|].
    now constructor.
  - now constructor.
Qed.

(** *** The grouped result of [main] *)

Lemma by_genre_of_hold P movies :
  Forall P movies -> buckets_hold P (by_genre_of movies).
Proof.
  unfold by_genre_of.
  assert (H0 : buckets_hold P []) by constructor. revert H0.
  generalize ([] : list (string * list movie)).
  intros d Hd Hm. revert d Hd.
  induction Hm as [|mv movies Hmv Hm IH]; intros d Hd; cbn [foldl]; [done|].
  apply IH. now apply buckets_hold_add.
Qed.

Lemma sort_and_cap_all_uncapped cap names d :
  cap <= 0 -> (forall g, g ∈ names -> is_Some (odict_get g d)) ->
  buckets_hold rankable d ->
  exists d', sort_and_cap_all cap names d = Ok d' /\ rearranged d d'.
Proof.
  intros Hcap. revert d.
  induction names as [|g names IH]; intros d Hkeys Hd; cbn [sort_and_cap_all].
  - exists d. split; [done|apply rearranged_refl].
  - destruct (Hkeys g) as [b Eb]; [left|].
    destruct (sort_by_rank_total b) as [sorted Es];
      [now apply (buckets_hold_get rankable d g)|].
    pose proof (sort_by_rank_perm b sorted Es) as Hp.
    pose proof (rearranged_set d g b sorted Eb Hp) as Hr.
    unfold sort_and_cap. rewrite Eb. cbn. rewrite Es. cbn.
    destruct (Z.ltb_spec 0 cap) as [|_]; [lia|].
    destruct (IH (odict_set g sorted d)) as (d' & Ed' & Hr').
    + intros g' Hg'. pose proof (rearranged_get _ _ g' Hr) as Hget.
      destruct (Hkeys g') as [b' Eb']; [now right|]. rewrite Eb' in Hget.
      destruct (odict_get g' (odict_set g sorted d)); [eauto|done].
    + now apply (buckets_hold_rearranged rankable d).
    + exists d'. split; [done|]. now apply (rearranged_trans _ _ _ Hr).
Qed.

Lemma group_main_uncapped cap movies :
  cap <= 0 -> Forall rankable movies ->
  exists names d,
    group_main cap movies = Ok (names, d) /\
    (forall g, g ∈ names <-> exists mv, mv ∈ movies /\ g ∈ genres mv) /\
    (forall g, is_Some (odict_get g d) <-> g ∈ names) /\
    (forall g mv, in_bucket d g mv <-> mv ∈ movies /\ g ∈ genres mv).
Proof.
  intros Hcap Hrank. unfold group_main.
  set (d0 := by_genre_of movies).
  set (names := genre_names_sorted d0).
  assert (Hnames : forall g, g ∈ names <-> is_Some (odict_get g d0)).
  { intros g. unfold names, genre_names_sorted.
    rewrite stable_sort_perm. symmetry. apply odict_get_Some_key. }
  assert (Hkeys : forall g, is_Some (odict_get g d0)
                            <-> exists mv, mv ∈ movies /\ g ∈ genres mv).
  { intros g. unfold d0, by_genre_of. rewrite by_genre_of_key_from. cbn.
    split; [intros [[? [=]]|]; done|eauto]. }
  destruct (sort_and_cap_all_uncapped cap names d0 Hcap) as (d & Ed & Hr).
  { intros g. apply Hnames. }
  { now apply by_genre_of_hold. }
  exists names, d. rewrite Ed. cbn. split; [done|].
  split; [intros g; now rewrite Hnames, Hkeys|]. split.
  - intros g. rewrite Hnames. pose proof (rearranged_get _ _ g Hr) as Hg.
    destruct (odict_get g d0), (odict_get g d); try done;
      split; intros [? [=]]; eauto.
  - intros g mv. rewrite (rearranged_in_bucket d0 d g mv Hr).
    rewrite in_bucket_bucket_of. unfold d0, by_genre_of.
    rewrite by_genre_of_from. cbn. apply elem_of_flat_map_hits.
Qed.

(** *** The grouped result of [load_movies] *)

Lemma add_to_genres_keeps_All d mv :
  "All" ∉ genres mv -> odict_get "All" (add_to_genres d mv) = odict_get "All" d.
Proof.
  intros H. rewrite add_to_genres_get.
  now destruct (decide ("All" ∈ genres mv)).
Qed.

Lemma fill_buckets_spec P movies :
  no_genre_named_All movies ->
  forall n fuel i d,
    length movies = (i + n)%nat -> (n < fuel)%nat ->
    odict_get "All" d = Some movies ->
    exists d',
      fill_buckets fuel i d = Some d' /\
      odict_get "All" d' = Some movies /\
      (forall g, bucket_of d' g
                 = bucket_of d g ++ flat_map (hits g) (drop i movies)) /\
      (buckets_hold P d -> Forall P movies -> buckets_hold P d').
Proof.
  intros HnoAll. induction n as [|n IH]; intros fuel i d Hlen Hfuel HAll.
  - destruct fuel as [|fuel]; [lia|]. cbn [fill_buckets]. rewrite HAll. cbn.
    rewrite (lookup_ge_None_2 movies i) by lia.
    exists d. split; [done|]. split; [done|]. split; [|done].
    intros g. rewrite drop_ge by lia. cbn. now rewrite app_nil_r.
  - destruct fuel as [|fuel]; [lia|]. cbn [fill_buckets]. rewrite HAll. cbn.
    destruct (lookup_lt_is_Some_2 movies i) as [mv Emv]; [lia|]. rewrite Emv.
    assert (Hmv : "All" ∉ genres mv).
    { unfold no_genre_named_All in HnoAll. rewrite Forall_forall in HnoAll.
      apply HnoAll. now apply list_elem_of_lookup_2 in Emv. }
    destruct (IH fuel (S i) (add_to_genres d mv)) as (d' & E & HA & Hb & Hh);
      [lia|lia|now rewrite add_to_genres_keeps_All|].
    exists d'. split; [done|]. split; [done|]. split.
    + intros g. rewrite Hb, add_to_genres_bucket.
      rewrite (drop_S movies mv i Emv). cbn [flat_map].
      now rewrite <- app_assoc.
    + intros Hd Hm. apply Hh; [|done]. apply buckets_hold_add; [done|].
      rewrite Forall_forall in Hm. apply Hm.
      now apply list_elem_of_lookup_2 in Emv.
Qed.

Lemma sort_buckets_spec d :
  buckets_hold rankable d ->
  exists d', sort_buckets d = Ok d' /\ rearranged d d'.
Proof.
  unfold buckets_hold, rearranged.
  induction 1 as [|[g b] d Hb _ (d' & Ed & Hr)]; cbn [sort_buckets].
  - exists []. split; [done|constructor].
  - destruct (sort_by_rank_total b Hb) as [sorted Es]. rewrite Es. cbn.
    rewrite Ed. cbn. exists ((g, sorted) :: d'). split; [done|].
    constructor; [|done]. split; [done|]. now apply sort_by_rank_perm.
Qed.

Lemma group_gui_spec fuel movies :
  Forall rankable movies -> no_genre_named_All movies ->
  (length movies < fuel)%nat ->
  exists d all,
    group_gui fuel movies = Some (Ok d) /\
    odict_get "All" d = Some all /\ Permutation movies all /\
    (forall g mv, g <> "All" ->
       in_bucket d g mv <-> mv ∈ movies /\ g ∈ genres mv).
Proof.
  intros Hrank HnoAll Hfuel. unfold group_gui.
  destruct (fill_buckets_spec rankable movies HnoAll (length movies) fuel 0
              [("All", movies)]) as (d1 & E1 & HA & Hb & Hh);
    [lia|done|done|].
  rewrite E1. cbn [fmap option_fmap option_map].
  destruct (sort_buckets_spec d1) as (d & Ed & Hr).
  { apply Hh; [|done]. constructor; [done|constructor]. }
  pose proof (rearranged_get _ _ "All" Hr) as HgA. rewrite HA in HgA.
  destruct (odict_get "All" d) as [all|] eqn:EA; [|done].
  exists d, all. rewrite Ed. split; [done|]. split; [done|]. split; [done|].
  intros g mv Hg. rewrite (rearranged_in_bucket d1 d g mv Hr).
  rewrite in_bucket_bucket_of, Hb. unfold bucket_of at 1. cbn.
  destruct (decide (g = "All")); [done|]. cbn. rewrite drop_0.
  apply elem_of_flat_map_hits.
Qed.

(** A movie with a genre named ["All"] is appended to the very list the
    loop walks: the loop never reaches the end of it. *)
Lemma fill_buckets_diverges fuel :
  forall i d all j mv,
    odict_get "All" d = Some all -> (i <= j)%nat ->
    all !! j = Some mv -> "All" ∈ genres mv ->
    fill_buckets fuel i d = None.
Proof.
  induction fuel as [|fuel IH]; intros i d all j mv HAll Hij Hj Hbad; [done|].
  cbn [fill_buckets]. rewrite HAll. cbn.
  pose proof (lookup_lt_Some _ _ _ Hj) as Hlt.
  destruct (lookup_lt_is_Some_2 all i) as [mvi Ei]; [lia|]. rewrite Ei.
  assert (HAll' : odict_get "All" (add_to_genres d mvi)
                  = Some (all ++ hits "All" mvi)).
  { pose proof (add_to_genres_bucket "All" mvi d) as Hb.
    unfold bucket_of in Hb. rewrite HAll in Hb. cbn in Hb.
    destruct (odict_get "All" (add_to_genres d mvi)) as [b|] eqn:E.
    - cbn in Hb. now rewrite Hb.
    - assert (is_Some (odict_get "All" (add_to_genres d mvi))) as [? ?]
        by (apply add_to_genres_key; left; rewrite HAll; eauto).
      congruence. }
  destruct (decide (i = j)) as [->|Hne].
  - assert (mvi = mv) as -> by congruence.
    destruct (hits "All" mv) as [|x rest] eqn:Eh.
    + assert (mv ∈ hits "All" mv) as Hin by (apply elem_of_hits_in; done).
      rewrite Eh in Hin. now apply elem_of_nil in Hin.
    + assert (x ∈ hits "All" mv) as Hin by (rewrite Eh; left).
      apply elem_of_hits_in in Hin as [-> _].
      apply (IH (S j) _ (all ++ mv :: rest) (length all) mv);
        [done|lia| |done].
      rewrite lookup_app_r by lia. now rewrite Nat.sub_diag.
  - apply (IH (S i) _ (all ++ hits "All" mvi) j mv); [done|lia| |done].
    now rewrite lookup_app_l.
Qed.

(** *** The cap of [main] *)

Lemma elem_of_odict_set_keys {V} (k k0 : string) (v : V) d :
  k0 ∈ odict_keys (odict_set k v d) <-> k0 = k \/ k0 ∈ odict_keys d.
Proof.
  rewrite <- !odict_get_Some_key, odict_get_set.
  destruct (decide (k0 = k)) as [->|Hne]; [split; eauto|].
  split; [tauto|]. now intros [|].
Qed.

Lemma odict_set_keys_NoDup {V} (k : string) (v : V) d :
  NoDup (odict_keys d) -> NoDup (odict_keys (odict_set k v d)).
Proof.
  induction d as [|[k1 v1] d IH]; cbn.
  - intros _. apply NoDup_singleton.
  - intros Hnd. apply NoDup_cons in Hnd as [Hk1 Hnd].
    destruct (decide (k = k1)) as [->|Hne]; cbn.
    + now apply NoDup_cons.
    + apply NoDup_cons. split; [|now apply IH].
      change (k1 ∉ odict_keys (odict_set k v d)).
      rewrite elem_of_odict_set_keys. intros [|]; [congruence|done].
Qed.

Lemma add_to_genres_NoDup d mv :
  NoDup (odict_keys d) -> NoDup (odict_keys (add_to_genres d mv)).
Proof.
  unfold add_to_genres. generalize (genres mv). intros gs. revert d.
  induction gs as [|g gs IH]; intros d Hd; cbn [foldl]; [done|].
  apply IH. unfold bucket_append.
  destruct (odict_get g d); now apply odict_set_keys_NoDup.
Qed.

Lemma by_genre_of_NoDup movies : NoDup (odict_keys (by_genre_of movies)).
Proof.
  unfold by_genre_of.
  assert (H0 : NoDup (odict_keys ([] : list (string * list movie))))
    by apply NoDup_nil_2.
  revert H0. generalize ([] : list (string * list movie)).
  induction movies as [|mv movies IH]; intros d Hd; cbn [foldl]; [done|].
  apply IH. now apply add_to_genres_NoDup.
Qed.

Lemma by_genre_of_keys movies g :
  g ∈ odict_keys (by_genre_of movies) <-> exists mv, mv ∈ movies /\ g ∈ genres mv.
Proof.
  rewrite <- odict_get_Some_key. unfold by_genre_of.
  rewrite by_genre_of_key_from. cbn.
  split; [intros [[? [=]]|]; done|eauto].
Qed.

Lemma by_genre_of_bucket movies g b :
  odict_get g (by_genre_of movies) = Some b -> b = of_genre g movies.
Proof.
  intros E. pose proof (by_genre_of_from [] movies g) as H.
  unfold bucket_of in H. fold (by_genre_of movies) in H.
  rewrite E in H. exact H.
Qed.

Lemma sort_and_cap_get cap g d d1 :
  sort_and_cap cap g d = Ok d1 ->
  exists b sorted,
    odict_get g d = Some b /\ sort_by_rank b = Ok sorted /\
    forall g', odict_get g' d1
               = if decide (g' = g) then Some (kept cap sorted) else odict_get g' d.
Proof.
  unfold sort_and_cap. destruct (odict_get g d) as [b|] eqn:Eb; [|done].
  destruct (sort_by_rank b) as [sorted|] eqn:Es; [|done]. cbn.
  intros [= <-]. exists b, sorted. split; [done|]. split; [done|].
  intros g'. unfold kept. destruct (0 <? cap).
  - rewrite !odict_get_set. now destruct (decide (g' = g)).
  - now rewrite odict_get_set.
Qed.

Lemma sort_and_cap_all_get cap names d d' :
  NoDup names -> sort_and_cap_all cap names d = Ok d' ->
  forall g,
    (g ∉ names -> odict_get g d' = odict_get g d) /\
    (g ∈ names ->
     exists b sorted, odict_get g d = Some b /\ sort_by_rank b = Ok sorted /\
                      odict_get g d' = Some (kept cap sorted)).
Proof.
  intros Hnd. revert d. induction Hnd as [|g0 names Hg0 Hnd IH]; intros d.
  - cbn. intros [= <-] g. split; [done|]. intros H. now apply elem_of_nil in H.
  - cbn [sort_and_cap_all].
    destruct (sort_and_cap cap g0 d) as [d1|] eqn:E1; [|done]. cbn.
    intros E g.
    destruct (sort_and_cap_get cap g0 d d1 E1) as (b & sorted & Eb & Es & Hget).
    destruct (IH d1 E g) as [Hout Hin]. split.
    + intros Hg. apply not_elem_of_cons in Hg as [Hne Hg].
      rewrite (Hout Hg), Hget. now destruct (decide (g = g0)).
    + intros Hg. apply elem_of_cons in Hg as [->|Hg].
      * exists b, sorted. split; [done|]. split; [done|].
        rewrite (Hout Hg0), Hget.
        now destruct (decide (g0 = g0)).
      * destruct (Hin Hg) as (b1 & sorted1 & Eb1 & Es1 & E').
        exists b1, sorted1. split; [|done].
        rewrite Hget in Eb1. destruct (decide (g = g0)) as [->|]; [done|done].
Qed.

Lemma kept_sublist cap (l : list movie) : kept cap l `sublist_of` l.
Proof. unfold kept. destruct (0 <? cap); [apply sublist_take|done]. Qed.

Lemma sort_and_cap_all_total cap names d :
  (forall g, g ∈ names -> is_Some (odict_get g d)) ->
  buckets_hold rankable d ->
  exists d', sort_and_cap_all cap names d = Ok d'.
Proof.
  revert d. induction names as [|g names IH]; intros d Hkeys Hd;
    cbn [sort_and_cap_all]; [eauto|].
  destruct (Hkeys g) as [b Eb]; [left|].
  assert (Hb : Forall rankable b) by now apply (buckets_hold_get rankable d g).
  destruct (sort_by_rank_total b Hb) as [sorted Es].
  pose proof (sort_by_rank_perm b sorted Es) as Hp.
  assert (Hs : Forall rankable sorted) by now rewrite <- Hp.
  assert (Hk : Forall rankable (take (Z.to_nat cap) sorted))
    by now apply Forall_take.
  unfold sort_and_cap. rewrite Eb. cbn. rewrite Es. cbn.
  apply IH.
  - intros g' Hg'. destruct (Hkeys g') as [b' Eb']; [now right|].
    destruct (0 <? cap); rewrite !odict_get_set;
      destruct (decide (g' = g)); rewrite ?Eb'; eauto.
  - destruct (0 <? cap); repeat apply buckets_hold_set; done.
Qed.

Lemma group_main_buckets cap movies :
  Forall rankable movies ->
  let names := genre_names_sorted (by_genre_of movies) in
  exists d,
    group_main cap movies = Ok (names, d) /\ NoDup names /\
    (forall g, g ∈ names ->
       exists sorted,
         sort_by_rank (of_genre g movies) = Ok sorted /\
         odict_get g d = Some (kept cap sorted)) /\
    (forall g, g ∉ names -> odict_get g d = None).
Proof.
  intros Hrank names. subst names. unfold group_main.
  set (d0 := by_genre_of movies). set (names := genre_names_sorted d0).
  assert (Hp : Permutation names (odict_keys d0)) by apply stable_sort_perm.
  assert (Hnd : NoDup names) by (rewrite Hp; apply by_genre_of_NoDup).
  destruct (sort_and_cap_all_total cap names d0) as [d Ed].
  { intros g Hg. apply odict_get_Some_key. now rewrite <- Hp. }
  { now apply by_genre_of_hold. }
  exists d. rewrite Ed. cbn. split; [done|]. split; [done|]. split.
  - intros g Hg.
    destruct (sort_and_cap_all_get cap names d0 d Hnd Ed g) as [_ Hin].
    destruct (Hin Hg) as (b & sorted & Eb & Es & E').
    apply by_genre_of_bucket in Eb. subst b.
    exists sorted. now split.
  - intros g Hg.
    destruct (sort_and_cap_all_get cap names d0 d Hnd Ed g) as [Hout _].
    rewrite (Hout Hg). destruct (odict_get g d0) as [b|] eqn:Eb; [|done].
    exfalso. apply Hg. rewrite Hp. apply odict_get_Some_key. eauto.
Qed.

Lemma kept_of_genre cap g movies sorted mv :
  sort_by_rank (of_genre g movies) = Ok sorted ->
  mv ∈ kept cap sorted -> mv ∈ movies /\ g ∈ genres mv.
Proof.
  intros Es Hmv.
  assert (Hin' : mv ∈ sorted).
  { eapply elem_of_sublist; [exact Hmv|apply kept_sublist]. }
  rewrite <- (sort_by_rank_perm _ _ Es) in Hin'.
  now apply elem_of_flat_map_hits in Hin'.
Qed.

(** C9, as amended.  For movies whose sort keys exist:
    - in [load_movies], when no genre is itself named ["All"], the grouped
      result has an ["All"] bucket that is a rearrangement of the movies
      (each appears there exactly once), and a movie is in the bucket of a
      genre exactly when that genre is in its [genres] list;
    - in [main], without a cap ([MAX_RESULTS_PER_GENRE] is 0), the keys of
      the grouped result are the genres met (there is no bucket for all
      movies), and a movie is in the bucket of a genre exactly when that
      genre is in its [genres] list;
    - in [main], with a positive cap, the keys are the genres met all the
      same, and the bucket of a genre is made of the first
      [MAX_RESULTS_PER_GENRE] of the movies of that genre once sorted by
      rank. *)
Theorem grouping_invariant (movies : list movie) (cap : Z) (fuel : nat) :
  Forall rankable movies ->
  (no_genre_named_All movies -> (length movies < fuel)%nat ->
   exists d all,
     group_gui fuel movies = Some (Ok d) /\
     odict_get "All" d = Some all /\ Permutation movies all /\
     (forall g mv, g <> "All" ->
        in_bucket d g mv <-> mv ∈ movies /\ g ∈ genres mv)) /\
  (cap <= 0 ->
   exists names d,
     group_main cap movies = Ok (names, d) /\
     (forall g, is_Some (odict_get g d)
                <-> exists mv, mv ∈ movies /\ g ∈ genres mv) /\
     (forall g mv, in_bucket d g mv <-> mv ∈ movies /\ g ∈ genres mv)) /\
  (0 < cap ->
   exists names d,
     group_main cap movies = Ok (names, d) /\
     (forall g, is_Some (odict_get g d)
                <-> exists mv, mv ∈ movies /\ g ∈ genres mv) /\
     (forall g b, odict_get g d = Some b ->
        exists sorted,
          sort_by_rank (of_genre g movies) = Ok sorted /\
          b = take (Z.to_nat cap) sorted)).
Proof.
  intros Hrank. split; [|split].
  - intros HnoAll Hfuel. now apply group_gui_spec.
  - intros Hcap.
    destruct (group_main_uncapped cap movies Hcap Hrank)
      as (names & d & E & Hnames & Hkeys & Hin).
    exists names, d. split; [done|]. split; [|done].
    intros g. now rewrite Hkeys, Hnames.
  - intros Hcap.
    destruct (group_main_buckets cap movies Hrank) as (d & E & _ & Hin & Hout).
    set (names := genre_names_sorted (by_genre_of movies)) in *.
    assert (Hnames : forall g, g ∈ names
                               <-> exists mv, mv ∈ movies /\ g ∈ genres mv).
    { intros g. unfold names, genre_names_sorted. rewrite stable_sort_perm.
      apply by_genre_of_keys. }
    assert (Hkeys : forall g, is_Some (odict_get g d) <-> g ∈ names).
    { intros g. destruct (decide (g ∈ names)) as [Hg|Hg].
      - destruct (Hin g Hg) as (sorted & _ & ->). split; eauto.
      - rewrite (Hout g Hg). split; [intros [? [=]]|done]. }
    exists names, d. split; [done|].
    split; [intros g; now rewrite Hkeys, Hnames|].
    intros g b Hb.
    assert (Hg : g ∈ names) by (apply Hkeys; eauto).
    destruct (Hin g Hg) as (sorted & Es & Eg).
    exists sorted. split; [done|]. rewrite Eg in Hb. injection Hb as <-.
    unfold kept. destruct (Z.ltb_spec 0 cap); [done|lia].
Qed.

Lemma grouping_invariant_witness :
  let movies := [Scenario.hit; Scenario.flop] in
  (Forall rankable movies /\ no_genre_named_All movies /\
   (length movies < 3)%nat /\ 0 <= 0 /\ 0 < 1) /\
  (exists d all,
     group_gui 3 movies = Some (Ok d) /\
     odict_get "All" d = Some all /\ Permutation movies all /\
     (forall g mv, g <> "All" ->
        in_bucket d g mv <-> mv ∈ movies /\ g ∈ genres mv)) /\
  (exists names d,
     group_main 0 movies = Ok (names, d) /\
     (forall g, is_Some (odict_get g d)
                <-> exists mv, mv ∈ movies /\ g ∈ genres mv) /\
     (forall g mv, in_bucket d g mv <-> mv ∈ movies /\ g ∈ genres mv)) /\
  (exists names d,
     group_main 1 movies = Ok (names, d) /\
     (forall g, is_Some (odict_get g d)
                <-> exists mv, mv ∈ movies /\ g ∈ genres mv) /\
     (forall g b, odict_get g d = Some b ->
        exists sorted,
          sort_by_rank (of_genre g movies) = Ok sorted /\
          b = take (Z.to_nat 1) sorted)).
Proof.
  intros movies.
  assert (H1 : Forall rankable movies) by (repeat constructor).
  assert (H2 : no_genre_named_All movies).
  { repeat constructor; intros H; apply list_elem_of_singleton in H;
      discriminate. }
  assert (H3 : (length movies < 3)%nat) by (cbn; lia).
  assert (H4 : 0 <= 0) by lia.
  assert (H5 : 0 < 1) by lia.
  split; [done|].
  destruct (grouping_invariant movies 0 3 H1) as (Hgui & Hmain & _).
  destruct (grouping_invariant movies 1 3 H1) as (_ & _ & Hcap).
  split; [exact (Hgui H2 H3)|]. split; [exact (Hmain H4)|exact (Hcap H5)].
Defined.

(** C9, as stated, fails on [main]: with a cap of 1 the lower-ranked of
    two Action movies is in no bucket at all, and the grouped result has
    no ["All"] bucket. *)
Lemma capped_bucket_drops_movie :
  let d := [("Action", [Scenario.hit])] in
  group_main 1 [Scenario.hit; Scenario.flop] = Ok (["Action"], d) /\
  odict_get "All" d = None /\
  "Action" ∈ genres Scenario.flop /\
  ~ in_bucket d "Action" Scenario.flop.
Proof.
  intros d. split; [vm_compute; reflexivity|].
  split; [reflexivity|]. split; [left|].
  intros (b & Hb & Hin). injection Hb as <-.
  apply list_elem_of_singleton in Hin. discriminate.
Qed.

End GroupFacts.


(** ** Rounding to binary64 *)

Module Binary64Facts.
Import Binary64 RankBinary64Spec.
Open Scope Q_scope.

Lemma Qpower2_pos e : 0 < Qpower 2 e.
Proof. apply Qpower_0_lt. reflexivity. Qed.

Lemma Qpower2_plus a b : Qpower 2 (a + b) == Qpower 2 a * Qpower 2 b.
Proof. apply Qpower_plus. discriminate. Qed.

Lemma Qpower2_le a b : (a <= b)%Z -> Qpower 2 a <= Qpower 2 b.
Proof. intros H. apply Qpower_le_compat_l; [exact H|discriminate]. Qed.

Lemma ilog2_le x : 0 < x -> Qpower 2 (ilog2 x) <= x.
Proof.
  intros Hx. unfold ilog2.
  destruct (Qle_bool _ x) eqn:E; [now apply Qle_bool_iff in E|].
  clear E. destruct x as [n d]. cbn [Qnum Qden].
  assert (Hn : (0 < n)%Z).
  { unfold Qlt in Hx. cbn in Hx. lia. }
  set (a := Z.log2 n). set (b := Z.log2 (Z.pos d)).
  assert (Ha : (0 <= a)%Z) by apply Z.log2_nonneg.
  assert (Hb : (0 <= b)%Z) by apply Z.log2_nonneg.
  destruct (Z.log2_spec n Hn) as [Hn1 _]. fold a in Hn1.
  destruct (Z.log2_spec (Z.pos d) ltac:(lia)) as [_ Hd2]. fold b in Hd2.
  assert (E : Qpower 2 a == Qpower 2 (a - b - 1) * Qpower 2 (Z.succ b)).
  { rewrite <- Qpower2_plus. replace (a - b - 1 + Z.succ b)%Z with a by lia.
    reflexivity. }
  assert (Hn1' : Qpower 2 a <= inject_Z n).
  { change 2 with (inject_Z 2). rewrite <- Zpower_Qpower by exact Ha.
    now rewrite <- Zle_Qle. }
  assert (Hd2' : inject_Z (Z.pos d) <= Qpower 2 (Z.succ b)).
  { change 2 with (inject_Z 2). rewrite <- Zpower_Qpower by lia.
    rewrite <- Zle_Qle. lia. }
  pose proof (Qpower2_pos (a - b - 1)) as Hp.
  assert (Hd : 0 < inject_Z (Z.pos d)) by reflexivity.
  rewrite (Qmake_Qdiv n d).
  apply Qle_shift_div_l; [exact Hd|].
  set (P := Qpower 2 (a - b - 1)) in *. set (D := inject_Z (Z.pos d)) in *.
  set (T := Qpower 2 (Z.succ b)) in *. set (A := Qpower 2 a) in *.
  set (N := inject_Z n) in *. clearbody P D T A N. nra.
Qed.

Lemma quantum_pos x : 0 < quantum x.
Proof. apply Qpower2_pos. Qed.

Lemma quantum_small x : - 16 <= x <= 16 -> quantum x <= 2 * eps.
Proof.
  intros Hx. unfold quantum.
  assert (He : (ilog2 (Qabs x) <= 4)%Z).
  { destruct (Z.le_gt_cases (ilog2 (Qabs x)) 4) as [H|H]; [exact H|exfalso].
    assert (Habs : Qabs x <= 16) by (apply Qabs_Qle_condition; exact Hx).
    destruct (Qlt_le_dec 0 (Qabs x)) as [Hp|Hn].
    - pose proof (ilog2_le _ Hp) as Hl.
      pose proof (Qpower2_le 5 (ilog2 (Qabs x)) ltac:(lia)) as Hm.
      change (Qpower 2 5) with 32 in Hm.
      set (t := Qpower 2 (ilog2 (Qabs x))) in *. clearbody t.
      set (ax := Qabs x) in *. clearbody ax. lra.
    - unfold ilog2 in H. cbv zeta in H. pose proof (Qabs_nonneg x) as H0.
      assert (Ez : Qabs x == 0) by lra.
      assert (En : Qnum (Qabs x) = 0%Z).
      { unfold Qeq in Ez. change (Qnum 0) with 0%Z in Ez.
        change (QDen 0) with 1%Z in Ez. lia. }
      rewrite En in H. change (Z.log2 0) with 0%Z in H.
      pose proof (Z.log2_nonneg (Z.pos (Qden (Qabs x)))).
      destruct (Qle_bool _ _) in H; lia. }
  apply Qle_trans with (Qpower 2 (-48)); [apply Qpower2_le; lia|].
  vm_compute. discriminate.
Qed.

Lemma round_near x : - 16 <= x <= 16 -> x - eps <= round x <= x + eps.
Proof.
  intros Hx. unfold round, eps.
  destruct (Qeq_bool x 0) eqn:E.
  - apply Qeq_bool_iff in E. rewrite E. split; discriminate.
  - pose proof (quantum_pos x) as Hq. pose proof (quantum_small x Hx) as Hs.
    pose proof (EnrichFacts.round_half_even_near (x / quantum x)) as Hr.
    assert (Ex : x == x / quantum x * quantum x) by (field; lra).
    unfold eps in Hs.
    set (q := quantum x) in *. set (y := x / q) in *.
    set (k := inject_Z (round_half_even y)) in *. clearbody q y k.
    split; nra.
Qed.

Lemma round_nonneg x : 0 <= x -> 0 <= round x.
Proof.
  intros Hx. unfold round. destruct (Qeq_bool x 0); [discriminate|].
  pose proof (quantum_pos x) as Hq.
  pose proof (EnrichFacts.round_half_even_near (x / quantum x)) as Hr.
  assert (Hy : 0 <= x / quantum x) by (apply Qle_shift_div_l; lra).
  set (y := x / quantum x) in *.
  assert (Hk : (0 <= round_half_even y)%Z).
  { destruct (Z.le_gt_cases 0 (round_half_even y)) as [H|H]; [exact H|exfalso].
    assert (H1 : (round_half_even y <= -1)%Z) by lia.
    rewrite Zle_Qle in H1. change (inject_Z (-1)) with (-1) in H1. lra. }
  rewrite Zle_Qle in Hk. change (inject_Z 0) with 0 in Hk.
  set (k := inject_Z (round_half_even y)) in *. clearbody k. nra.
Qed.

(** The rounding at work: the floats 0.1 and 1/3; 0.1 + 0.2, which is
    not the float 0.3; an odd integer above [2^53], which goes to its even
    neighbour; the largest power of two times two, which is infinite; and
    half the smallest positive float, which goes to zero. *)
Example binary64_samples :
  has_value (lit (1 # 10)) (3602879701896397 # 36028797018963968) /\
  (exists q, truediv 1 3 = Ok (Fin q) /\
             q == 6004799503160661 # 18014398509481984) /\
  has_value (add (lit (1 # 10)) (lit (2 # 10)))
            (5404319552844596 # 18014398509481984) /\
  has_value (lit (3 # 10)) (5404319552844595 # 18014398509481984) /\
  has_value (lit (inject_Z (2 ^ 53 + 3))) (inject_Z (2 ^ 53 + 4)) /\
  mul (lit (inject_Z (2 ^ 1023))) (lit 2) = PosInf /\
  has_value (lit (1 # 2 ^ 1075)) 0.
Proof.
  repeat split;
    try (eexists; split; [vm_compute; reflexivity|vm_compute; reflexivity]).
Qed.

Lemma b64_near x : - 16 <= x <= 16 -> b64 (Fin x) = Fin (round x).
Proof.
  intros Hx. pose proof (round_near x Hx) as Hr. unfold eps in Hr.
  cbn [b64]. cbv zeta.
  destruct (Qle_bool (Qpower 2 1024) (Qabs (round x))) eqn:E; [exfalso|reflexivity].
  apply Qle_bool_iff in E.
  assert (Ha : Qabs (round x) <= 17) by (apply Qabs_Qle_condition; lra).
  assert (Hb : 17 < Qpower 2 1024) by (vm_compute; reflexivity).
  lra.
Qed.

End Binary64Facts.


(** ** [rank_score] on the machine *)

Module RankBinary64Facts.
Import Rank RankSpec Binary64 RankBinary64Spec Binary64Facts.
Open Scope Q_scope.

Lemma flt_Fin a b : flt (Fin a) (Fin b) = negb (Qle_bool b a).
Proof. reflexivity. Qed.

Lemma mul64 a b : - 16 <= a * b <= 16 -> mul (Fin a) (Fin b) = Fin (round (a * b)).
Proof. apply b64_near. Qed.

Lemma add64 a b : - 16 <= a + b <= 16 -> add (Fin a) (Fin b) = Fin (round (a + b)).
Proof. apply b64_near. Qed.

Lemma mul_near a a' b e K :
  a' - e <= a <= a' + e -> 0 <= b <= K -> 0 <= e ->
  a' * b - e * K <= a * b <= a' * b + e * K.
Proof. intros Ha Hb He. split; nra. Qed.

Lemma rating64 rating :
  0 <= rating <= 10 ->
  exists R, pymax (lit 0) (pymin (lit 10) (b64 (Fin rating))) = Fin R /\
            0 <= R <= 10 /\ rating - eps <= R <= rating + eps.
Proof.
  intros Hr. rewrite b64_near by lra.
  pose proof (round_near rating ltac:(lra)) as Hn.
  pose proof (round_nonneg rating ltac:(lra)) as H0.
  set (r0 := round rating) in *. clearbody r0.
  change (lit 0) with (Fin 0).
  change (lit 10) with (Fin (5629499534213120 # 562949953421312)).
  unfold pymin. rewrite flt_Fin. unfold eps in *.
  destruct (Qle_bool _ r0) eqn:E10; cbn [negb].
  - apply Qle_bool_iff in E10. exists (5629499534213120 # 562949953421312).
    split; [reflexivity|]. lra.
  - apply RankFacts.Qle_bool_false in E10. unfold pymax. rewrite flt_Fin.
    destruct (Qle_bool r0 0) eqn:E0; cbn [negb].
    + apply Qle_bool_iff in E0. exists 0. split; [reflexivity|]. lra.
    + exists r0. split; [reflexivity|]. lra.
Qed.

Lemma popularity64 pop :
  exists pc n, div (pymax (lit 0) (b64 pop)) (lit 100) = Ok pc /\
               pymin (lit 10) pc = Fin n /\ 0 <= n <= 10.
Proof.
  change (lit 0) with (Fin 0).
  change (lit 10) with (Fin (5629499534213120 # 562949953421312)).
  change (lit 100) with (Fin (7036874417766400 # 70368744177664)).
  assert (Hmin : forall pc, (pc = PosInf \/ exists x, pc = Fin x /\ 0 <= x) ->
            exists n, pymin (Fin (5629499534213120 # 562949953421312)) pc = Fin n /\
                      0 <= n <= 10).
  { intros pc [->|(x & -> & Hx)]; unfold pymin.
    - eexists. split; [reflexivity|]. lra.
    - rewrite flt_Fin. destruct (Qle_bool _ x) eqn:E; cbn [negb].
      + eexists. split; [reflexivity|]. lra.
      + apply RankFacts.Qle_bool_false in E. eexists. split; [reflexivity|]. lra. }
  assert (Hfin : forall p, 0 <= p ->
            exists pc n, div (Fin p) (Fin (7036874417766400 # 70368744177664)) = Ok pc /\
                         pymin (Fin (5629499534213120 # 562949953421312)) pc = Fin n /\
                         0 <= n <= 10).
  { intros p Hp. unfold div. cbn [fdiv].
    change (Qeq_bool (7036874417766400 # 70368744177664) 0) with false.
    cbv iota. cbn [mbind result_bind].
    set (q := p / (7036874417766400 # 70368744177664)).
    assert (Hq : 0 <= q) by (apply Qle_shift_div_l; lra).
    pose proof (round_nonneg q Hq) as Hr.
    eexists. 
    destruct (Hmin (b64 (Fin q))) as (n & En & Hn).
    { cbn [b64]. cbv zeta. destruct (Qle_bool (2 ^ 1024) _).
      - left. apply Qle_bool_iff in Hr. now rewrite Hr.
      - right. eauto. }
    exists n. split; [reflexivity|]. split; assumption. }
  assert (Hz : 0 <= 0) by lra.
  destruct pop as [p| | |].
  - cbn [b64]. cbv zeta. destruct (Qle_bool (2 ^ 1024) _).
    + destruct (Qle_bool 0 (round p)).
      * unfold pymax. cbn [flt]. unfold div. cbn. 
        destruct (Hmin PosInf) as (n & En & Hn); [now left|]. eauto.
      * unfold pymax. cbn [flt]. apply Hfin, Hz.
    + unfold pymax. rewrite flt_Fin.
      destruct (Qle_bool (round p) 0) eqn:E; cbn [negb].
      * apply Hfin, Hz.
      * apply Hfin. apply RankFacts.Qle_bool_false in E. lra.
  - unfold pymax. cbn [b64 flt]. unfold div. cbn.
    destruct (Hmin PosInf) as (n & En & Hn); [now left|]. eauto.
  - unfold pymax. cbn [b64 flt]. apply Hfin, Hz.
  - unfold pymax. cbn [b64 flt]. apply Hfin, Hz.
Qed.

Lemma weight64 a v :
  (0 <= v)%Z -> 0 <= weight a v <= 1 ->
  exists w, truediv a (v + m) = Ok (Fin w) /\ 0 <= w /\
            weight a v - eps <= w <= weight a v + eps.
Proof.
  intros Hv Hw. unfold truediv, int_truediv.
  destruct (Z.eqb_spec (v + m) 0) as [E|_]; [unfold m in E; lia|].
  cbn [mbind result_bind]. fold (weight a v).
  rewrite b64_near by lra. eexists. split; [reflexivity|]. split.
  - apply round_nonneg. lra.
  - apply round_near. lra.
Qed.

Lemma rank_score64 rating pop :
  0 <= rating <= 10 ->
  exists R y, rating - eps <= R <= rating + eps /\
    forall vc, exists s,
      RankBinary64.rank_score (VFloat (Fin rating)) vc (VFloat pop) = Ok (Fin s) /\
      reference (sanitize_votes vc) R y - 16 * eps <= s
        <= reference (sanitize_votes vc) R y + 16 * eps.
Proof.
  intros Hr.
  destruct (rating64 rating Hr) as (R & ER & HR & HRn).
  destruct (popularity64 pop) as (pc & n & Epc & En & Hn).
  exists R, (round (c3 * n)). split; [exact HRn|].
  intros vc. pose proof (RankFacts.sanitize_votes_nonneg vc) as Hv.
  set (v := sanitize_votes vc) in *.
  pose proof (RankFacts.weight_votes_range v Hv) as HW.
  pose proof (RankFacts.weight_prior v Hv) as HW'.
  destruct (weight64 v v Hv HW) as (w & Ew & Hw0 & Hw).
  destruct (weight64 m v Hv ltac:(lra)) as (w' & Ew' & Hw0' & Hw').
  unfold RankBinary64.rank_score. fold v.
  cbn [or_zero float py_float mbind result_bind].
  rewrite ER, Ew, Ew', Epc. cbn [mbind result_bind]. rewrite En.
  change RankBinary64.C with (Fin (7318349394477056 # 1125899906842624)).
  change (lit (7 # 10)) with (Fin c7). change (lit (3 # 10)) with (Fin c3).
  pose proof (mul_near w (weight v v) R eps 10 Hw HR ltac:(discriminate)) as H1.
  assert (HC : 0 <= (7318349394477056 # 1125899906842624) <= (13 # 2))
    by (split; discriminate).
  pose proof (mul_near w' (weight m v) _ eps (13 # 2) Hw' HC ltac:(discriminate)) as H2.
  assert (H2' : weight m v * (7318349394477056 # 1125899906842624)
                == (1 - weight v v) * (13 # 2)) by (rewrite HW'; ring).
  unfold reference. unfold eps in *.
  set (W := weight v v) in *. set (W' := weight m v) in *. clearbody W W'.
  assert (B1 : 0 <= W * R <= 10) by (split; nra).
  assert (B12 : 0 <= W * R + (1 - W) * (13 # 2) <= 10) by (split; nra).
  set (p1 := w * R) in *. set (P1 := W * R) in *.
  set (p2 := w' * _) in *. set (P2 := W' * _) in *.
  assert (B2 : 0 <= (1 - W) * (13 # 2) <= 13 # 2) by (split; nra).
  set (Q2 := (1 - W) * (13 # 2)) in *.
  clearbody P1 P2 Q2.
  rewrite (mul64 w R) by (fold p1; lra). fold p1.
  rewrite (mul64 w' _) by (fold p2; lra). fold p2.
  pose proof (round_near p1 ltac:(lra)) as N1.
  pose proof (round_near p2 ltac:(lra)) as N2.
  unfold eps in *.
  set (t1 := round p1) in *. set (t2 := round p2) in *. clearbody t1 t2.
  rewrite (add64 t1 t2) by lra.
  pose proof (round_near (t1 + t2) ltac:(lra)) as NB. unfold eps in NB.
  set (B := round (t1 + t2)) in *. clearbody B.
  assert (Hc3 : 0 <= c3 * n <= 3).
  { unfold c3. split; nra. }
  set (p3 := c3 * n) in *.
  rewrite (mul64 c3 n) by (fold p3; lra). fold p3.
  pose proof (round_near p3 ltac:(lra)) as N3. unfold eps in N3.
  set (y := round p3) in *. clearbody y.
  assert (Hc7 : c7 * (P1 + Q2) - 14 * (1 # 562949953421312) <= c7 * B
                <= c7 * (P1 + Q2) + 14 * (1 # 562949953421312)).
  { unfold c7. split; lra. }
  assert (Hc7r : 0 <= c7 * (P1 + Q2) <= 12).
  { unfold c7. split; lra. }
  set (p4 := c7 * B) in *. set (P4 := c7 * (P1 + Q2)) in *. clearbody P4.
  rewrite (mul64 c7 B) by (fold p4; lra). fold p4.
  pose proof (round_near p4 ltac:(lra)) as N4. unfold eps in N4.
  set (y1 := round p4) in *. clearbody y1.
  rewrite (add64 y1 y) by lra.
  pose proof (round_near (y1 + y) ltac:(lra)) as N5. unfold eps in N5.
  eexists. split; [reflexivity|]. lra.
Qed.

(** C2, as amended.  With the rating (in [0,10]) and the popularity held
    fixed, the score, every operation rounded to binary64, moves with the
    vote count in the direction of the Bayesian shrinkage up to the
    roundings: when the vote count grows, the score does not go down by
    more than [1e-13] if the rating is above the prior mean 6.5, and does
    not go up by more than [1e-13] if it is below. *)
Theorem rank_score_monotone_in_votes (rating : Q) (pop : pyfloat) (v1 v2 : Z) :
  0 <= rating <= 10 -> (v1 <= v2)%Z ->
  exists s1 s2,
    RankBinary64.rank_score (VFloat (Fin rating)) (VInt v1) (VFloat pop)
      = Ok (Fin s1) /\
    RankBinary64.rank_score (VFloat (Fin rating)) (VInt v2) (VFloat pop)
      = Ok (Fin s2) /\
    ((13 # 2) < rating -> s1 - tolerance <= s2) /\
    (rating < (13 # 2) -> s2 <= s1 + tolerance).
Proof.
  intros Hr H12.
  destruct (rank_score64 rating pop Hr) as (R & y & HR & Hs).
  destruct (Hs (VInt v1)) as (s1 & E1 & N1).
  destruct (Hs (VInt v2)) as (s2 & E2 & N2).
  exists s1, s2. split; [exact E1|]. split; [exact E2|].
  assert (Hv : (sanitize_votes (VInt v1) <= sanitize_votes (VInt v2))%Z)
    by (unfold sanitize_votes; cbn; lia).
  pose proof (RankFacts.sanitize_votes_nonneg (VInt v1)) as H1.
  pose proof (RankFacts.sanitize_votes_nonneg (VInt v2)) as H2.
  pose proof (RankFacts.weight_votes_mono _ _ H1 Hv) as Hm.
  pose proof (RankFacts.weight_votes_range _ H1) as R1.
  pose proof (RankFacts.weight_votes_range _ H2) as R2.
  unfold reference, c7, eps, tolerance in *.
  set (W1 := weight (sanitize_votes (VInt v1)) _) in *.
  set (W2 := weight (sanitize_votes (VInt v2)) _) in *.
  clearbody W1 W2. split; intros Hc.
  - assert (0 <= (W2 - W1) * (R - (13 # 2) + (1 # 562949953421312)))
      by (apply Qmult_le_0_compat; lra).
    lra.
  - assert (0 <= (W2 - W1) * ((13 # 2) + (1 # 562949953421312) - R))
      by (apply Qmult_le_0_compat; lra).
    lra.
Qed.

Lemma rank_score_monotone_in_votes_witness :
  (0 <= 8 <= 10 /\ (10 <= 500)%Z) /\
  exists s1 s2,
    RankBinary64.rank_score (VFloat (Fin 8)) (VInt 10) (VFloat (Fin 45))
      = Ok (Fin s1) /\
    RankBinary64.rank_score (VFloat (Fin 8)) (VInt 500) (VFloat (Fin 45))
      = Ok (Fin s2) /\
    ((13 # 2) < 8 -> s1 - tolerance <= s2) /\
    (8 < (13 # 2) -> s2 <= s1 + tolerance).
Proof.
  assert (H1 : 0 <= 8 <= 10) by (split; discriminate).
  assert (H2 : (10 <= 500)%Z) by discriminate.
  split; [auto|]. exact (rank_score_monotone_in_votes 8 (Fin 45) 10 500 H1 H2).
Defined.

(** C2, as stated, fails: for the rating 6.6, above the prior mean, one
    more vote on top of 1000000010 gives a lower score.  The two shares
    [v/(v+m)] round to the same float, while [m/(v+m)] goes down. *)
Lemma more_votes_lower_score :
  exists s1 s2,
    (0 <= (66 # 10) <= 10 /\ (13 # 2) < (66 # 10)) /\
    (1000000010 <= 1000000011)%Z /\
    RankBinary64.rank_score (VFloat (Fin (66 # 10))) (VInt 1000000010)
      (VFloat (Fin 0)) = Ok (Fin s1) /\
    RankBinary64.rank_score (VFloat (Fin (66 # 10))) (VInt 1000000011)
      (VFloat (Fin 0)) = Ok (Fin s2) /\
    s2 < s1.
Proof.
  exists (5201657557790976 # 1125899906842624),
         (5201657557790974 # 1125899906842624).
  split; [repeat split; discriminate|]. split; [discriminate|].
  split; [vm_compute; reflexivity|]. split; [vm_compute; reflexivity|].
  reflexivity.
Qed.

End RankBinary64Facts.

(** * Further properties *)

(** ** More on the HTTP helper *)

Module HttpMore.
Import Http HttpGet HttpSpec HttpFacts HttpMoreSpec.

Lemma attempt_body_returns w attempt st v st' :
  attempt_body w attempt st = (Ok (Some v), st') ->
  exists r, w (issued st) = Responded r /\ reaches_decoding r /\
            content r = Decoded v /\ is_dict_or_list v = true.
Proof.
  rewrite attempt_body_unfold. cbn zeta. rewrite issued_after_delay.
  destruct (w (issued st)) as [r|]; [|done].
  destruct (Z.eqb_spec (status_code r) 429) as [|H429].
  { unfold bind, lift, ret.
    destruct (retry_after_secs r attempt); [|done].
    now destruct (sleep _ _) as [[[]|] ?]. }
  destruct (Z.eqb_spec (status_code r) 401) as [|H401]; [done|].
  unfold bind, lift, raise_for_status, ret, raise.
  destruct ((400 <=? status_code r) && (status_code r <? 600)) eqn:Es; [done|].
  unfold json. destruct (content r) as [data|[]] eqn:Ec; try done.
  destruct (is_dict_or_list data) eqn:Ed; [|done].
  intros [= <- <-]. exists r. repeat split; try done.
  intros [H1 H2]. apply andb_false_iff in Es as [Es|Es]; lia.
Qed.

(** A call issues at most [retries] requests.  When it returns, the value
    is the decoded body of the last request issued, an object or an
    array, and that request was not answered 429, 401 or an error
    status. *)
Theorem get_returns_last_body w retries st :
  (issued (_get w retries st).2 <= issued st + retries)%nat /\
  forall v, (_get w retries st).1 = Ok v ->
    is_dict_or_list v = true /\
    exists n r, issued (_get w retries st).2 = S n /\ (issued st <= n)%nat /\
                w n = Responded r /\ reaches_decoding r /\
                content r = Decoded v.
Proof.
  unfold _get.
  assert (G : forall attempts last st,
    (issued (get_loop w retries attempts last st).2
       <= issued st + length attempts)%nat /\
    forall v, (get_loop w retries attempts last st).1 = Ok v ->
      is_dict_or_list v = true /\
      exists n r, issued (get_loop w retries attempts last st).2 = S n /\
                  (issued st <= n)%nat /\ w n = Responded r /\
                  reaches_decoding r /\ content r = Decoded v).
  { induction attempts as [|attempt rest IH]; intros last st1.
    - cbn [get_loop]. split; [destruct last; cbn; lia|]. now destruct last.
    - cbn [get_loop length].
      pose proof (attempt_body_issued w attempt st1) as Hi.
      pose proof (attempt_body_returns w attempt st1) as Hret.
      destruct (attempt_body w attempt st1) as [[[data|]|e] st2];
        cbn [fst snd] in *.
      + split; [lia|]. intros v [= <-].
        destruct (Hret data st2 eq_refl) as (r & Hw & Hr & Hc & Hd).
        split; [done|]. exists (issued st1), r.
        split; [done|]. split; [done|]. split; [done|]. split; done.
      + destruct (IH last st2) as [Hle Hok]. split; [lia|].
        intros v Hv. destruct (Hok v Hv) as (Hd & n & r & ? & ? & ?).
        split; [done|]. exists n, r. split; [done|]. split; [lia|done].
      + destruct (is_RequestException e).
        * destruct (attempt =? retries - 1)%nat; [split; [cbn; lia|done]|].
          destruct (IH (Some e) st2) as [Hle Hok]. split; [lia|].
          intros v Hv. destruct (Hok v Hv) as (Hd & n & r & ? & ? & ?).
          split; [done|]. exists n, r. split; [done|]. split; [lia|done].
        * destruct (is_ValueError_or_TypeError e); split; cbn; try lia; done. }
  destruct (G (seq 0 retries) None st) as [Hle Hok].
  rewrite length_seq in Hle. split; [exact Hle|exact Hok].
Qed.

Lemma int_of_str_raises s e : int_of_str s = Raise e -> e = ValueError.
Proof.
  unfold int_of_str. destruct (read_sign (strip s)) as [sg s1].
  destruct (digitpart s1 0 0) as [[v [|n]] [|c r]]; congruence.
Qed.




Lemma get_loop_issued_bound w retries attempts last st :
  (issued (get_loop w retries attempts last st).2
     <= issued st + length attempts)%nat.
Proof.
  revert last st. induction attempts as [|attempt rest IH]; intros last st1.
  - cbn [get_loop]. destruct last; cbn; lia.
  - cbn [get_loop length].
    pose proof (attempt_body_issued w attempt st1) as Hi.
    destruct (attempt_body w attempt st1) as [[[data|]|e] st2];
      cbn [fst snd] in *.
    + lia.
    + specialize (IH last st2). lia.
    + destruct (is_RequestException e).
      * destruct (attempt =? retries - 1)%nat; [cbn; lia|].
        specialize (IH (Some e) st2). lia.
      * destruct (is_ValueError_or_TypeError e); cbn; lia.
Qed.

Lemma get_issued_bound w retries st :
  (issued st <= issued (_get w retries st).2 <= issued st + retries)%nat.
Proof.
  unfold _get. split; [apply get_loop_issued_le|].
  pose proof (get_loop_issued_bound w retries (seq 0 retries) None st) as H.
  now rewrite length_seq in H.
Qed.






(** The delay before a retry is positive, never above 10 seconds, and
    does not shrink from one attempt to the next. *)
Theorem retry_delay_bounded attempt :
  (0 < retry_delay attempt <= 10)%Q /\
  (retry_delay attempt <= retry_delay (S attempt))%Q.
Proof.
  assert (Hb : forall a, (backoff a <= backoff (S a))%Q).
  { intros a. unfold backoff. apply Qmult_le_l; [reflexivity|].
    rewrite <- Zle_Qle. apply Z.pow_le_mono_r; lia. }
  assert (Hr : forall a, (0 < retry_delay a <= 10)%Q).
  { intros a. unfold retry_delay. pose proof (backoff_pos a).
    destruct (Qle_bool (backoff a) 10) eqn:E.
    - apply Qle_bool_iff in E. split; done.
    - split; [reflexivity|apply Qle_refl]. }
  split; [apply Hr|]. unfold retry_delay. specialize (Hb attempt).
  destruct (Qle_bool (backoff attempt) 10) eqn:E1;
    destruct (Qle_bool (backoff (S attempt)) 10) eqn:E2.
  - done.
  - now apply Qle_bool_iff in E1.
  - apply Qle_bool_iff in E2.
    assert (~ (backoff attempt <= 10)%Q) as Hn
      by (intros H; apply Qle_bool_iff in H; congruence).
    exfalso. apply Hn. now apply Qle_trans with (backoff (S attempt)).
  - apply Qle_refl.
Qed.

End HttpMore.

(** ** More on discovery and the per-movie fetches *)

Module FetchMore.
Import Http HttpGet HttpSpec HttpFacts HttpMoreSpec HttpMore.
Import Directory Fetch FetchMoreSpec.

Lemma not_Exception_SystemExit e : is_Exception e = false <-> is_SystemExit e.
Proof.
  unfold is_SystemExit. split.
  - destruct e; try done. eauto.
  - now intros [why ->].
Qed.

Lemma RequestException_is_Exception e :
  is_RequestException e = true -> is_Exception e = true.
Proof. now destruct e. Qed.

Lemma get_default_inv (d : list (string * pyval)) k dflt v :
  get_default d k dflt = v ->
  odict_get k d = Some v \/ (odict_get k d = None /\ v = dflt).
Proof.
  unfold get_default. destruct (odict_get k d); cbn; intros <-; auto.
Qed.

(** [get_watch_providers] issues at most three requests and lets nothing
    but a [SystemExit] out; a request exception of the helper gives the
    empty dictionary; and a non-empty result is the object found under
    the region in the [results] object of the response. *)
Theorem get_watch_providers_outcome COUNTRY w st :
  (issued st <= issued (get_watch_providers COUNTRY w st).2 <= issued st + 3)%nat /\
  (forall e, (get_watch_providers COUNTRY w st).1 = Raise e ->
             is_SystemExit e /\ (_get w 3 st).1 = Raise e) /\
  (forall e, (_get w 3 st).1 = Raise e -> is_RequestException e = true ->
             (get_watch_providers COUNTRY w st).1 = Ok []) /\
  (forall wp, (get_watch_providers COUNTRY w st).1 = Ok wp -> wp <> [] ->
     exists d results,
       (_get w 3 st).1 = Ok (VDict d) /\
       odict_get "results" d = Some (VDict results) /\
       odict_get COUNTRY results = Some (VDict wp)).
Proof.
  pose proof (get_issued_bound w 3 st) as Hb.
  unfold get_watch_providers, try_except_Exception, bind.
  destruct (_get w 3 st) as [[data|e] st1] eqn:E; cbn [fst snd] in *.
  - destruct data as [| | | | | |d];
      try (cbn; split; [done|]; split; [done|]; split; [done|];
           now intros wp [= <-] Hne).
    destruct (get_default d "results" (VDict [])) as [| | | | | |results] eqn:Er;
      try (cbn; split; [done|]; split; [done|]; split; [done|];
           now intros wp [= <-] Hne).
    destruct (get_default results COUNTRY (VDict [])) as [| | | | | |cd] eqn:Ec;
      try (cbn; split; [done|]; split; [done|]; split; [done|];
           now intros wp [= <-] Hne).
    cbn. split; [done|]. split; [done|]. split; [done|].
    intros wp [= <-] Hne. exists d, results. split; [done|].
    apply get_default_inv in Er, Ec.
    destruct Ec as [Ec|[_ [= ->]]]; [|done].
    destruct Er as [Er|[_ [= ->]]]; [done|]. done.
  - destruct (is_Exception e) eqn:Ee; cbn.
    + split; [done|]. split; [done|]. split; [done|].
      now intros wp [= <-] Hne.
    + split; [done|]. split.
      * intros e' [= <-]. split; [now apply not_Exception_SystemExit|done].
      * split; [|done]. intros e' [= <-] Hr.
        apply RequestException_is_Exception in Hr. congruence.
Qed.

(** [get_imdb_id] issues at most three requests and lets nothing but a
    [SystemExit] out; a request exception of the helper gives no id; and
    an id is the text of a truthy [imdb_id] field of the response. *)
Theorem get_imdb_id_outcome py_repr w st :
  (issued st <= issued (get_imdb_id py_repr w st).2 <= issued st + 3)%nat /\
  (forall e, (get_imdb_id py_repr w st).1 = Raise e ->
             is_SystemExit e /\ (_get w 3 st).1 = Raise e) /\
  (forall e, (_get w 3 st).1 = Raise e -> is_RequestException e = true ->
             (get_imdb_id py_repr w st).1 = Ok None) /\
  (forall i, (get_imdb_id py_repr w st).1 = Ok (Some i) ->
     exists d v,
       (_get w 3 st).1 = Ok (VDict d) /\ odict_get "imdb_id" d = Some v /\
       truthy v = true /\ i = py_str py_repr v).
Proof.
  pose proof (get_issued_bound w 3 st) as Hb.
  unfold get_imdb_id, try_except_Exception, bind.
  destruct (_get w 3 st) as [[data|e] st1] eqn:E; cbn [fst snd] in *.
  - destruct data as [| | | | | |d];
      try (cbn; split; [done|]; split; [done|]; split; done).
    cbn. split; [done|]. split; [done|]. split; [done|].
    unfold get_none, get_default.
    destruct (odict_get "imdb_id" d) as [v|] eqn:Ev; cbn; [|done].
    destruct (truthy v) eqn:Et; [|done].
    intros i [= <-]. exists d, v. done.
  - destruct (is_Exception e) eqn:Ee; cbn.
    + split; [done|]. split; [done|]. split; done.
    + split; [done|]. split.
      * intros e' [= <-]. split; [now apply not_Exception_SystemExit|done].
      * split; [|done]. intros e' [= <-] Hr.
        apply RequestException_is_Exception in Hr. congruence.
Qed.

Lemma get_first_try w k st r v :
  w (issued st) = Responded r -> reaches_decoding r ->
  content r = Decoded v -> is_dict_or_list v = true ->
  _get w (S k) st = (Ok v, {| issued := S (issued st); slept := slept st |}).
Proof.
  intros Hw (H429 & H401 & Herr) Hc Hd. unfold _get. cbn [seq get_loop].
  rewrite attempt_body_unfold. cbn. rewrite Hw.
  destruct (Z.eqb_spec (status_code r) 429) as [|_]; [done|].
  destruct (Z.eqb_spec (status_code r) 401) as [|_]; [done|].
  unfold bind, lift, raise_for_status.
  destruct ((400 <=? status_code r) && (status_code r <? 600)) eqn:Es.
  { apply andb_true_iff in Es as [H1 H2]. exfalso. apply Herr. lia. }
  unfold json. rewrite Hc, Hd. reflexivity.
Qed.

Lemma discover_page_answer w page acc st rs total :
  page_answer w (issued st) rs total ->
  discover_page w page acc st
  = (Ok (acc ++ rs, if (total <=? page)%nat then Break else Continue),
     {| issued := S (issued st); slept := slept st |}).
Proof.
  intros (r & d & Hw & Hr & Hc & Hrs & Ht).
  unfold discover_page, bind.
  rewrite (get_first_try w 2 st r (VDict d) Hw Hr Hc eq_refl).
  rewrite Hrs, Ht.
  destruct (Z.leb_spec (Z.of_nat total) (Z.of_nat page));
    destruct (Nat.leb_spec total page); try lia; reflexivity.
Qed.

Lemma window_start today since_days :
  window_in_range today since_days ->
  timedelta since_days = Ok since_days /\
  date_sub today since_days = Ok (today - since_days).
Proof.
  unfold window_in_range, timedelta, date_sub, MAX_ORDINAL.
  intros [[H1 H2] [H3 H4]]. cbn zeta.
  destruct (Z.leb_spec (-999999999) since_days); [|lia].
  destruct (Z.leb_spec since_days 999999999); [|lia].
  destruct (Z.leb_spec 1 (today - since_days)); [|lia].
  destruct (Z.leb_spec (today - since_days) 3652059); [|lia]. done.
Qed.

Lemma window_out_of_range w country today since_days pages st :
  ~ window_in_range today since_days ->
  discover_new_movies w country today since_days pages st = (Raise OverflowError, st).
Proof.
  intros Hout. unfold discover_new_movies, bind, lift, timedelta, date_sub,
    MAX_ORDINAL. cbn zeta.
  destruct (Z.leb_spec (-999999999) since_days); [|reflexivity].
  destruct (Z.leb_spec since_days 999999999); [|reflexivity]. cbn.
  destruct (Z.leb_spec 1 (today - since_days)); [|reflexivity].
  destruct (Z.leb_spec (today - since_days) 3652059); [|reflexivity].
  exfalso. apply Hout. unfold window_in_range, MAX_ORDINAL. lia.
Qed.

Lemma discover_new_movies_in_window w country today since_days pages st :
  window_in_range today since_days ->
  discover_new_movies w country today since_days pages st
  = discover_loop w (seq 1 pages) [] st.
Proof.
  intros [E1 E2]%window_start. unfold discover_new_movies, bind, lift.
  now rewrite E1, E2.
Qed.

(** When the window gives a date and the pages answer at once and are
    well formed, discovery fetches pages 1, 2, ... up to the page count
    the API reports or up to its own page limit, whichever comes first,
    one request a page, and returns their results in page order. *)
Theorem discover_fetches_pages_in_order
    w country today since_days pages st total (rs : nat -> list pyval) :
  window_in_range today since_days ->
  (1 <= total)%nat ->
  (forall i, (i < Nat.min total pages)%nat ->
             page_answer w (issued st + i) (rs i) total) ->
  discover_new_movies w country today since_days pages st
  = (Ok (concat (rs <$> seq 0 (Nat.min total pages))),
     {| issued := issued st + Nat.min total pages; slept := slept st |}).
Proof.
  intros Hwin Htotal Hans. rewrite discover_new_movies_in_window by done.
  set (n := Nat.min total pages) in *.
  assert (G : forall k i acc,
    (i + k = pages)%nat -> (i < total)%nat ->
    discover_loop w (seq (S i) k) acc
      {| issued := issued st + i; slept := slept st |}
    = (Ok (acc ++ concat (rs <$> seq i (n - i))),
       {| issued := issued st + n; slept := slept st |})).
  { induction k as [|k IH]; intros i acc Hik Hi.
    - cbn [seq discover_loop]. assert (n = i) as Hn by (unfold n; lia).
      rewrite Hn, Nat.sub_diag. cbn. now rewrite app_nil_r.
    - cbn [seq discover_loop]. unfold bind, try_except_Exception.
      rewrite (discover_page_answer w (S i) acc _ (rs i) total);
        [|apply Hans; unfold n; lia].
      cbn [fst snd issued slept].
      assert (Hn : (n - i = S (n - S i))%nat) by (unfold n; lia).
      rewrite Hn. cbn [seq fmap list_fmap concat].
      destruct (Nat.leb_spec total (S i)) as [Hle|Hgt].
      + assert (n = S i) as Hn' by (unfold n; lia).
        rewrite Hn', Nat.sub_diag. cbn. rewrite app_nil_r.
        unfold ret. repeat f_equal. lia.
      + replace (S (issued st + i)) with (issued st + S i)%nat by lia.
        rewrite (IH (S i) (acc ++ rs i)) by lia.
        now rewrite <- app_assoc. }
  specialize (G pages 0%nat [] eq_refl Htotal).
  rewrite Nat.add_0_r, Nat.sub_0_r in G. cbn [app] in G.
  destruct st as [n0 sl]. exact G.
Qed.

Lemma discover_fetches_pages_in_order_witness :
  let w : world := fun _ => respond 200 Scenario.discover_page_1 in
  let rs : nat -> list pyval := fun _ => [VDict Scenario.candidate] in
  (window_in_range Scenario.today 90 /\ (1 <= 1)%nat /\
   (forall i, (i < Nat.min 1 5)%nat -> page_answer w (issued st0 + i) (rs i) 1)) /\
  discover_new_movies w "US" Scenario.today 90 5 st0
  = (Ok (concat (rs <$> seq 0 (Nat.min 1 5))),
     {| issued := issued st0 + Nat.min 1 5; slept := slept st0 |}).
Proof.
  intros w rs.
  assert (H0 : window_in_range Scenario.today 90)
    by (unfold window_in_range, Scenario.today, MAX_ORDINAL; lia).
  assert (H1 : (1 <= 1)%nat) by lia.
  assert (H2 : forall i, (i < Nat.min 1 5)%nat ->
                         page_answer w (issued st0 + i) (rs i) 1).
  { intros i _. eexists _, _. split; [reflexivity|].
    split; [unfold reaches_decoding; cbn; lia|]. repeat split. }
  split; [done|].
  exact (discover_fetches_pages_in_order w "US" Scenario.today 90 5 st0 1 rs
           H0 H1 H2).
Defined.

Lemma discover_loop_bounded w pages acc st :
  (issued st <= issued (discover_loop w pages acc st).2
     <= issued st + 3 * length pages)%nat /\
  (forall e, (discover_loop w pages acc st).1 = Raise e -> is_SystemExit e) /\
  (forall out, (discover_loop w pages acc st).1 = Ok out ->
               exists more, out = acc ++ more).
Proof.
  revert acc st. induction pages as [|page rest IH]; intros acc st.
  - cbn. split; [lia|]. split; [done|]. intros out [= <-]. exists [].
    now rewrite app_nil_r.
  - assert (Hstep : discover_loop w (page :: rest) acc st
                    = match discover_page w page acc st with
                      | (Ok r, st1) =>
                          match r.2 with
                          | Continue => discover_loop w rest r.1 st1
                          | Break => (Ok r.1, st1)
                          end
                      | (Raise e, st1) =>
                          if is_Exception e then discover_loop w rest acc st1
                          else (Raise e, st1)
                      end).
    { cbn [discover_loop]. unfold bind, try_except_Exception.
      destruct (discover_page w page acc st) as [[r|e] st1];
        [now destruct r.2|now destruct (is_Exception e)]. }
    rewrite Hstep. clear Hstep. cbn [length].
    assert (Hpage : forall st,
      (issued st <= issued (discover_page w page acc st).2 <= issued st + 3)%nat /\
      (forall e, (discover_page w page acc st).1 = Raise e ->
                 (_get w 3 st).1 = Raise e) /\
      (forall r, (discover_page w page acc st).1 = Ok r ->
                 exists more, r.1 = acc ++ more)).
    { intros st'. pose proof (get_issued_bound w 3 st') as Hb.
      unfold discover_page, bind.
      destruct (_get w 3 st') as [[data|e] st1]; cbn [fst snd] in *;
        [|split; [done|]; split; [now intros e' [= <-]|done]].
      assert (Hskip : forall r, (Ok (acc, Continue) : result _) = Ok r ->
                                exists more, r.1 = acc ++ more).
      { intros r [= <-]. exists []. cbn. now rewrite app_nil_r. }
      destruct data as [| | | | | |d];
        try (cbn; split; [done|]; split; [done|]; exact Hskip).
      destruct (get_default d "results" (VList [])) as [| | | | |l|];
        try (cbn; split; [done|]; split; [done|]; exact Hskip).
      destruct (as_int _) as [t|]; [destruct (t <=? Z.of_nat page)|];
        cbn; (split; [done|]; split; [done|]);
        intros r [= <-]; exists l; done. }
    destruct (Hpage st) as (Hb & Hraise & Hok).
    destruct (discover_page w page acc st) as [[r|e] st1] eqn:E;
      cbn [fst snd] in *.
    + destruct (Hok r eq_refl) as [more Hr].
      destruct r.2.
      * destruct (IH r.1 st1) as (Hb' & Hraise' & Hok').
        split; [lia|]. split; [done|].
        intros out Hout. destruct (Hok' out Hout) as [more' ->].
        exists (more ++ more'). rewrite Hr. now rewrite app_assoc.
      * cbn. split; [lia|]. split; [done|]. intros out [= <-]. eauto.
    + destruct (is_Exception e) eqn:Ee; cbn.
      * destruct (IH acc st1) as (Hb' & Hraise' & Hok').
        split; [lia|]. split; [done|done].
      * split; [lia|]. split; [|done]. intros e' [= <-].
        now apply not_Exception_SystemExit.
Qed.

(** Discovery raises [OverflowError] before any request when the window
    gives no date: the number of days is beyond what a [timedelta] holds,
    or the day it leads to is not between 0001-01-01 and 9999-12-31.
    Otherwise it issues at most three requests a page and lets nothing
    but a [SystemExit] out: a page whose fetch fails otherwise is
    skipped. *)
Theorem discover_new_movies_bounded w country today since_days pages st :
  (~ window_in_range today since_days ->
   discover_new_movies w country today since_days pages st = (Raise OverflowError, st)) /\
  (window_in_range today since_days ->
   (issued st <= issued (discover_new_movies w country today since_days pages st).2
      <= issued st + 3 * pages)%nat /\
   (forall e, (discover_new_movies w country today since_days pages st).1 = Raise e ->
              is_SystemExit e)).
Proof.
  split; [apply window_out_of_range|]. intros Hwin.
  rewrite discover_new_movies_in_window by done.
  destruct (discover_loop_bounded w (seq 1 pages) [] st) as (Hb & Hr & _).
  rewrite length_seq in Hb. split; [exact Hb|exact Hr].
Qed.

Lemma discover_new_movies_bounded_witness :
  let w : world := fun _ => respond 200 Scenario.discover_page_1 in
  (~ window_in_range Scenario.today 800000 /\
   window_in_range Scenario.today 90) /\
  discover_new_movies w "US" Scenario.today 800000 5 st0
  = (Raise OverflowError, st0) /\
  (issued st0 <= issued (discover_new_movies w "US" Scenario.today 90 5 st0).2
     <= issued st0 + 3 * 5)%nat /\
  (forall e, (discover_new_movies w "US" Scenario.today 90 5 st0).1 = Raise e ->
             is_SystemExit e).
Proof.
  intros w.
  assert (H1 : ~ window_in_range Scenario.today 800000)
    by (unfold window_in_range, Scenario.today, MAX_ORDINAL; lia).
  assert (H2 : window_in_range Scenario.today 90)
    by (unfold window_in_range, Scenario.today, MAX_ORDINAL; lia).
  split; [done|].
  split.
  - exact (proj1 (discover_new_movies_bounded w "US" Scenario.today 800000 5 st0)
             H1).
  - exact (proj2 (discover_new_movies_bounded w "US" Scenario.today 90 5 st0) H2).
Defined.

End FetchMore.

(** ** More on names and directories *)

Module DirectoryMore.
Import Directory DirectorySpec DirectoryFacts DirectoryMoreSpec.

Lemma lower_ascii_alnum c : is_alnum_lower c = true -> lower_ascii c = c.
Proof.
  unfold is_alnum_lower, lower_ascii. intros H.
  destruct ((65 <=? nat_of_ascii c)%nat && (nat_of_ascii c <=? 90)%nat) eqn:E;
    [|done].
  apply andb_true_iff in E as [E1 E2].
  apply Nat.leb_le in E1, E2.
  apply orb_true_iff in H as [H|H]; apply andb_true_iff in H as [H1 H2];
    apply Nat.leb_le in H1, H2; exfalso; lia.
Qed.

Lemma lower_ascii_idemp c : lower_ascii (lower_ascii c) = lower_ascii c.
Proof.
  destruct ((65 <=? nat_of_ascii c)%nat && (nat_of_ascii c <=? 90)%nat) eqn:E.
  - assert (Hl : lower_ascii c = ascii_of_nat (nat_of_ascii c + 32))
      by (unfold lower_ascii; now rewrite E).
    rewrite Hl. unfold lower_ascii.
    apply andb_true_iff in E as [E1 E2]. apply Nat.leb_le in E1, E2.
    rewrite nat_ascii_embedding by lia.
    destruct (Nat.leb_spec (nat_of_ascii c + 32) 90) as [H|H]; [lia|].
    now rewrite andb_false_r.
  - assert (Hl : lower_ascii c = c) by (unfold lower_ascii; now rewrite E).
    now rewrite !Hl.
Qed.

Lemma lower_idemp s : lower (lower s) = lower s.
Proof. induction s as [|c s IH]; cbn; [done|]. now rewrite lower_ascii_idemp, IH. Qed.

Lemma keep_alnum_forall s : string_forall is_alnum_lower (keep_alnum s) = true.
Proof.
  induction s as [|c s IH]; cbn; [done|].
  destruct (is_alnum_lower c) eqn:E; cbn; [now rewrite E|done].
Qed.

Lemma norm_fixed s : string_forall is_alnum_lower s = true -> _norm s = s.
Proof.
  unfold _norm. induction s as [|c s IH]; cbn; [done|].
  intros [Hc Hs]%andb_true_iff.
  rewrite (lower_ascii_alnum c Hc), Hc. now rewrite IH.
Qed.

Lemma lower_app s1 s2 : lower (s1 ++ s2) = (lower s1 ++ lower s2)%string.
Proof.
  induction s1 as [|c s1 IH]; [done|].
  change (String c s1 ++ s2)%string with (String c (s1 ++ s2)).
  cbn [lower]. rewrite IH. reflexivity.
Qed.

Lemma keep_alnum_app s1 s2 :
  keep_alnum (s1 ++ s2) = (keep_alnum s1 ++ keep_alnum s2)%string.
Proof.
  induction s1 as [|c s1 IH]; [done|].
  change (String c s1 ++ s2)%string with (String c (s1 ++ s2)).
  cbn [keep_alnum]. rewrite IH. now destruct (is_alnum_lower c).
Qed.

(** [_norm] is idempotent, and what it returns is made of lower-case
    letters and digits only. *)
Theorem norm_idempotent s :
  _norm (_norm s) = _norm s /\
  string_forall is_alnum_lower (_norm s) = true.
Proof.
  assert (H : string_forall is_alnum_lower (_norm s) = true)
    by apply keep_alnum_forall.
  split; [now apply norm_fixed|exact H].
Qed.

(** [_norm] ignores case and drops every character that is not a letter
    or a digit, wherever it stands: it distributes over concatenation, it
    gives the same for a string and for its lower-case form, and a
    character that is not a letter or a digit normalizes to nothing. *)
Theorem norm_ignores_case_and_punctuation s1 s2 c :
  _norm (s1 ++ s2) = (_norm s1 ++ _norm s2)%string /\
  _norm (lower s1) = _norm s1 /\
  (is_alnum_lower (lower_ascii c) = false ->
   _norm (s1 ++ String c s2) = _norm (s1 ++ s2)).
Proof.
  assert (Happ : forall a b, _norm (a ++ b) = (_norm a ++ _norm b)%string).
  { intros a b. unfold _norm. now rewrite lower_app, keep_alnum_app. }
  split; [apply Happ|]. split.
  - unfold _norm. now rewrite lower_idemp.
  - intros Hc. rewrite !Happ. f_equal.
    change (String c s2) with (String c "" ++ s2)%string. rewrite Happ.
    unfold _norm at 1. cbn [lower keep_alnum]. now rewrite Hc.
Qed.

Lemma norm_ignores_case_and_punctuation_witness :
  is_alnum_lower (lower_ascii " ") = false /\
  _norm ("Scream" ++ "Box") = (_norm "Scream" ++ _norm "Box")%string /\
  _norm (lower "Scream") = _norm "Scream" /\
  (is_alnum_lower (lower_ascii " ") = false ->
   _norm ("Scream" ++ String " " "Box") = _norm ("Scream" ++ "Box")).
Proof.
  split; [reflexivity|].
  exact (norm_ignores_case_and_punctuation "Scream" "Box" " ").
Defined.

(** [resolve_preferred_ids] allows ids of the directory only.  With
    preferred names, an allowed id belongs to a directory name that has
    the normal form of a preferred name; and the id of such a directory
    name is allowed, when no other id goes with that normal form. *)
Theorem resolve_preferred_ids_matches names id_map pid :
  (pid ∈ resolve_preferred_ids names id_map -> pid ∈ odict_values id_map) /\
  (names <> ∅ -> pid ∈ resolve_preferred_ids names id_map ->
   exists x k, x ∈ names /\ (k, pid) ∈ id_map /\ _norm k = _norm x) /\
  (names <> ∅ ->
   forall x k, x ∈ names -> (k, pid) ∈ id_map -> _norm k = _norm x ->
               unambiguous id_map k pid ->
               pid ∈ resolve_preferred_ids names id_map).
Proof.
  assert (Hsound : names <> ∅ -> pid ∈ resolve_preferred_ids names id_map ->
            exists x k, x ∈ names /\ (k, pid) ∈ id_map /\ _norm k = _norm x).
  { intros Hne. unfold resolve_preferred_ids.
    destruct (decide (names = ∅)) as [|_]; [done|].
    intros (n & Hn & Hl)%elem_of_set_omap.
    apply elem_of_map in Hn as (x & -> & Hx).
    apply norm_to_pid_Some in Hl as (k & Hk & Hnk). eauto. }
  split; [|split; [exact Hsound|]].
  - destruct (decide (names = ∅)) as [->|Hne].
    + unfold resolve_preferred_ids. destruct (decide (∅ = ∅)); [|done].
      now rewrite elem_of_list_to_set.
    + intros H. destruct (Hsound Hne H) as (x & k & _ & Hk & _).
      unfold odict_values. apply list_elem_of_fmap. now exists (k, pid).
  - intros Hne x k Hx Hk Hnk Hun. unfold resolve_preferred_ids.
    destruct (decide (names = ∅)) as [|_]; [done|].
    apply elem_of_set_omap. exists (_norm x).
    split; [apply elem_of_map; eauto|].
    destruct (norm_to_pid id_map !! _norm x) as [pid'|] eqn:E.
    + apply norm_to_pid_Some in E as (k' & Hk' & Hnk').
      f_equal. apply (Hun k' pid' Hk'). congruence.
    + exfalso. rewrite norm_to_pid_None in E. now apply (E (k, pid)).
Qed.

Lemma resolve_preferred_ids_matches_witness :
  let names : gset string := {["Net-Flix"]} in
  let id_map := [("netflix", 8); ("hulu", 15)] in
  (names <> ∅ /\ "Net-Flix" ∈ names /\ ("netflix", 8) ∈ id_map /\
   _norm "netflix" = _norm "Net-Flix" /\ unambiguous id_map "netflix" 8) /\
  8 ∈ resolve_preferred_ids names id_map.
Proof.
  intros names id_map.
  assert (H1 : names <> ∅) by (unfold names; set_solver).
  assert (H2 : "Net-Flix" ∈ names) by (unfold names; set_solver).
  assert (H3 : ("netflix", 8) ∈ id_map) by left.
  assert (H4 : _norm "netflix" = _norm "Net-Flix") by reflexivity.
  assert (H5 : unambiguous id_map "netflix" 8).
  { intros k' pid' Hin Hn. unfold id_map in Hin. set_unfold in Hin.
    destruct Hin as [[= -> ->]|[[= -> ->]|[]]]; [done|discriminate]. }
  split; [done|].
  exact (proj2 (proj2 (resolve_preferred_ids_matches names id_map 8))
           H1 "Net-Flix" "netflix" H2 H3 H4 H5).
Defined.

(** *** The maps of [fetch_provider_id_map] *)

Lemma lstrip_fixed s :
  match s with String c _ => is_space c = false | EmptyString => True end ->
  lstrip s = s.
Proof. destruct s as [|c s]; cbn; [done|]. now intros ->. Qed.

Lemma lstrip_head s :
  match lstrip s with String c _ => is_space c = false | EmptyString => True end.
Proof.
  induction s as [|c s IH]; cbn; [done|].
  destruct (is_space c) eqn:E; [done|]. exact E.
Qed.

Lemma rstrip_head s :
  match s with String c _ => is_space c = false | EmptyString => True end ->
  match rstrip s with String c _ => is_space c = false | EmptyString => True end.
Proof.
  destruct s as [|c s]; cbn; [done|]. intros Hc.
  destruct (rstrip s); [now rewrite Hc|done].
Qed.

Lemma rstrip_cons c s :
  rstrip (String c s)
  = match rstrip s with
    | EmptyString => if is_space c then EmptyString else String c EmptyString
    | String d r => String c (String d r)
    end.
Proof. reflexivity. Qed.

Lemma rstrip_idemp s : rstrip (rstrip s) = rstrip s.
Proof.
  induction s as [|c s IH]; [done|]. rewrite rstrip_cons.
  destruct (rstrip s) as [|d r] eqn:E.
  - destruct (is_space c) eqn:Ec; [done|]. rewrite rstrip_cons. cbn [rstrip].
    now rewrite Ec.
  - rewrite rstrip_cons, IH. reflexivity.
Qed.

Lemma strip_idemp s : strip (strip s) = strip s.
Proof.
  unfold strip.
  rewrite (lstrip_fixed (rstrip (lstrip s))).
  - apply rstrip_idemp.
  - apply rstrip_head, lstrip_head.
Qed.

Lemma lower_nonempty s : lower s = "" -> s = "".
Proof. now destruct s. Qed.

(** The name-to-id map has non-empty lower-case keys and the id-to-name
    map has non-empty names without surrounding white space; the ids of
    the first are keys of the second, and one map is empty exactly when
    the other is. *)
Theorem provider_maps_well_formed py_repr results :
  let maps := provider_maps py_repr results in
  (forall k pid, (k, pid) ∈ maps.1 -> k <> "" /\ lower k = k) /\
  (forall pid name, (pid, name) ∈ maps.2 -> name <> "" /\ strip name = name) /\
  (forall k pid, (k, pid) ∈ maps.1 -> exists name, odict_get pid maps.2 = Some name) /\
  (maps.1 = [] <-> maps.2 = []).
Proof.
  intros maps.
  assert (Hset : forall {K V} `{EqDecision K} (P : K * V -> Prop) k v d,
            P (k, v) -> (forall kv, kv ∈ d -> P kv) ->
            forall kv, kv ∈ odict_set k v d -> P kv).
  { intros K V ? P k v d Hkv. induction d as [|[k0 v0] d IH]; cbn; intros Hd kv.
    - intros ->%list_elem_of_singleton. done.
    - destruct (decide (k = k0)) as [->|].
      + intros [->|Hin]%elem_of_cons; [done|]. apply Hd. now right.
      + intros [->|Hin]%elem_of_cons; [apply Hd; left|].
        apply IH; [|done]. intros kv' Hin'. apply Hd. now right. }
  pose (P := fun acc : list (string * Z) * list (Z * string) =>
               (forall kv, kv ∈ acc.1 -> kv.1 <> "" /\ lower kv.1 = kv.1) /\
               (forall kv, kv ∈ acc.2 -> kv.2 <> "" /\ strip kv.2 = kv.2)).
  assert (Hstep : forall acc p, P acc -> P (add_provider py_repr acc p)).
  { intros acc p [H1 H2]. unfold add_provider.
    destruct p as [| | | | | |d]; try done.
    destruct (as_int _) as [n|]; [|done].
    destruct (String.eqb_spec (strip (py_str py_repr
                (get_default d "provider_name" (VStr "")))) "") as [|Hne];
      cbn [negb]; [done|]. split; cbn [fst snd].
    - apply (Hset _ _ _ (fun kv => kv.1 <> "" /\ lower kv.1 = kv.1)); [|done].
      cbn. split; [intros H; now apply lower_nonempty in H|apply lower_idemp].
    - apply (Hset _ _ _ (fun kv => kv.2 <> "" /\ strip kv.2 = kv.2)); [|done].
      cbn. split; [done|apply strip_idemp]. }
  assert (Hfold : forall acc, P acc -> P (foldl (add_provider py_repr) acc results)).
  { induction results as [|p rest IH]; intros acc Hacc; cbn [foldl]; [done|].
    apply IH. now apply Hstep. }
  assert (Hinv : P maps).
  { apply Hfold. split; intros kv H; now apply elem_of_nil in H. }
  destruct Hinv as [H1 H2].
  destruct (provider_maps_agree py_repr results) as [Hnil Hsub].
  fold maps in Hnil, Hsub.
  split; [intros k pid H; exact (H1 _ H)|].
  split; [intros pid name H; exact (H2 _ H)|].
  split; [|exact Hnil].
  intros k pid Hin.
  assert (pid ∈ odict_keys maps.2) as Hk.
  { apply Hsub. unfold odict_values. apply list_elem_of_fmap. now exists (k, pid). }
  apply GroupFacts.odict_get_Some_key in Hk. exact Hk.
Qed.

(** A genre name found in the genre map comes from an entry of the
    response that is an object with that integer id and that string
    name. *)
Theorem genre_map_of_sound genres i name :
  genre_map_of genres !! i = Some name ->
  exists g d v, g ∈ genres /\ g = VDict d /\
                odict_get "id" d = Some v /\ as_int v = Some i /\
                odict_get "name" d = Some (VStr name).
Proof.
  unfold genre_map_of.
  assert (G : forall (acc : gmap Z string),
    foldl (fun acc g => match genre_entry g with
                        | Some (i, name) => <[i := name]> acc
                        | None => acc
                        end) acc genres !! i = Some name ->
    acc !! i = Some name \/
    exists g, g ∈ genres /\ genre_entry g = Some (i, name)).
  { induction genres as [|g rest IH]; intros acc; cbn [foldl]; [auto|].
    intros H. apply IH in H as [H|(g' & Hin & Hg')].
    - destruct (genre_entry g) as [[i' name']|] eqn:E; [|auto].
      apply lookup_insert_Some in H as [[<- <-]|[_ H]]; [|auto].
      right. exists g. split; [left|done].
    - right. exists g'. split; [now right|done]. }
  intros H. apply G in H as [H|(g & Hin & Hg)];
    [now rewrite lookup_empty in H|].
  unfold genre_entry in Hg. destruct g as [| | | | | |d]; try done.
  destruct (odict_get "id" d) as [v|] eqn:Ei; [|done].
  destruct (odict_get "name" d) as [[| | | |nm| |]|] eqn:En; try done.
  destruct (as_int v) as [n|] eqn:Ev; [|done]. cbn in Hg.
  injection Hg as <- <-. exists (VDict d), d, v. done.
Qed.

Lemma genre_map_of_sound_witness :
  genre_map_of [VDict [("id", VInt 28); ("name", VStr "Action")]] !! 28
    = Some "Action" /\
  exists g d v,
    g ∈ [VDict [("id", VInt 28); ("name", VStr "Action")]] /\ g = VDict d /\
    odict_get "id" d = Some v /\ as_int v = Some 28 /\
    odict_get "name" d = Some (VStr "Action").
Proof.
  assert (H : genre_map_of [VDict [("id", VInt 28); ("name", VStr "Action")]]
              !! 28 = Some "Action") by (vm_compute; reflexivity).
  split; [exact H|]. exact (genre_map_of_sound _ 28 "Action" H).
Defined.

End DirectoryMore.

(** ** More on enrichment *)

Module EnrichMore.
Import Http HttpGet HttpSpec HttpMoreSpec HttpMore FetchMore.
Import Directory DirectoryMore Fetch Enrich EnrichSpec EnrichFacts OrderSpec.

Lemma ascii_compare_lt_trans a b c :
  Ascii.compare a b = Lt -> Ascii.compare b c = Lt -> Ascii.compare a c = Lt.
Proof.
  unfold Ascii.compare. rewrite !N.compare_lt_iff. apply N.lt_trans.
Qed.

Lemma string_lt_trans s1 s2 s3 :
  string_lt s1 s2 -> string_lt s2 s3 -> string_lt s1 s3.
Proof.
  unfold string_lt. revert s2 s3.
  induction s1 as [|a s1 IH]; intros [|b s2] [|c s3]; cbn; try done.
  destruct (Ascii.compare a b) eqn:Eab; try done;
    destruct (Ascii.compare b c) eqn:Ebc; try done.
  - apply Ascii.compare_eq_iff in Eab, Ebc. subst.
    assert (Ascii.compare c c = Eq) as ->
      by (unfold Ascii.compare; apply N.compare_refl).
    apply IH.
  - apply Ascii.compare_eq_iff in Eab. subst. now rewrite Ebc.
  - apply Ascii.compare_eq_iff in Ebc. subst. now rewrite Eab.
  - now rewrite (ascii_compare_lt_trans a b c).
Qed.

Lemma string_lt_irrefl s : ~ string_lt s s.
Proof.
  unfold string_lt. induction s as [|a s IH]; cbn; [done|].
  assert (Ascii.compare a a = Eq) as ->
    by (unfold Ascii.compare; apply N.compare_refl).
  exact IH.
Qed.

Lemma pairwise_NoDup {A} (R : A -> A -> Prop) l :
  (forall x, ~ R x x) -> pairwise R l -> NoDup l.
Proof.
  intros Hirr. induction l as [|x l IH]; cbn; [constructor|].
  intros [Hx Hl]. constructor; [|auto].
  intros Hin. rewrite Forall_forall in Hx. now apply (Hirr x), Hx.
Qed.

Lemma elem_of_insert_unique x l y :
  y ∈ insert_unique x l <-> y = x \/ y ∈ l.
Proof.
  induction l as [|z l IH]; cbn.
  - rewrite list_elem_of_singleton, elem_of_nil. tauto.
  - destruct (String.compare x z) eqn:E.
    + apply String.compare_eq_iff in E as ->. rewrite elem_of_cons. tauto.
    + rewrite !elem_of_cons. tauto.
    + rewrite !elem_of_cons, IH. tauto.
Qed.

Lemma elem_of_sorted_set l y : y ∈ sorted_set l <-> y ∈ l.
Proof.
  induction l as [|x l IH]; cbn [sorted_set foldr]; [done|].
  fold (sorted_set l). rewrite elem_of_insert_unique, IH, elem_of_cons. tauto.
Qed.

Lemma insert_unique_increasing x l :
  pairwise string_lt l -> pairwise string_lt (insert_unique x l).
Proof.
  induction l as [|z l IH]; cbn [insert_unique pairwise].
  - intros _. split; [constructor|done].
  - intros [Hz Hl]. destruct (String.compare x z) eqn:E; cbn [pairwise].
    + done.
    + split; [|done]. constructor; [exact E|].
      eapply Forall_impl; [exact Hz|]. intros y Hy.
      now apply (string_lt_trans x z y).
    + split; [|now apply IH]. apply Forall_forall. intros y Hy.
      apply elem_of_insert_unique in Hy as [->|Hy].
      * unfold string_lt. rewrite String.compare_antisym, E. reflexivity.
      * rewrite Forall_forall in Hz. now apply Hz.
Qed.

Lemma sorted_set_increasing l : pairwise string_lt (sorted_set l).
Proof.
  induction l as [|x l IH]; cbn [sorted_set foldr]; [done|].
  now apply insert_unique_increasing.
Qed.

(** The picked names are in strictly increasing order, hence without
    repetition; a name is picked exactly when it is the stripped, non-empty
    name of an entry under [flatrate] or [ads] whose id is allowed. *)
Theorem picked_names_sorted_and_exact wp allowed_ids :
  pairwise string_lt (pick_flatrate_providers wp allowed_ids) /\
  NoDup (pick_flatrate_providers wp allowed_ids) /\
  forall name,
    name ∈ pick_flatrate_providers wp allowed_ids <->
    exists item, item ∈ provider_entries wp /\
                 allowed_entry allowed_ids item name.
Proof.
  assert (Hs : pairwise string_lt (pick_flatrate_providers wp allowed_ids))
    by apply sorted_set_increasing.
  split; [exact Hs|]. split.
  - apply (pairwise_NoDup string_lt); [apply string_lt_irrefl|exact Hs].
  - intros name. unfold pick_flatrate_providers, provider_entries.
    rewrite elem_of_sorted_set, !pick_section_items, <- omap_app.
    rewrite list_elem_of_omap. split.
    + intros (item & Hin & Hp). exists item. split; [done|].
      now apply pick_item_allowed.
    + intros (item & Hin & Hp). exists item. split; [done|].
      now apply pick_item_allowed.
Qed.

Lemma resolve_genres_from genre_map ids names :
  resolve_genres genre_map ids = Ok names ->
  forall g, g ∈ names -> exists i, genre_map !! i = Some g.
Proof.
  revert names. induction ids as [|x ids IH]; intros names; cbn.
  - intros [= <-] g Hg. now apply elem_of_nil in Hg.
  - destruct (int_key x) as [k|]; [|done]. cbn.
    destruct (resolve_genres genre_map ids) as [rest|]; [|done]. cbn.
    destruct (k ≫= _) as [name|] eqn:E; intros [= <-] g Hg.
    + apply elem_of_cons in Hg as [->|Hg]; [|now apply (IH rest)].
      destruct k as [i|]; [|done]. cbn in E. eauto.
    + now apply (IH rest).
Qed.

(** A movie that is built has at least one genre, and each of its genres
    is a name of the genre map or the placeholder. *)
Theorem built_movie_has_genres genre_map m picked imdb mv :
  build_movie genre_map m picked imdb = Ok mv ->
  genres mv <> [] /\
  (forall g, g ∈ genres mv ->
             g = "Uncategorized" \/ exists i, genre_map !! i = Some g) /\
  providers mv = join ", " picked /\ imdb_id mv = imdb.
Proof.
  unfold build_movie. intros Hb.
  destruct (genres_of genre_map m) as [gs|] eqn:Eg; [|done]. cbn in Hb.
  destruct (py_slice4 _); [|done]. cbn in Hb.
  destruct (py_round1 _); [|done]. cbn in Hb.
  destruct (py_int _); [|done]. cbn in Hb.
  destruct (py_float _); [|done]. cbn in Hb.
  injection Hb as <-. cbn [genres providers imdb_id].
  unfold genres_of in Eg.
  destruct (py_iter _) as [ids|]; [|done]. cbn in Eg.
  destruct (resolve_genres genre_map ids) as [names|] eqn:En; [|done].
  cbn in Eg. injection Eg as <-.
  pose proof (resolve_genres_from genre_map ids names En) as Hfrom.
  destruct names as [|n names].
  - split; [done|]. split; [|done].
    intros g ->%list_elem_of_singleton. now left.
  - split; [done|]. split; [|done]. intros g Hg. right. now apply Hfrom.
Qed.

Lemma built_movie_has_genres_witness :
  let mv := Scenario.enriched_movie in
  build_movie Scenario.genre_map Scenario.candidate ["Netflix"]
    (Some "tt0133093") = Ok mv /\
  genres mv <> [] /\
  (forall g, g ∈ genres mv ->
             g = "Uncategorized" \/ exists i, Scenario.genre_map !! i = Some g) /\
  providers mv = join ", " ["Netflix"] /\ imdb_id mv = Some "tt0133093".
Proof.
  intros mv.
  assert (H : build_movie Scenario.genre_map Scenario.candidate ["Netflix"]
                (Some "tt0133093") = Ok mv) by (vm_compute; reflexivity).
  split; [exact H|].
  exact (built_movie_has_genres Scenario.genre_map Scenario.candidate
           ["Netflix"] (Some "tt0133093") mv H).
Defined.

Lemma get_watch_providers_issued COUNTRY w st :
  (issued st <= issued (get_watch_providers COUNTRY w st).2 <= issued st + 3)%nat.
Proof.
  pose proof (get_issued_bound w 3 st) as Hb.
  unfold get_watch_providers, try_except_Exception, bind.
  destruct (_get w 3 st) as [[data|e] st1]; cbn [fst snd] in *.
  - destruct data as [| | | | | |d]; try done.
    destruct (get_default d "results" (VDict [])) as [| | | | | |results];
      try done.
    now destruct (get_default results COUNTRY (VDict [])).
  - now destruct (is_Exception e).
Qed.

Lemma get_imdb_id_issued py_repr w st :
  (issued st <= issued (get_imdb_id py_repr w st).2 <= issued st + 3)%nat.
Proof.
  pose proof (get_issued_bound w 3 st) as Hb.
  unfold get_imdb_id, try_except_Exception, bind.
  destruct (_get w 3 st) as [[data|e] st1]; cbn [fst snd] in *.
  - now destruct data.
  - now destruct (is_Exception e).
Qed.

Lemma process_candidate_outcome py_repr COUNTRY w genre_map allowed_ids m st :
  (issued st
     <= issued (process_candidate py_repr COUNTRY w genre_map allowed_ids m st).2
     <= issued st + 6)%nat /\
  forall mv,
    (process_candidate py_repr COUNTRY w genre_map allowed_ids m st).1
      = Ok (Some mv) ->
    genres mv <> [].
Proof.
  unfold process_candidate, bind, lift.
  destruct (py_getitem m "id"); [|split; [cbn; lia|done]].
  pose proof (get_watch_providers_issued COUNTRY w st) as Hw.
  destruct (get_watch_providers COUNTRY w st) as [[wp|e] st1];
    cbn [fst snd] in *; [|split; [lia|done]].
  destruct (pick_flatrate_providers wp allowed_ids) as [|name rest];
    [split; [cbn; lia|done]|].
  pose proof (get_imdb_id_issued py_repr w st1) as Hi.
  destruct (get_imdb_id py_repr w st1) as [[imdb|e] st2];
    cbn [fst snd] in *; [|split; [lia|done]].
  destruct m as [| | | | | |d]; try (split; [cbn; lia|done]).
  destruct (build_movie genre_map d (name :: rest) imdb) as [mv|e] eqn:Eb;
    cbn; (split; [lia|]); [|done].
  intros mv' [= <-].
  unfold build_movie in Eb.
  destruct (genres_of genre_map d) as [gs|] eqn:Eg; [|done]. cbn in Eb.
  destruct (py_slice4 _); [|done]. cbn in Eb.
  destruct (py_round1 _); [|done]. cbn in Eb.
  destruct (py_int _); [|done]. cbn in Eb.
  destruct (py_float _); [|done]. cbn in Eb.
  injection Eb as <-. cbn [genres].
  unfold genres_of in Eg.
  destruct (py_iter _) as [ids|]; [|done]. cbn in Eg.
  destruct (resolve_genres genre_map ids) as [[|n names]|]; [| |done];
    cbn in Eg; now injection Eg as <-.
Qed.

(** The loop over the candidates only appends: what it returns is the
    list it started from followed by at most one movie a candidate, each
    with at least one genre; and it issues at most six requests a
    candidate. *)
Theorem collect_movies_appends
    py_repr COUNTRY w genre_map allowed_ids candidates movies st :
  (issued st
     <= issued (collect_movies py_repr COUNTRY w genre_map allowed_ids
                  candidates movies st).2
     <= issued st + 6 * length candidates)%nat /\
  forall out,
    (collect_movies py_repr COUNTRY w genre_map allowed_ids
       candidates movies st).1 = Ok out ->
    exists more, out = movies ++ more /\
                 (length more <= length candidates)%nat /\
                 Forall (fun mv => genres mv <> []) more.
Proof.
  revert movies st. induction candidates as [|m rest IH]; intros movies st.
  - cbn. split; [lia|]. intros out [= <-]. exists []. rewrite app_nil_r.
    split; [done|]. split; [done|constructor].
  - cbn [collect_movies length]. unfold bind.
    destruct (process_candidate_outcome py_repr COUNTRY w genre_map
                allowed_ids m st) as [Hb Hg].
    destruct (process_candidate py_repr COUNTRY w genre_map allowed_ids m st)
      as [[r|e] st1]; cbn [fst snd] in *; [|split; [lia|done]].
    destruct (IH (match r with Some mv => movies ++ [mv] | None => movies end)
                st1) as [Hb' Hout].
    split; [lia|]. intros out Ho. destruct (Hout out Ho) as (more & -> & Hl & Hf).
    destruct r as [mv|].
    + exists (mv :: more). rewrite <- app_assoc. split; [done|].
      split; [cbn; lia|]. constructor; [now apply Hg|done].
    + exists more. split; [done|]. split; [lia|done].
Qed.

End EnrichMore.

(** ** More on the score *)

Module RankMore.
Import Rank RankSpec RankFacts.
Open Scope Q_scope.

Lemma rank_score_value va vc p fa fp r pc n :
  py_float (or_zero va) = Ok fa -> py_float (or_zero p) = Ok fp ->
  pymax (Fin 0) (pymin (Fin 10) fa) = Fin r ->
  fdiv (pymax (Fin 0) fp) (Fin 100) = Ok pc -> pymin (Fin 10) pc = Fin n ->
  rank_score va vc p = Ok (Fin (score_of (sanitize_votes vc) r n)).
Proof.
  intros Ha Hp Hr Hpc Hn. unfold rank_score. rewrite Ha, Hp.
  cbn [mbind result_bind]. unfold int_truediv.
  pose proof (sanitize_votes_nonneg vc) as Hv.
  destruct (Z.eqb_spec (sanitize_votes vc + m) 0) as [E|_]; [unfold m in E; lia|].
  rewrite Hr, Hpc. cbn [mbind result_bind]. rewrite Hn. reflexivity.
Qed.

(** The sanitized rating: the rating cut to the range from 0 to 10. *)
Lemma rating_clamp q :
  exists r, pymax (Fin 0) (pymin (Fin 10) (Fin q)) = Fin r /\
            (q <= 0 -> r == 0) /\ (0 <= q <= 10 -> r == q) /\
            (10 <= q -> r == 10).
Proof.
  unfold pymin, pymax; cbn [flt].
  destruct (Qle_bool 10 q) eqn:E10; cbn [negb flt].
  - apply Qle_bool_iff in E10. exists 10. cbn.
    repeat split; intros; try reflexivity; lra.
  - apply Qle_bool_false in E10.
    destruct (Qle_bool q 0) eqn:E0; cbn [negb].
    + apply Qle_bool_iff in E0. exists 0.
      repeat split; intros; try reflexivity; lra.
    + apply Qle_bool_false in E0. exists q.
      repeat split; intros; try reflexivity; lra.
Qed.

(** The normalized popularity: a hundredth of the popularity, cut to the
    range from 0 to 10. *)
Lemma popularity_norm p :
  exists pc n, fdiv (pymax (Fin 0) (Fin p)) (Fin 100) = Ok pc /\
               pymin (Fin 10) pc = Fin n /\
               (p <= 0 -> n == 0) /\ (0 <= p <= 1000 -> n == p / 100) /\
               (1000 <= p -> n == 10).
Proof.
  assert (Hdiv : forall x, fdiv (Fin x) (Fin 100) = Ok (Fin (x / 100)))
    by reflexivity.
  assert (Hmin : forall x, 0 <= x ->
            exists n, pymin (Fin 10) (Fin (x / 100)) = Fin n /\
                      (x <= 1000 -> n == x / 100) /\ (1000 <= x -> n == 10)).
  { intros x Hx. unfold pymin; cbn [flt].
    destruct (Qle_bool 10 (x / 100)) eqn:E; cbn [negb].
    - apply Qle_bool_iff in E. exists 10.
      change (x / 100) with (x * (1 # 100)) in *.
      split; [done|]. split; [intros; lra|reflexivity].
    - apply Qle_bool_false in E. exists (x / 100).
      change (x / 100) with (x * (1 # 100)) in *.
      split; [done|]. split; [reflexivity|]. intros. lra. }
  unfold pymax; cbn [flt].
  destruct (Qle_bool p 0) eqn:E; cbn [negb].
  - apply Qle_bool_iff in E.
    destruct (Hmin 0) as (n & Hn & Hn1 & _); [lra|].
    exists (Fin (0 / 100)), n. rewrite Hdiv. split; [done|]. split; [done|].
    assert (n == 0) as Hn0 by (rewrite Hn1 by lra; reflexivity).
    change (p / 100) with (p * (1 # 100)).
    repeat split; intros; lra.
  - apply Qle_bool_false in E.
    destruct (Hmin p) as (n & Hn & Hn1 & Hn2); [lra|].
    exists (Fin (p / 100)), n. rewrite Hdiv. split; [done|]. split; [done|].
    repeat split; intros; [lra|apply Hn1; lra|now apply Hn2].
Qed.

Lemma score_of_mono_rating_popularity v r1 r2 n1 n2 :
  (0 <= v)%Z -> r1 <= r2 -> n1 <= n2 -> score_of v r1 n1 <= score_of v r2 n2.
Proof.
  intros Hv Hr Hn. unfold score_of.
  pose proof (weight_votes_range v Hv) as Hw.
  set (w := weight v v) in *. clearbody w.
  set (k := weight m v * (13 # 2)). clearbody k. nra.
Qed.

(** With the vote count fixed, a higher rating and a higher popularity
    never give a lower score. *)
Theorem rank_score_monotone_in_rating_and_popularity (r1 r2 p1 p2 : Q) (v : pyval) :
  r1 <= r2 -> p1 <= p2 ->
  exists s1 s2,
    rank_score (VFloat (Fin r1)) v (VFloat (Fin p1)) = Ok (Fin s1) /\
    rank_score (VFloat (Fin r2)) v (VFloat (Fin p2)) = Ok (Fin s2) /\
    s1 <= s2.
Proof.
  intros Hr Hp.
  destruct (rating_clamp r1) as (c1 & Ec1 & A1 & B1 & C1).
  destruct (rating_clamp r2) as (c2 & Ec2 & A2 & B2 & C2).
  destruct (popularity_norm p1) as (pc1 & n1 & Ep1 & En1 & D1 & E1 & F1).
  destruct (popularity_norm p2) as (pc2 & n2 & Ep2 & En2 & D2 & E2 & F2).
  exists (score_of (sanitize_votes v) c1 n1), (score_of (sanitize_votes v) c2 n2).
  split; [now apply (rank_score_value _ _ _ (Fin r1) (Fin p1) c1 pc1 n1)|].
  split; [now apply (rank_score_value _ _ _ (Fin r2) (Fin p2) c2 pc2 n2)|].
  apply score_of_mono_rating_popularity; [apply sanitize_votes_nonneg| |].
  - destruct (Qlt_le_dec r1 0), (Qlt_le_dec r2 0),
      (Qlt_le_dec 10 r1), (Qlt_le_dec 10 r2);
      rewrite ?A1, ?B1, ?C1, ?A2, ?B2, ?C2 by lra; lra.
  - change (p1 / 100) with (p1 * (1 # 100)) in *.
    change (p2 / 100) with (p2 * (1 # 100)) in *.
    destruct (Qlt_le_dec p1 0), (Qlt_le_dec p2 0),
      (Qlt_le_dec 1000 p1), (Qlt_le_dec 1000 p2);
      rewrite ?D1, ?E1, ?F1, ?D2, ?E2, ?F2 by lra; lra.
Qed.

Lemma rank_score_monotone_in_rating_and_popularity_witness :
  (7 <= 8 /\ 45 <= 900) /\
  exists s1 s2,
    rank_score (VFloat (Fin 7)) (VInt 500) (VFloat (Fin 45)) = Ok (Fin s1) /\
    rank_score (VFloat (Fin 8)) (VInt 500) (VFloat (Fin 900)) = Ok (Fin s2) /\
    s1 <= s2.
Proof.
  assert (H1 : 7 <= 8) by discriminate.
  assert (H2 : 45 <= 900) by discriminate.
  split; [done|].
  exact (rank_score_monotone_in_rating_and_popularity 7 8 45 900 (VInt 500) H1 H2).
Defined.



(** The popularity counts up to 1000 only: any popularity from 1000 on,
    infinite included, gives the score of 1000. *)
Theorem rank_score_popularity_saturates (r p : Q) (vc : pyval) :
  1000 <= p ->
  exists s1 s2 s3,
    rank_score (VFloat (Fin r)) vc (VFloat (Fin p)) = Ok (Fin s1) /\
    rank_score (VFloat (Fin r)) vc (VFloat (Fin 1000)) = Ok (Fin s2) /\
    rank_score (VFloat (Fin r)) vc (VFloat PosInf) = Ok (Fin s3) /\
    s1 == s2 /\ s1 == s3.
Proof.
  intros Hp.
  destruct (rating_clamp r) as (c & Ec & _).
  destruct (popularity_norm p) as (pc1 & n1 & Ep1 & En1 & _ & _ & F1).
  destruct (popularity_norm 1000) as (pc2 & n2 & Ep2 & En2 & _ & _ & F2).
  exists (score_of (sanitize_votes vc) c n1), (score_of (sanitize_votes vc) c n2),
         (score_of (sanitize_votes vc) c 10).
  split; [now apply (rank_score_value _ _ _ (Fin r) (Fin p) c pc1 n1)|].
  split; [now apply (rank_score_value _ _ _ (Fin r) (Fin 1000) c pc2 n2)|].
  split; [now apply (rank_score_value _ _ _ (Fin r) PosInf c PosInf 10)|].
  unfold score_of. rewrite (F1 Hp), F2 by lra. split; reflexivity.
Qed.

Lemma rank_score_popularity_saturates_witness :
  1000 <= 5000 /\
  exists s1 s2 s3,
    rank_score (VFloat (Fin 8)) (VInt 500) (VFloat (Fin 5000)) = Ok (Fin s1) /\
    rank_score (VFloat (Fin 8)) (VInt 500) (VFloat (Fin 1000)) = Ok (Fin s2) /\
    rank_score (VFloat (Fin 8)) (VInt 500) (VFloat PosInf) = Ok (Fin s3) /\
    s1 == s2 /\ s1 == s3.
Proof.
  assert (H : 1000 <= 5000) by discriminate.
  split; [exact H|]. exact (rank_score_popularity_saturates 8 5000 (VInt 500) H).
Defined.

End RankMore.

(** ** More on the ranking order and the grouping *)

Module GroupMore.
Import Enrich Group GroupSpec GroupFacts OrderSpec GroupMoreSpec.

(** *** The insertion sort *)

Section sort_facts.
Context {A : Type} (before : A -> A -> bool) (D : A -> Prop).
Hypothesis asym : forall x y, D x -> D y -> before y x = true -> before x y = false.
Hypothesis trans : forall x y z, D x -> D y -> D z ->
  before y x = false -> before z y = false -> before z x = false.

Lemma insert_sorted_pairwise x l :
  D x -> Forall D l ->
  pairwise (fun a b => before b a = false) l ->
  pairwise (fun a b => before b a = false) (insert_sorted before x l).
Proof.
  intros Hx. induction l as [|y l IH]; intros HD Hs; cbn; [done|].
  inversion HD as [|? ? Hy HDl]; subst. destruct Hs as [Hyl Hs].
  destruct (before y x) eqn:E; cbn.
  - split; [|now apply IH].
    rewrite (insert_sorted_perm before x l). constructor; [|done].
    now apply asym.
  - split; [|done]. constructor; [done|].
    rewrite Forall_forall in Hyl, HDl. apply Forall_forall. intros z Hz.
    apply (trans x y z); auto.
Qed.

Lemma stable_sort_pairwise l :
  Forall D l -> pairwise (fun a b => before b a = false) (stable_sort before l).
Proof.
  induction 1 as [|x l Hx Hl IH]; cbn; [done|].
  apply insert_sorted_pairwise; [done| |done].
  now rewrite (stable_sort_perm before l).
Qed.

End sort_facts.

Lemma insert_sorted_filter {A} (before : A -> A -> bool) (P : A -> bool) x l :
  (forall y, y ∈ l -> before y x = true -> P x && P y = false) ->
  List.filter P (insert_sorted before x l) = List.filter P (x :: l).
Proof.
  induction l as [|y l IH]; intros H; [done|]. cbn [insert_sorted].
  destruct (before y x) eqn:E; [|done].
  pose proof (H y (list_elem_of_here _ _) E) as Hxy.
  cbn [List.filter]. rewrite IH by (intros z Hz; apply H; now right).
  cbn [List.filter]. destruct (P x), (P y); done.
Qed.

Lemma stable_sort_filter {A} (before : A -> A -> bool) (P : A -> bool) l :
  (forall x y, x ∈ l -> y ∈ l -> before y x = true -> P x && P y = false) ->
  List.filter P (stable_sort before l) = List.filter P l.
Proof.
  induction l as [|x l IH]; intros H; [done|]. cbn [stable_sort foldr].
  change (foldr (insert_sorted before) [] l) with (stable_sort before l).
  rewrite insert_sorted_filter.
  - cbn [List.filter]. rewrite IH; [done|].
    intros a b Ha Hb. apply H; now right.
  - intros y Hy. rewrite (stable_sort_perm before l) in Hy.
    apply H; [left|now right].
Qed.

Lemma filter_fmap {A B} (f : A -> B) (P : B -> bool) l :
  List.filter P (f <$> l) = f <$> List.filter (fun a => P (f a)) l.
Proof.
  induction l as [|a l IH]; [done|]. cbn. destruct (P (f a)); cbn; now rewrite IH.
Qed.

Lemma pairwise_fmap {A B} (f : A -> B) (D : A -> Prop) (R : A -> A -> Prop)
    (R' : B -> B -> Prop) l :
  (forall a b, D a -> D b -> R a b -> R' (f a) (f b)) ->
  Forall D l -> pairwise R l -> pairwise R' (f <$> l).
Proof.
  intros HR. induction 1 as [|a l Ha Hl IH]; [done|]. cbn.
  intros [Hal Hs]. split; [|auto].
  apply Forall_fmap. rewrite Forall_forall in Hal, Hl. apply Forall_forall.
  intros b Hb. cbn. apply HR; auto.
Qed.

(** *** The order of [sort_by_rank] *)

(** A sort key, when there is one, is a number. *)
Lemma rank_key_finite mv k : rank_key mv = Ok k -> exists s, k = Fin s.
Proof.
  unfold rank_key. intros E.
  destruct (py_float (Rank.or_zero (rating mv))) as [fa|e] eqn:Ea.
  - destruct (RankFacts.rank_score_eq (rating mv) (VInt (votes mv))
                (VFloat (popularity mv)) fa (popularity mv) Ea eq_refl)
      as (r & n & _ & _ & _ & E').
    rewrite E' in E. injection E as <-. eauto.
  - unfold Rank.rank_score in E. rewrite Ea in E. discriminate.
Qed.

Lemma keyed_pairs l keyed :
  mapM (fun mv => k ← rank_key mv; Ok (k, mv)) l = Ok keyed ->
  Forall keyed_pair keyed.
Proof.
  revert keyed. induction l as [|mv l IH]; intros keyed; cbn.
  - intros [= <-]. constructor.
  - destruct (rank_key mv) as [k|] eqn:Ek; [|done]. cbn.
    destruct (mapM _ l) as [rest|]; [|done]. cbn. intros [= <-].
    constructor; [|now apply IH].
    destruct (rank_key_finite mv k Ek) as [s ->]. now exists s.
Qed.

(** [sort_by_rank] orders by descending sort key and is stable: in the
    sorted list no movie is followed by one of a greater key, and the
    movies of any one key are in the order they had before. *)
Theorem sort_by_rank_descending_and_stable (l l' : list movie) :
  sort_by_rank l = Ok l' ->
  pairwise not_below l' /\
  forall q, List.filter (scores q) l' = List.filter (scores q) l.
Proof.
  unfold sort_by_rank.
  destruct (mapM _ l) as [keyed|] eqn:E; [|done]. cbn. intros [= <-].
  pose proof (keyed_pairs l keyed E) as HD.
  pose proof (keyed_movies l keyed E) as Hl.
  set (before := fun y x : pyfloat * movie => flt x.1 y.1).
  split.
  - apply (pairwise_fmap snd keyed_pair (fun a b => before b a = false)).
    + intros a b (sa & Ea & Ka) (sb & Eb & Kb). unfold before.
      rewrite Ea, Eb. cbn. intros H. exists sa, sb. split; [done|]. split; [done|].
      apply Qle_bool_iff. now destruct (Qle_bool sb sa).
    + rewrite (stable_sort_perm before keyed). exact HD.
    + apply (stable_sort_pairwise before keyed_pair); [| |done].
      * intros x y (sx & Ex & _) (sy & Ey & _). unfold before.
        rewrite Ex, Ey. cbn.
        destruct (Qle_bool sy sx) eqn:E1; [done|]. intros _.
        apply RankFacts.Qle_bool_false in E1.
        assert (Hle : (sx <= sy)%Q) by now apply Qlt_le_weak.
        apply Qle_bool_iff in Hle. now rewrite Hle.
      * intros x y z (sx & Ex & _) (sy & Ey & _) (sz & Ez & _). unfold before.
        rewrite Ex, Ey, Ez. cbn.
        destruct (Qle_bool sy sx) eqn:E1; [|done].
        destruct (Qle_bool sz sy) eqn:E2; [|done]. intros _ _.
        apply Qle_bool_iff in E1, E2.
        assert (Hle : (sz <= sx)%Q) by (eapply Qle_trans; eauto).
        apply Qle_bool_iff in Hle. now rewrite Hle.
  - intros q. rewrite <- Hl. rewrite !filter_fmap. f_equal.
    apply stable_sort_filter.
    intros x y Hx Hy. rewrite Forall_forall in HD.
    destruct (HD x Hx) as (sx & Ex & Kx). destruct (HD y Hy) as (sy & Ey & Ky).
    unfold before; cbn beta.
    rewrite Ex, Ey. unfold scores. rewrite Kx, Ky. cbn.
    destruct (Qle_bool sy sx) eqn:E1; [done|]. intros _.
    apply RankFacts.Qle_bool_false in E1.
    destruct (Qeq_bool sx q) eqn:E2; [|done].
    destruct (Qeq_bool sy q) eqn:E3; [|done].
    apply Qeq_bool_iff in E2, E3. rewrite E2, E3 in E1.
    now apply Qlt_irrefl in E1.
Qed.

Lemma sort_by_rank_descending_and_stable_witness :
  sort_by_rank [Scenario.flop; Scenario.hit] = Ok [Scenario.hit; Scenario.flop] /\
  pairwise not_below [Scenario.hit; Scenario.flop] /\
  forall q, List.filter (scores q) [Scenario.hit; Scenario.flop]
            = List.filter (scores q) [Scenario.flop; Scenario.hit].
Proof.
  assert (H : sort_by_rank [Scenario.flop; Scenario.hit]
              = Ok [Scenario.hit; Scenario.flop]) by (vm_compute; reflexivity).
  split; [exact H|].
  exact (sort_by_rank_descending_and_stable _ _ H).
Defined.

(** *** The genre names of [main] *)

Lemma ltb_asym s1 s2 : String.ltb s1 s2 = true -> String.ltb s2 s1 = false.
Proof.
  unfold String.ltb. rewrite (String.compare_antisym s1 s2).
  now destruct (String.compare s2 s1).
Qed.

Lemma ltb_le_trans s1 s2 s3 :
  String.ltb s2 s1 = false -> String.ltb s3 s2 = false -> String.ltb s3 s1 = false.
Proof.
  unfold String.ltb. intros H21 H32.
  destruct (String.compare s3 s1) eqn:E31; try done.
  rewrite (String.compare_antisym s2 s1) in H21.
  destruct (String.compare s1 s2) eqn:E12; try done.
  - apply String.compare_eq_iff in E12 as ->. now rewrite E31 in H32.
  - pose proof (EnrichMore.string_lt_trans s3 s1 s2 E31 E12) as H.
    unfold string_lt in H. now rewrite H in H32.
Qed.

Lemma genre_names_order movies :
  let names := genre_names_sorted (by_genre_of movies) in
  (forall g, g ∈ names <-> exists mv, mv ∈ movies /\ g ∈ genres mv) /\
  pairwise caseless_le names.
Proof.
  intros names.
  assert (Hp : Permutation names (odict_keys (by_genre_of movies)))
    by apply stable_sort_perm.
  split; [intros g; rewrite Hp; apply by_genre_of_keys|].
  unfold names, genre_names_sorted.
  apply (stable_sort_pairwise
           (fun y x => String.ltb (lower y) (lower x)) (fun _ => True)).
  - intros x y _ _. apply ltb_asym.
  - intros x y z _ _ _. apply ltb_le_trans.
  - apply Forall_forall. done.
Qed.

(** The genre names of the reports are the genres met among the
    movies, each once, in alphabetical order with case ignored. *)
Theorem genre_names_sorted_of_movies (movies : list movie) :
  let names := genre_names_sorted (by_genre_of movies) in
  NoDup names /\
  (forall g, g ∈ names <-> exists mv, mv ∈ movies /\ g ∈ genres mv) /\
  pairwise caseless_le names.
Proof.
  intros names.
  assert (Hp : Permutation names (odict_keys (by_genre_of movies)))
    by apply stable_sort_perm.
  split; [rewrite Hp; apply by_genre_of_NoDup|].
  apply genre_names_order.
Qed.

(** *** The cap of [main] *)

(** [main] groups, sorts and caps as follows, for movies whose sort keys
    exist and any cap: the bucket of each genre name is what the cap
    keeps (the first [cap] when it is positive, all otherwise) of the
    genre's movies sorted by rank; so a positive cap bounds the length of
    every bucket, and a bucket only holds movies of its genre. *)
Theorem group_main_keeps_best (cap : Z) (movies : list movie) :
  Forall rankable movies ->
  exists names d,
    group_main cap movies = Ok (names, d) /\
    forall g, g ∈ names ->
      exists sorted,
        sort_by_rank (of_genre g movies) = Ok sorted /\
        odict_get g d = Some (kept cap sorted) /\
        (0 < cap -> (length (kept cap sorted) <= Z.to_nat cap)%nat) /\
        (forall mv, mv ∈ kept cap sorted -> mv ∈ movies /\ g ∈ genres mv).
Proof.
  intros Hrank.
  destruct (group_main_buckets cap movies Hrank) as (d & E & _ & Hb & _).
  eexists _, d. split; [exact E|]. intros g Hg.
  destruct (Hb g Hg) as (sorted & Es & Eg).
  exists sorted. split; [done|]. split; [done|]. split.
  - intros Hcap. unfold kept. destruct (Z.ltb_spec 0 cap); [|lia].
    rewrite length_take. lia.
  - intros mv. now apply kept_of_genre.
Qed.

Lemma group_main_keeps_best_witness :
  let movies := [Scenario.flop; Scenario.hit] in
  Forall rankable movies /\
  exists names d,
    group_main 1 movies = Ok (names, d) /\
    forall g, g ∈ names ->
      exists sorted,
        sort_by_rank (of_genre g movies) = Ok sorted /\
        odict_get g d = Some (kept 1 sorted) /\
        (0 < 1 -> (length (kept 1 sorted) <= Z.to_nat 1)%nat) /\
        (forall mv, mv ∈ kept 1 sorted -> mv ∈ movies /\ g ∈ genres mv).
Proof.
  intros movies.
  assert (H : Forall rankable movies) by (repeat constructor).
  split; [exact H|]. exact (group_main_keeps_best 1 movies H).
Defined.

(** *** The grouping loop of [load_movies] *)

(** In [load_movies] the grouping loop walks the very list that is the
    ["All"] bucket; a movie with a genre named ["All"] is appended to that
    list while it is walked, so the loop meets it again and never ends:
    whatever the number of steps allowed, there is no grouped result. *)
Theorem gui_grouping_never_ends_with_genre_All (movies : list movie) (fuel : nat) :
  some_genre_named_All movies -> group_gui fuel movies = None.
Proof.
  intros (mv & Hin & Hbad). unfold group_gui.
  apply list_elem_of_lookup in Hin as [j Hj].
  rewrite (fill_buckets_diverges fuel 0 [("All", movies)] movies j mv);
    [done|done|lia|done|done].
Qed.

Lemma gui_grouping_never_ends_with_genre_All_witness :
  let mv := {| title := VStr "X"; year := VStr "2024"; rating := VFloat (Fin 7);
               votes := 10; popularity := Fin 5; providers := "Netflix";
               imdb_id := None; genres := ["All"] |} in
  some_genre_named_All [mv] /\ group_gui 1000 [mv] = None.
Proof.
  intros mv.
  assert (H : some_genre_named_All [mv]).
  { exists mv. split; left. }
  split; [exact H|].
  exact (gui_grouping_never_ends_with_genre_All [mv] 1000 H).
Defined.

End GroupMore.

(** ** The configuration *)

Module ConfigMore.
Import Config ConfigMoreSpec DirectoryMoreSpec.

(** *** [int(str(n))] *)

Lemma digitpart_digit c s acc n :
  is_digit c = true ->
  digitpart (String c s) acc n = digitpart s (10 * acc + digit_val c) (S n).
Proof. intros H. cbn [digitpart]. now rewrite H. Qed.

Lemma digitpart_uint_acc d : forall p n,
  digitpart (DecimalString.NilEmpty.string_of_uint d) (Z.pos p) n
  = (Z.pos (Pos.of_uint_acc d p), (n + Decimal.nb_digits d)%nat, EmptyString).
Proof.
  induction d as [|d IH|d IH|d IH|d IH|d IH|d IH|d IH|d IH|d IH|d IH];
    intros p n; cbn [DecimalString.NilEmpty.string_of_uint Pos.of_uint_acc
                     Decimal.nb_digits];
    [cbn; now rewrite Nat.add_0_r| ..];
    rewrite digitpart_digit by reflexivity;
    match goal with
    | |- digitpart _ (_ + digit_val ?c) _ = _ =>
        let v := eval vm_compute in (digit_val c) in change (digit_val c) with v
    end;
    match goal with
    | |- digitpart _ ?a _ = (Z.pos (Pos.of_uint_acc _ ?q), _, _) =>
        replace a with (Z.pos q) by lia
    end;
    rewrite IH; now rewrite Nat.add_succ_r.
Qed.

Lemma digitpart_uint d : forall n,
  digitpart (DecimalString.NilEmpty.string_of_uint d) 0 n
  = (Z.of_N (Pos.of_uint d), (n + Decimal.nb_digits d)%nat, EmptyString).
Proof.
  induction d as [|d IH|d IH|d IH|d IH|d IH|d IH|d IH|d IH|d IH|d IH];
    intros n; cbn [DecimalString.NilEmpty.string_of_uint Pos.of_uint
                   Decimal.nb_digits];
    [cbn; now rewrite Nat.add_0_r| ..];
    rewrite digitpart_digit by reflexivity;
    [change (10 * 0 + digit_val "0") with 0; rewrite IH; now rewrite Nat.add_succ_r| ..];
    match goal with
    | |- digitpart _ (_ + digit_val ?c) _ = _ =>
        let v := eval vm_compute in (digit_val c) in change (digit_val c) with v
    end;
    match goal with
    | |- digitpart _ ?a _ = (Z.of_N (N.pos (Pos.of_uint_acc _ ?q)), _, _) =>
        change a with (Z.pos q)
    end;
    rewrite digitpart_uint_acc; now rewrite Nat.add_succ_r.
Qed.

Lemma uint_digits_no_space d :
  string_forall not_space (DecimalString.NilEmpty.string_of_uint d) = true.
Proof. induction d; cbn; try done. Qed.

Lemma lstrip_no_space s : string_forall not_space s = true -> lstrip s = s.
Proof.
  destruct s as [|c s]; [done|]. cbn. unfold not_space.
  now destruct (is_space c).
Qed.

Lemma rstrip_no_space s : string_forall not_space s = true -> rstrip s = s.
Proof.
  induction s as [|c s IH]; [done|]. cbn [string_forall rstrip].
  intros [Hc Hs]%andb_prop. rewrite (IH Hs). unfold not_space in Hc.
  destruct (is_space c); [done|]. now destruct s.
Qed.

Lemma strip_no_space s : string_forall not_space s = true -> strip s = s.
Proof.
  intros H. unfold strip. rewrite (lstrip_no_space s H). now apply rstrip_no_space.
Qed.

Lemma to_uint_digits p :
  exists c s, DecimalString.NilEmpty.string_of_uint (Pos.to_uint p) = String c s /\
              is_digit c = true /\
              DecimalString.NilZero.string_of_uint (Pos.to_uint p) = String c s /\
              exists k, Decimal.nb_digits (Pos.to_uint p) = S k.
Proof.
  pose proof (DecimalPos.Unsigned.of_to p) as H.
  destruct (Pos.to_uint p) as [|d|d|d|d|d|d|d|d|d|d]; [discriminate| ..];
    cbn; eexists _, _; (split; [reflexivity|]); (split; [reflexivity|]);
    (split; [reflexivity|]); eauto.
Qed.

(** Reading back the decimal rendering of an integer gives the integer. *)
Lemma int_of_str_of_int (n : Z) : int_of_str (str_of_int n) = Ok n.
Proof.
  unfold str_of_int, int_of_str. destruct n as [|p|p]; [reflexivity| |].
  - cbn [Z.to_int DecimalString.NilZero.string_of_int].
    destruct (to_uint_digits p) as (c & s & E & Hc & E0 & k & Hk).
    rewrite E0, <- E. rewrite strip_no_space by apply uint_digits_no_space.
    assert (Hs : read_sign (DecimalString.NilEmpty.string_of_uint (Pos.to_uint p))
                 = (1, DecimalString.NilEmpty.string_of_uint (Pos.to_uint p))).
    { rewrite E. unfold read_sign.
      destruct c as [[] [] [] [] [] [] [] []]; try reflexivity; discriminate. }
    rewrite Hs, digitpart_uint, Hk, DecimalPos.Unsigned.of_to. cbn.
    reflexivity.
  - cbn [Z.to_int DecimalString.NilZero.string_of_int].
    destruct (to_uint_digits p) as (c & s & E & Hc & E0 & k & Hk).
    rewrite E0, <- E.
    assert (Hns : string_forall not_space
                    (String "-" (DecimalString.NilEmpty.string_of_uint (Pos.to_uint p)))
                  = true).
    { cbn [string_forall]. now rewrite uint_digits_no_space. }
    rewrite (strip_no_space _ Hns). cbn [read_sign].
    rewrite digitpart_uint, Hk, DecimalPos.Unsigned.of_to. cbn. reflexivity.
Qed.

(** *** [validate_int_env] *)

Lemma validate_int_env_min getenv name default min_val :
  min_val <= default ->
  exists v, validate_int_env getenv name default min_val = Ok v /\ min_val <= v.
Proof.
  intros Hd. unfold validate_int_env.
  destruct (int_of_str _) as [value|e] eqn:E.
  - destruct (Z.ltb_spec value min_val); eauto.
  - apply HttpMore.int_of_str_raises in E as ->. eauto.
Qed.

(** [validate_int_env] never raises.  It returns the integer the variable
    holds when the variable is set, reads as an integer and is not below
    the minimum, and the default in every other case: the variable is not
    set, does not read as an integer, or is below the minimum. *)
Theorem validate_int_env_value (getenv : string -> option string)
    (name : string) (default min_val : Z) :
  validate_int_env getenv name default min_val
  = Ok (validated getenv name default min_val).
Proof.
  unfold validate_int_env, validated, getenv_or.
  destruct (getenv name) as [s|].
  - destruct (int_of_str s) as [value|e] eqn:E.
    + now destruct (value <? min_val).
    + now apply HttpMore.int_of_str_raises in E as ->.
  - rewrite int_of_str_of_int. now destruct (default <? min_val).
Qed.

(** Whatever the environment holds, the configuration is usable: the
    country is not empty and has no blank at either end, the window is of
    one day at least, and the cap is not negative. *)
Theorem configuration_in_range (getenv : string -> option string) :
  COUNTRY getenv <> EmptyString /\
  strip (COUNTRY getenv) = COUNTRY getenv /\
  exists days cap,
    NEW_WINDOW_DAYS getenv = Ok days /\ 1 <= days /\
    MAX_RESULTS_PER_GENRE getenv = Ok cap /\ 0 <= cap.
Proof.
  split; [|split].
  - unfold COUNTRY. now destruct (strip (getenv_or getenv "COUNTRY" "US")).
  - unfold COUNTRY.
    destruct (strip (getenv_or getenv "COUNTRY" "US")) as [|c s] eqn:E;
      [reflexivity|].
    rewrite <- E. apply DirectoryMore.strip_idemp.
  - destruct (validate_int_env_min getenv "NEW_WINDOW_DAYS" 90 1) as (d & Ed & Hd);
      [lia|].
    destruct (validate_int_env_min getenv "MAX_RESULTS_PER_GENRE" 0 0)
      as (k & Ek & Hk); [lia|].
    now exists d, k.
Qed.

(** *** The preferred provider names *)

Lemma split_comma_not_nil s : split_comma s <> [].
Proof.
  destruct s as [|c s]; cbn; [done|].
  destruct (Ascii.eqb c ","); [done|]. now destruct (split_comma s).
Qed.

Lemma split_comma_no_comma s :
  Forall (fun p => string_forall not_comma p = true) (split_comma s).
Proof.
  induction s as [|c s IH]; cbn [split_comma]; [now repeat constructor|].
  destruct (Ascii.eqb c ",") eqn:E; [now constructor|].
  destruct (split_comma s) as [|p ps].
  - repeat constructor. cbn. unfold not_comma. now rewrite E.
  - inversion IH as [|? ? Hp Hps]; subst. constructor; [|done].
    cbn. unfold not_comma at 1. now rewrite E.
Qed.

Lemma lstrip_forall P s :
  string_forall P s = true -> string_forall P (lstrip s) = true.
Proof.
  induction s as [|c s IH]; [done|]. cbn.
  intros [Hc Hs]%andb_prop. destruct (is_space c); [auto|].
  cbn. now rewrite Hc, Hs.
Qed.

Lemma rstrip_forall P s :
  string_forall P s = true -> string_forall P (rstrip s) = true.
Proof.
  induction s as [|c s IH]; [done|]. rewrite DirectoryMore.rstrip_cons.
  cbn [string_forall]. intros [Hc Hs]%andb_prop. specialize (IH Hs).
  destruct (rstrip s) as [|d r].
  - destruct (is_space c); [done|]. cbn. now rewrite Hc.
  - change (string_forall P (String c (String d r)))
      with (P c && string_forall P (String d r)). now rewrite Hc, IH.
Qed.

(** Every preferred provider name read from [PROVIDERS] is a piece
    between commas with the blanks at its ends removed: it is not empty,
    has no blank at either end and holds no comma. *)
Theorem preferred_provider_names_trimmed (getenv : string -> option string)
    (p : string) :
  p ∈ PREFERRED_PROVIDER_NAMES getenv ->
  p <> EmptyString /\ strip p = p /\ string_forall not_comma p = true /\
  exists piece, piece ∈ split_comma (getenv_or getenv "PROVIDERS" "") /\
                p = strip piece.
Proof.
  unfold PREFERRED_PROVIDER_NAMES. intros Hp.
  apply elem_of_list_to_set in Hp.
  apply list_elem_of_fmap in Hp as (piece & -> & Hin).
  apply list_elem_of_In, List.filter_In in Hin as [Hin Hne].
  apply list_elem_of_In in Hin.
  split; [|split; [|split]].
  - intros E. rewrite E in Hne. discriminate.
  - apply DirectoryMore.strip_idemp.
  - unfold strip. apply rstrip_forall, lstrip_forall.
    pose proof (split_comma_no_comma (getenv_or getenv "PROVIDERS" "")) as H.
    rewrite Forall_forall in H. now apply H.
  - now exists piece.
Qed.

Lemma preferred_provider_names_trimmed_witness :
  let getenv := fun name : string =>
    if String.eqb name "PROVIDERS" then Some " Netflix , ,Disney Plus,"%string
    else None in
  PREFERRED_PROVIDER_NAMES getenv = {["Netflix"; "Disney Plus"]} /\
  "Disney Plus" <> EmptyString /\ strip "Disney Plus" = "Disney Plus" /\
  string_forall not_comma "Disney Plus" = true /\
  exists piece, piece ∈ split_comma (getenv_or getenv "PROVIDERS" "") /\
                "Disney Plus" = strip piece.
Proof.
  intros getenv.
  assert (E : PREFERRED_PROVIDER_NAMES getenv = {["Netflix"; "Disney Plus"]}).
  { unfold PREFERRED_PROVIDER_NAMES. cbn. set_solver. }
  split; [exact E|].
  apply (preferred_provider_names_trimmed getenv "Disney Plus").
  rewrite E. set_solver.
Defined.

End ConfigMore.

(** ** The CSV report *)

Module ReportMore.
Import Enrich Group Report GroupSpec GroupFacts OrderSpec GroupMoreSpec ReportMoreSpec.
Import GroupMore.

Lemma pairwise_app {A} (R : A -> A -> Prop) l1 l2 :
  pairwise R l1 -> pairwise R l2 ->
  (forall x y, x ∈ l1 -> y ∈ l2 -> R x y) ->
  pairwise R (l1 ++ l2).
Proof.
  induction l1 as [|a l1 IH]; cbn; [done|].
  intros [Ha H1] H2 H12. split.
  - apply Forall_app. split; [done|].
    apply Forall_forall. intros y Hy. apply H12; [left|done].
  - apply IH; [done|done|]. intros x y Hx. apply H12. now right.
Qed.

Lemma pairwise_flat_map {A B} (R0 : A -> A -> Prop) (R : B -> B -> Prop)
    (f : A -> list B) l :
  pairwise R0 l ->
  (forall a, a ∈ l -> pairwise R (f a)) ->
  (forall a b x y, R0 a b -> x ∈ f a -> y ∈ f b -> R x y) ->
  pairwise R (flat_map f l).
Proof.
  intros Hl Hf HR. induction l as [|a l IH]; cbn; [done|].
  destruct Hl as [Ha Hl]. apply pairwise_app.
  - apply Hf. left.
  - apply IH; [done|]. intros a' Ha'. apply Hf. now right.
  - intros x y Hx Hy. apply list_elem_of_In, in_flat_map in Hy as (a' & Ha' & Hy).
    apply list_elem_of_In in Ha', Hy. rewrite Forall_forall in Ha.
    apply (HR a a'); auto.
Qed.

Lemma pairwise_same {A B} (R : B -> B -> Prop) (f : A -> B) (l : list A) :
  (forall x y, x ∈ l -> y ∈ l -> R (f x) (f y)) -> pairwise R (f <$> l).
Proof.
  induction l as [|a l IH]; cbn; [done|]. intros H. split.
  - apply Forall_fmap, Forall_forall. intros y Hy. cbn. apply H; [left|now right].
  - apply IH. intros x y Hx Hy. apply H; now right.
Qed.

Lemma length_flat_map_sum {A B} (f : A -> list B) l :
  length (flat_map f l) = sum_list_with (fun a => length (f a)) l.
Proof.
  induction l as [|a l IH]; cbn; [done|]. now rewrite length_app, IH.
Qed.

Lemma sum_list_with_add {A} (f g : A -> nat) l :
  sum_list_with (fun a => (f a + g a)%nat) l
  = (sum_list_with f l + sum_list_with g l)%nat.
Proof. induction l as [|a l IH]; cbn; [done|]. rewrite IH. lia. Qed.

Lemma sum_list_with_ext_in {A} (f g : A -> nat) l :
  (forall a, a ∈ l -> f a = g a) -> sum_list_with f l = sum_list_with g l.
Proof.
  induction l as [|a l IH]; cbn; [done|]. intros H.
  rewrite (H a) by left. rewrite IH; [done|]. intros a' Ha'. apply H. now right.
Qed.

Lemma sum_list_with_zero {A} (l : list A) : sum_list_with (fun _ => 0%nat) l = 0%nat.
Proof. induction l; cbn; done. Qed.

(** Among names without repetition, a name that is there is met once. *)
Lemma indicator_sum (names : list string) g0 :
  NoDup names -> g0 ∈ names ->
  sum_list_with (fun g => if decide (g0 = g) then 1%nat else 0%nat) names = 1%nat.
Proof.
  induction 1 as [|x l Hx Hnd IH]; [intros H; now apply elem_of_nil in H|].
  cbn. intros Hin. destruct (decide (g0 = x)) as [->|Hne].
  - rewrite (sum_list_with_ext_in _ (fun _ => 0%nat)).
    + now rewrite sum_list_with_zero.
    + intros a Ha. destruct (decide (x = a)) as [->|]; done.
  - apply elem_of_cons in Hin as [|Hin]; [done|]. now rewrite IH.
Qed.

Lemma hits_count (names gs : list string) mv :
  NoDup names -> (forall g, g ∈ gs -> g ∈ names) ->
  sum_list_with (fun g => length (hits_in gs g mv)) names = length gs.
Proof.
  intros Hnd. induction gs as [|g0 gs IH]; intros Hin.
  - cbn. apply sum_list_with_zero.
  - rewrite (sum_list_with_ext_in _
               (fun g => ((if decide (g0 = g) then 1 else 0)
                          + length (hits_in gs g mv))%nat)).
    + rewrite sum_list_with_add, indicator_sum by (done || apply Hin; left).
      rewrite IH; [done|]. intros g Hg. apply Hin. now right.
    + intros g _. unfold hits_in. cbn [flat_map]. rewrite length_app.
      now destruct (decide (g0 = g)).
Qed.

(** Counting by genre and counting by movie give the same number. *)
Lemma of_genre_count (names : list string) movies :
  NoDup names ->
  (forall mv g, mv ∈ movies -> g ∈ genres mv -> g ∈ names) ->
  sum_list_with (fun g => length (of_genre g movies)) names = genre_listings movies.
Proof.
  intros Hnd. induction movies as [|mv movies IH]; intros Hin.
  - cbn. apply sum_list_with_zero.
  - unfold genre_listings. cbn [sum_list_with]. fold (genre_listings movies).
    rewrite (sum_list_with_ext_in _
               (fun g => (length (hits g mv) + length (of_genre g movies))%nat)).
    + rewrite sum_list_with_add. unfold hits. rewrite hits_count; [|done|].
      * rewrite IH; [done|]. intros mv' g Hmv'. apply Hin. now right.
      * intros g. apply Hin. left.
    + intros g _. unfold of_genre. cbn [flat_map]. now rewrite length_app.
Qed.

Lemma csv_rows_flat ns d :
  (forall g, g ∈ ns -> is_Some (odict_get g d)) ->
  csv_rows ns d = Ok (flat_map (fun g => csv_row_of g <$> bucket_of d g) ns).
Proof.
  induction ns as [|g ns IH]; intros H; cbn [csv_rows flat_map]; [done|].
  destruct (H g) as [b Eb]; [left|]. unfold bucket_of at 1. rewrite Eb.
  rewrite IH by (intros g' Hg'; apply H; now right). reflexivity.
Qed.

Lemma caseless_le_refl g : caseless_le g g.
Proof.
  unfold caseless_le, String.ltb.
  pose proof (String.compare_antisym (lower g) (lower g)) as H.
  now destruct (String.compare (lower g) (lower g)).
Qed.

(** The CSV report has one row per movie and genre, grouped by genre.  For
    movies whose sort keys exist, [main] writes its rows without raising;
    every row is a movie under one of its genres; the rows come by genre
    in alphabetical order with case ignored; and without a cap there are as
    many rows as (movie, genre) pairs. *)
Theorem csv_one_row_per_movie_and_genre (cap : Z) (movies : list movie) :
  Forall rankable movies ->
  exists rows,
    main_csv cap movies = Ok rows /\
    (forall row, row ∈ rows ->
       exists mv, mv ∈ movies /\ csv_genre row ∈ genres mv /\
                  row = csv_row_of (csv_genre row) mv) /\
    pairwise genre_order rows /\
    (cap <= 0 -> length rows = genre_listings movies).
Proof.
  intros Hrank.
  destruct (group_main_buckets cap movies Hrank) as (d & E & Hnd & Hb & _).
  destruct (genre_names_order movies) as [Hnames Hord].
  set (names := genre_names_sorted (by_genre_of movies)) in *.
  assert (Hbucket : forall g, g ∈ names ->
            exists sorted, sort_by_rank (of_genre g movies) = Ok sorted /\
                           bucket_of d g = kept cap sorted).
  { intros g Hg. destruct (Hb g Hg) as (sorted & Es & Eg).
    exists sorted. split; [done|]. unfold bucket_of. now rewrite Eg. }
  exists (flat_map (fun g => csv_row_of g <$> bucket_of d g) names).
  split; [|split; [|split]].
  - unfold main_csv. rewrite E. cbn. apply csv_rows_flat.
    intros g Hg. destruct (Hb g Hg) as (sorted & _ & Eg). rewrite Eg. eauto.
  - intros row Hrow.
    apply list_elem_of_In, in_flat_map in Hrow as (g & Hg & Hrow).
    apply list_elem_of_In in Hg, Hrow.
    apply list_elem_of_fmap in Hrow as (mv & -> & Hmv).
    destruct (Hbucket g Hg) as (sorted & Es & Eg). rewrite Eg in Hmv.
    destruct (kept_of_genre cap g movies sorted mv Es Hmv) as [Hin Hgen].
    exists mv. cbn. done.
  - apply (pairwise_flat_map caseless_le); [exact Hord| |].
    + intros g _. apply pairwise_same. intros x y _ _. apply caseless_le_refl.
    + intros g1 g2 x y H12 Hx Hy.
      apply list_elem_of_fmap in Hx as (mv1 & -> & _).
      apply list_elem_of_fmap in Hy as (mv2 & -> & _). exact H12.
  - intros Hcap. rewrite length_flat_map_sum.
    rewrite (sum_list_with_ext_in _ (fun g => length (of_genre g movies))).
    + apply of_genre_count; [done|]. intros mv g Hmv Hg. apply Hnames. eauto.
    + intros g Hg. destruct (Hbucket g Hg) as (sorted & Es & Eg).
      rewrite length_fmap, Eg. unfold kept.
      destruct (Z.ltb_spec 0 cap); [lia|].
      symmetry. apply Permutation_length. now apply sort_by_rank_perm.
Qed.

Lemma csv_one_row_per_movie_and_genre_witness :
  let movies := [Scenario.flop; Scenario.hit] in
  Forall rankable movies /\
  exists rows,
    main_csv 0 movies = Ok rows /\
    (forall row, row ∈ rows ->
       exists mv, mv ∈ movies /\ csv_genre row ∈ genres mv /\
                  row = csv_row_of (csv_genre row) mv) /\
    pairwise genre_order rows /\
    (0 <= 0 -> length rows = genre_listings movies).
Proof.
  intros movies.
  assert (H : Forall rankable movies) by (repeat constructor).
  split; [exact H|]. exact (csv_one_row_per_movie_and_genre 0 movies H).
Defined.

End ReportMore.

(** ** The screen of the desktop application *)

Module GuiMore.
Import Enrich Group Gui GroupSpec GroupFacts OrderSpec GroupMoreSpec.
Import GroupMore.

Lemma sort_buckets_keys d d' : sort_buckets d = Ok d' -> odict_keys d' = odict_keys d.
Proof.
  revert d'. induction d as [|[g b] d IH]; intros d'; cbn [sort_buckets].
  - now intros [= <-].
  - destruct (sort_by_rank b) as [sorted|]; [|done]. cbn.
    destruct (sort_buckets d) as [rest|]; [|done]. cbn. intros [= <-].
    unfold odict_keys in *. cbn. now rewrite (IH rest).
Qed.

Lemma add_to_genres_keys d mv g :
  g ∈ odict_keys (add_to_genres d mv) <-> g ∈ odict_keys d \/ g ∈ genres mv.
Proof. rewrite <- !odict_get_Some_key. apply add_to_genres_key. Qed.

Lemma fill_buckets_keys movies :
  no_genre_named_All movies ->
  forall fuel i d d',
    odict_get "All" d = Some movies -> fill_buckets fuel i d = Some d' ->
    NoDup (odict_keys d) ->
    NoDup (odict_keys d') /\
    forall g, g ∈ odict_keys d'
              <-> g ∈ odict_keys d \/ exists mv, mv ∈ drop i movies /\ g ∈ genres mv.
Proof.
  intros HnoAll. induction fuel as [|fuel IH]; intros i d d' HAll; [done|].
  cbn [fill_buckets]. rewrite HAll. cbn.
  destruct (movies !! i) as [mv|] eqn:Ei.
  - intros E Hnd.
    assert (Hmv : "All" ∉ genres mv).
    { unfold no_genre_named_All in HnoAll. rewrite Forall_forall in HnoAll.
      apply HnoAll. now apply list_elem_of_lookup_2 in Ei. }
    destruct (IH (S i) (add_to_genres d mv) d') as [Hnd' Hkeys];
      [now rewrite add_to_genres_keeps_All|done|now apply add_to_genres_NoDup|].
    split; [done|]. intros g. rewrite Hkeys, add_to_genres_keys.
    rewrite (drop_S movies mv i Ei). split.
    + intros [[|]|(mv' & Hin & Hg)]; [tauto| |].
      * right. exists mv. split; [left|done].
      * right. exists mv'. split; [now right|done].
    + intros [|(mv' & Hin & Hg)]; [tauto|].
      apply elem_of_cons in Hin as [->|Hin]; [tauto|]. right. eauto.
  - intros [= <-] Hnd. split; [done|]. intros g.
    apply lookup_ge_None in Ei. rewrite drop_ge by done.
    split; [tauto|]. intros [|(mv & Hin & _)]; [done|].
    now apply elem_of_nil in Hin.
Qed.

Lemma pairwise_filter {A} (R : A -> A -> Prop) (P : A -> bool) l :
  pairwise R l -> pairwise R (List.filter P l).
Proof.
  induction l as [|a l IH]; cbn; [done|]. intros [Ha Hl].
  destruct (P a); cbn; [|auto]. split; [|auto].
  apply Forall_forall. intros x Hx.
  apply list_elem_of_In, List.filter_In in Hx as [Hx _].
  rewrite Forall_forall in Ha. apply Ha. now apply list_elem_of_In.
Qed.

Lemma pairwise_strict l :
  NoDup l -> pairwise string_le l -> pairwise string_lt l.
Proof.
  induction 1 as [|a l Ha Hnd IH]; cbn; [done|]. intros [Hal Hl].
  split; [|auto]. rewrite Forall_forall in Hal. apply Forall_forall.
  intros x Hx. specialize (Hal x Hx). unfold string_le, String.ltb in Hal.
  unfold string_lt. rewrite (String.compare_antisym x a) in Hal.
  destruct (String.compare a x) eqn:E; try done.
  apply String.compare_eq_iff in E as ->. done.
Qed.

Lemma sorted_strings_order l : pairwise string_le (sorted_strings l).
Proof.
  unfold sorted_strings.
  apply (stable_sort_pairwise (fun y x => String.ltb y x) (fun _ => True)).
  - intros x y _ _. apply ltb_asym.
  - intros x y z _ _ _. apply ltb_le_trans.
  - apply Forall_forall. done.
Qed.

Lemma elem_of_genre_chips d g :
  g ∈ genre_chips d <-> g <> "All" /\ g ∈ odict_keys d.
Proof.
  unfold genre_chips. cbn.
  rewrite list_elem_of_In, List.filter_In, <- list_elem_of_In.
  unfold sorted_strings. rewrite stable_sort_perm.
  destruct (String.eqb_spec g "All") as [->|Hne]; cbn; split; try tauto.
  intros [_ [=]].
Qed.

(** What the screen shows once [load_movies] has grouped movies whose
    sort keys exist, none of a genre named ["All"]: the chips are the
    genres met, each once, in increasing order, and none of them is
    ["All"]; the status line counts every movie once; the first list
    shows all the movies; and pressing the chip of a genre lists exactly
    the movies of that genre. *)
Theorem screen_of_loaded_movies (movies : list movie) (fuel : nat) :
  Forall rankable movies -> no_genre_named_All movies ->
  (length movies < fuel)%nat ->
  exists d,
    group_gui fuel movies = Some (Ok d) /\
    pairwise string_lt (genre_chips d) /\
    ("All" ∉ genre_chips d) /\
    (forall g, g ∈ genre_chips d <-> exists mv, mv ∈ movies /\ g ∈ genres mv) /\
    total d = length movies /\
    Permutation (filter_genre "All" d) movies /\
    (forall g mv, g ∈ genre_chips d ->
       mv ∈ filter_genre g d <-> mv ∈ movies /\ g ∈ genres mv).
Proof.
  intros Hrank HnoAll Hfuel.
  destruct (group_gui_spec fuel movies Hrank HnoAll Hfuel)
    as (d & all & E & EA & Hp & Hin).
  assert (Hkeys : NoDup (odict_keys d) /\
            forall g, g ∈ odict_keys d
                      <-> g = "All" \/ exists mv, mv ∈ movies /\ g ∈ genres mv).
  { unfold group_gui in E.
    destruct (fill_buckets fuel 0 [("All", movies)]) as [d1|] eqn:E1; [|done].
    cbn in E. injection E as E.
    destruct (fill_buckets_keys movies HnoAll fuel 0 [("All", movies)] d1)
      as [Hnd Hk]; [done|done|apply NoDup_singleton|].
    rewrite (sort_buckets_keys d1 d E). split; [done|].
    intros g. rewrite Hk, drop_0. cbn. rewrite list_elem_of_singleton. tauto. }
  destruct Hkeys as [Hnd Hkeys].
  assert (HnoAllg : forall g mv, mv ∈ movies -> g ∈ genres mv -> g <> "All").
  { intros g mv Hmv Hg ->. unfold no_genre_named_All in HnoAll.
    rewrite Forall_forall in HnoAll. now apply (HnoAll mv). }
  assert (Hchips : forall g, g ∈ genre_chips d
                             <-> exists mv, mv ∈ movies /\ g ∈ genres mv).
  { intros g. rewrite elem_of_genre_chips, Hkeys. split.
    - intros [Hne [|]]; done.
    - intros (mv & Hmv & Hg). split; [now apply (HnoAllg g mv)|eauto]. }
  exists d. split; [done|]. split; [|split; [|split; [done|split; [|split]]]].
  - apply pairwise_strict.
    + unfold genre_chips. cbn. apply NoDup_ListNoDup, List.NoDup_filter.
      apply NoDup_ListNoDup. unfold sorted_strings. now rewrite stable_sort_perm.
    + unfold genre_chips. cbn. apply pairwise_filter, sorted_strings_order.
  - rewrite elem_of_genre_chips. now intros [? _].
  - unfold total. rewrite EA. cbn. symmetry. now apply Permutation_length.
  - unfold filter_genre. rewrite EA. cbn. now symmetry.
  - intros g mv Hg. apply elem_of_genre_chips in Hg as [Hne _].
    rewrite <- (Hin g mv Hne). symmetry. apply in_bucket_bucket_of.
Qed.

Lemma screen_of_loaded_movies_witness :
  let movies := [Scenario.flop; Scenario.hit] in
  (Forall rankable movies /\ no_genre_named_All movies /\
   (length movies < 3)%nat) /\
  exists d,
    group_gui 3 movies = Some (Ok d) /\
    pairwise string_lt (genre_chips d) /\
    ("All" ∉ genre_chips d) /\
    (forall g, g ∈ genre_chips d <-> exists mv, mv ∈ movies /\ g ∈ genres mv) /\
    total d = length movies /\
    Permutation (filter_genre "All" d) movies /\
    (forall g mv, g ∈ genre_chips d ->
       mv ∈ filter_genre g d <-> mv ∈ movies /\ g ∈ genres mv).
Proof.
  intros movies.
  assert (H1 : Forall rankable movies) by (repeat constructor).
  assert (H2 : no_genre_named_All movies).
  { repeat constructor; intros H; apply list_elem_of_singleton in H;
      discriminate. }
  assert (H3 : (length movies < 3)%nat) by (cbn; lia).
  split; [done|]. exact (screen_of_loaded_movies movies 3 H1 H2 H3).
Defined.

End GuiMore.
